(** * Battleoids: the simulation core, embedded and verified

    A shallow embedding of the TypeScript simulation core of the arcade game
    (entities, spawner, collision detector and the session orchestrator),
    followed by the properties its specification states about it.

    Conventions of the embedding.
    - A JavaScript [number] is a real number ([R]); [Math.sqrt], [Math.abs],
      [Math.min], [Math.max], [Math.cos] and [Math.sin] are the functions of
      the real-number library, and comparisons are the boolean tests below.
      Integer-valued counters of the session ([score], [lives], [level]) are
      integers ([Z]).
    - A class is a record; a subclass carries its base class as its first
      field, which is also a coercion, so [transform s] reads
      [s.transform] for every entity [s].
    - A method that mutates [this] takes the receiver last and returns the
      new receiver.
    - [Math.random()] reads the next cell of an infinite tape of numbers
      (see [Rng]); every function that draws random numbers threads the
      tape.
    - A [do ... while] loop takes a fuel argument, the number of rounds
      the model is willing to run, and answers [Fail OutOfFuel] when the
      fuel runs out before the loop exits; a call that throws answers
      [Fail TypeError].
    - The repository carries several revisions of some files.  The
      orchestrator embedded here is the latest one (with score submission),
      together with the spawner, the UFO and the gravity well it is written
      against; the ship and the asteroid are embedded from
      entities/ship.ts and entities/asteroid.ts with the constants those
      files carry themselves (asteroid.ts draws the spin between -2 and 2,
      where core/config.ts has a spin range of -3 to 3). *)

From Stdlib Require Import Reals Lra Lia ZArith List Bool String.
Import ListNotations.
Open Scope R_scope.

(* ================================================================== *)
(** ** Numbers *)

Definition Rltb (a b : R) : bool := if Rlt_dec a b then true else false.
Definition Rleb (a b : R) : bool := if Rle_dec a b then true else false.
Definition Rgtb (a b : R) : bool := Rltb b a.
Definition Rgeb (a b : R) : bool := Rleb b a.

(** [a === b] on numbers. *)
Definition Reqb (a b : R) : bool := if Req_EM_T a b then true else false.

Notation "a <? b" := (Rltb a b) (at level 70, no associativity) : R_scope.
Notation "a <=? b" := (Rleb a b) (at level 70, no associativity) : R_scope.
Notation "a >? b" := (Rgtb a b) (at level 70, no associativity) : R_scope.
Notation "a >=? b" := (Rgeb a b) (at level 70, no associativity) : R_scope.

(** [Math.floor]. *)
Definition floor (a : R) : Z := Int_part a.

(** [Math.hypot] of two arguments. *)
Definition hypot (a b : R) : R := sqrt (a * a + b * b).

(** [Math.atan2(dy, dx)], by quadrant. *)
Definition atan2 (dy dx : R) : R :=
  if 0 <? dx then atan (dy / dx)
  else if dx <? 0 then
    (if 0 <=? dy then atan (dy / dx) + PI else atan (dy / dx) - PI)
  else if 0 <? dy then PI / 2
  else if dy <? 0 then - (PI / 2)
  else 0.

(* ================================================================== *)
(** ** core/types.ts *)

Record Vector2 : Type := mkVector2 { x : R; y : R }.

Record Transform : Type := mkTransform {
  position : Vector2;
  rotation : R;
  scale : R
}.

Definition Shape : Type := list Vector2.

Record Entity : Type := mkEntity {
  transform : Transform;
  velocity : Vector2;
  angularVelocity : R;
  shape : Shape;
  radius : R;
  isActive : bool
}.

Inductive AsteroidSize : Type := large | medium | small.

(** Field assignments on an entity. *)
Definition setPosition (p : Vector2) (e : Entity) : Entity :=
  mkEntity (mkTransform p (rotation (transform e)) (scale (transform e)))
           (velocity e) (angularVelocity e) (shape e) (radius e) (isActive e).

Definition setRotation (r : R) (e : Entity) : Entity :=
  mkEntity (mkTransform (position (transform e)) r (scale (transform e)))
           (velocity e) (angularVelocity e) (shape e) (radius e) (isActive e).

Definition setVelocity (v : Vector2) (e : Entity) : Entity :=
  mkEntity (transform e) v (angularVelocity e) (shape e) (radius e) (isActive e).

Definition setAngularVelocity (w : R) (e : Entity) : Entity :=
  mkEntity (transform e) (velocity e) w (shape e) (radius e) (isActive e).

Definition setShape (s : Shape) (e : Entity) : Entity :=
  mkEntity (transform e) (velocity e) (angularVelocity e) s (radius e) (isActive e).

Definition setRadius (r : R) (e : Entity) : Entity :=
  mkEntity (transform e) (velocity e) (angularVelocity e) (shape e) r (isActive e).

Definition setActive (b : bool) (e : Entity) : Entity :=
  mkEntity (transform e) (velocity e) (angularVelocity e) (shape e) (radius e) b.

(* ================================================================== *)
(** ** Results of calls that may not return *)

Inductive Err : Type :=
| TypeError   (* reading a property of [undefined] *)
| OutOfFuel.  (* an unbounded loop did not exit within the fuel given *)

Inductive Res (A : Type) : Type :=
| Ok (a : A)
| Fail (e : Err).
Arguments Ok {A} a.
Arguments Fail {A} e.

Definition Res_bind {A B : Type} (r : Res A) (k : A -> Res B) : Res B :=
  match r with
  | Ok a => k a
  | Fail e => Fail e
  end.

(* ================================================================== *)
(** ** The random source *)

(** [Math.random()] returns the tape cell under the cursor and advances the
    cursor.  A tape is well formed when every cell lies in [0, 1). *)
Record Rng : Type := mkRng { tape : nat -> R; cursor : nat }.

Definition wf_tape (t : nat -> R) : Prop := forall n, 0 <= t n < 1.

Definition Rand (A : Type) : Type := Rng -> A * Rng.

Definition ret {A : Type} (a : A) : Rand A := fun g => (a, g).

Definition bind {A B : Type} (m : Rand A) (k : A -> Rand B) : Rand B :=
  fun g => let (a, g') := m g in k a g'.

Declare Scope rand_scope.
Delimit Scope rand_scope with rand.
Notation "v <- m ;; k" := (bind m (fun v => k))
  (at level 61, m at next level, right associativity) : rand_scope.
Notation "' p <- m ;; k" := (bind m (fun v => let p := v in k))
  (at level 61, p pattern, m at next level, right associativity) : rand_scope.
Open Scope rand_scope.

Definition Math_random : Rand R :=
  fun g => (tape g (cursor g), mkRng (tape g) (S (cursor g))).

(* ================================================================== *)
(** ** physics/math.ts *)

Module math.

Definition add (a b : Vector2) : Vector2 :=
  mkVector2 (x a + x b) (y a + y b).

Definition subtract (a b : Vector2) : Vector2 :=
  mkVector2 (x a - x b) (y a - y b).

Definition scale (v : Vector2) (scalar : R) : Vector2 :=
  mkVector2 (x v * scalar) (y v * scalar).

Definition magnitude (v : Vector2) : R :=
  sqrt (x v * x v + y v * y v).

Definition rotate (point : Vector2) (angle : R) : Vector2 :=
  let c := cos angle in
  let s := sin angle in
  mkVector2 (x point * c - y point * s) (x point * s + y point * c).

Definition distance (a b : Vector2) : R :=
  let dx := x b - x a in
  let dy := y b - y a in
  sqrt (dx * dx + dy * dy).

(** Returns a random float between min and max. *)
Definition randomRange (min max : R) : Rand R :=
  r <- Math_random ;; ret (min + r * (max - min)).

(** Returns a random integer between min and max (inclusive). *)
Definition randomInt (min max : R) : Rand Z :=
  r <- randomRange min (max + 1) ;; ret (floor r).

Definition angleToVector (angle : R) : Vector2 :=
  mkVector2 (sin angle) (- cos angle).


Definition normalize (v : Vector2) : Vector2 :=
  let mag := magnitude v in
  if Reqb mag 0 then mkVector2 0 0
  else mkVector2 (x v / mag) (y v / mag).

(** Wraps a position around screen boundaries. *)
Definition wrapPosition (pos : Vector2) (width height : R) : Vector2 :=
  let x0 := x pos in
  let y0 := y pos in
  let x0 := if x0 <? 0 then x0 + width else x0 in
  let x0 := if x0 >? width then x0 - width else x0 in
  let y0 := if y0 <? 0 then y0 + height else y0 in
  let y0 := if y0 >? height then y0 - height else y0 in
  mkVector2 x0 y0.

End math.

(* ================================================================== *)
(** ** core/config.ts *)

Module CONFIG.
Module screen.
Definition width : R := 800.
Definition height : R := 600.
End screen.
Module ship.
Definition radius : R := 12.
Definition invulnerabilityOnSpawn : R := 3.
End ship.
Module hyperspace.
Definition shrinkTime : R := 3 / 10.
Definition warpTime : R := 2 / 10.
Definition expandTime : R := 3 / 10.
Definition cooldown : R := 5.
Definition invulnerability : R := 2.
End hyperspace.
Module bullet.
Definition speed : R := 500.
Definition lifetime : R := 15 / 10.
Definition radius : R := 2.
Definition fireCooldown : R := 25 / 100.
End bullet.
Module asteroid.
Definition startingCount : Z := 4.
End asteroid.
Module ufo.
Record SizeConfig : Type := mkSizeConfig {
  radius : R; speed : R; points : Z; shootCooldown : R
}.
Definition large : SizeConfig := mkSizeConfig 20 100 200 2.
Definition small : SizeConfig := mkSizeConfig 12 150 1000 1.
Definition smallChanceBase : R := 3 / 10.
Definition smallChancePerLevel : R := 5 / 100.
Definition smallChanceMax : R := 7 / 10.
Definition verticalSpeedFactor : R := 3 / 10.
Module directionChangeInterval.
Definition min : R := 5 / 10.
Definition max : R := 15 / 10.
End directionChangeInterval.
Module spawnDelay.
Definition min : R := 15.
Definition max : R := 30.
End spawnDelay.
End ufo.
Module gravityWell.
Definition pullRadius : R := 300.
Definition visualRadius : R := 30.
Module pullStrength.
Definition min : R := 150.
Definition max : R := 500.
End pullStrength.
Module spawnDelay.
Definition min : R := 20.
Definition max : R := 40.
End spawnDelay.
Module duration.
Definition min : R := 6.
Definition max : R := 10.
End duration.
Definition spawnMargin : R := 100.
Definition spawnMinDistanceFromShip : R := 150.
End gravityWell.
Module timing.
Definition respawnDelay : R := 2.
Definition gameOverReturnDelay : R := 10.
Definition maxDeltaTime : R := 1 / 10.
End timing.
Module visual.
Definition debrisLifetime : R := 15 / 10.
Definition debrisSpeed : R := 100.
Definition hyperspaceParticleCount : nat := 24.
Definition gravityWellSpiralArms : nat := 4.
Definition gravityWellPointsPerArm : nat := 10.
End visual.
Module initialState.
Definition score : Z := 0.
Definition lives : Z := 3.
Definition level : Z := 1.
End initialState.
Module debug.
Definition disablePlayerCollision : bool := true.
Definition alwaysShowGravityWell : bool := false.
End debug.
End CONFIG.

(* ================================================================== *)
(** ** physics/collision.ts *)

Module collision.

(** Simple circle-based collision detection. *)
Definition checkCollision (a b : Entity) : bool :=
  if negb (isActive a) || negb (isActive b) then false
  else
    let dist := math.distance (position (transform a)) (position (transform b)) in
    dist <? radius a + radius b.



End collision.

(* ================================================================== *)
(** ** entities/baseEntity.ts *)

Module baseEntity.

(** [BaseEntity]: the field initialisers, then the constructor body. *)
Definition BaseEntity (x0 y0 : R) : Entity :=
  mkEntity (mkTransform (mkVector2 x0 y0) 0 1) (mkVector2 0 0) 0 [] 0 true.

Definition updatePhysics (dt : R) (e : Entity) : Entity :=
  let e1 :=
    setPosition (math.add (position (transform e)) (math.scale (velocity e) dt)) e in
  setRotation (rotation (transform e1) + angularVelocity e1 * dt) e1.

(** Entity with a finite lifetime. *)
Record TimedEntity : Type := mkTimedEntity {
  timed_base :> Entity;
  lifetime : R
}.

Definition TimedEntity_new (x0 y0 lifetime0 : R) : TimedEntity :=
  mkTimedEntity (BaseEntity x0 y0) lifetime0.

Definition TimedEntity_update (dt : R) (t : TimedEntity) : TimedEntity :=
  let e := updatePhysics dt t in
  let l := lifetime t - dt in
  if l <=? 0 then mkTimedEntity (setActive false e) l
  else mkTimedEntity e l.

(** Entity that awards points when destroyed. *)
Record ScoreableEntity : Type := mkScoreableEntity {
  scoreable_base :> Entity;
  points : Z
}.

Definition ScoreableEntity_new (x0 y0 : R) (points0 : Z) : ScoreableEntity :=
  mkScoreableEntity (BaseEntity x0 y0) points0.


(** A run of [TimedEntity.update] calls, one per frame, oldest first. *)
Definition TimedEntity_updates (dts : list R) (t : TimedEntity) : TimedEntity :=
  fold_left (fun t dt => TimedEntity_update dt t) dts t.

End baseEntity.

Coercion baseEntity.timed_base : baseEntity.TimedEntity >-> Entity.
Coercion baseEntity.scoreable_base : baseEntity.ScoreableEntity >-> Entity.

(* ================================================================== *)
(** ** entities/ship.ts *)

Module ship.

Definition SHIP_SHAPE : Shape :=
  [ mkVector2 0 (-15); mkVector2 10 12; mkVector2 0 6; mkVector2 (-10) 12 ].

Definition ROTATION_SPEED : R := 5.
Definition THRUST_POWER : R := 200.
Definition MAX_SPEED : R := 400.

Definition HYPERSPACE_SHRINK_TIME : R := 3 / 10.
Definition HYPERSPACE_WARP_TIME : R := 2 / 10.
Definition HYPERSPACE_EXPAND_TIME : R := 3 / 10.
Definition HYPERSPACE_COOLDOWN : R := 5.
Definition HYPERSPACE_INVULNERABILITY : R := 2.

Inductive HyperspaceState : Type := idle | shrinking | warping | expanding.

Definition HyperspaceState_eqb (a b : HyperspaceState) : bool :=
  match a, b with
  | idle, idle | shrinking, shrinking
  | warping, warping | expanding, expanding => true
  | _, _ => false
  end.

Record Ship : Type := mkShip {
  ship_base :> Entity;
  isThrusting : bool;
  invulnerableTime : R;
  hyperspaceState : HyperspaceState;
  hyperspaceTimer : R;
  hyperspaceCooldown : R;
  hyperspaceTargetPosition : Vector2
}.

(** Field assignments. *)
Definition setBase (e : Entity) (s : Ship) : Ship :=
  mkShip e (isThrusting s) (invulnerableTime s) (hyperspaceState s)
         (hyperspaceTimer s) (hyperspaceCooldown s) (hyperspaceTargetPosition s).
Definition setIsThrusting (b : bool) (s : Ship) : Ship :=
  mkShip s b (invulnerableTime s) (hyperspaceState s)
         (hyperspaceTimer s) (hyperspaceCooldown s) (hyperspaceTargetPosition s).
Definition setInvulnerableTime (t : R) (s : Ship) : Ship :=
  mkShip s (isThrusting s) t (hyperspaceState s)
         (hyperspaceTimer s) (hyperspaceCooldown s) (hyperspaceTargetPosition s).
Definition setHyperspaceState (h : HyperspaceState) (s : Ship) : Ship :=
  mkShip s (isThrusting s) (invulnerableTime s) h
         (hyperspaceTimer s) (hyperspaceCooldown s) (hyperspaceTargetPosition s).
Definition setHyperspaceTimer (t : R) (s : Ship) : Ship :=
  mkShip s (isThrusting s) (invulnerableTime s) (hyperspaceState s)
         t (hyperspaceCooldown s) (hyperspaceTargetPosition s).
Definition setHyperspaceCooldown (t : R) (s : Ship) : Ship :=
  mkShip s (isThrusting s) (invulnerableTime s) (hyperspaceState s)
         (hyperspaceTimer s) t (hyperspaceTargetPosition s).
Definition setHyperspaceTargetPosition (p : Vector2) (s : Ship) : Ship :=
  mkShip s (isThrusting s) (invulnerableTime s) (hyperspaceState s)
         (hyperspaceTimer s) (hyperspaceCooldown s) p.

(** The field initialisers, then the constructor body. *)
Definition new (x0 y0 : R) : Ship :=
  mkShip (mkEntity (mkTransform (mkVector2 x0 y0) 0 1) (mkVector2 0 0) 0
                   SHIP_SHAPE 12 true)
         false 0 idle 0 0 (mkVector2 0 0).

Definition reset (x0 y0 : R) (s : Ship) : Ship :=
  let e := setPosition (mkVector2 x0 y0) s in
  let e := setRotation 0 e in
  let e := setVelocity (mkVector2 0 0) e in
  let e := setActive true e in
  setInvulnerableTime 3 (setBase e s).

Definition rotateLeft (dt : R) (s : Ship) : Ship :=
  setBase (setRotation (rotation (transform s) - ROTATION_SPEED * dt) s) s.

Definition rotateRight (dt : R) (s : Ship) : Ship :=
  setBase (setRotation (rotation (transform s) + ROTATION_SPEED * dt) s) s.

Definition thrust (dt : R) (s : Ship) : Ship :=
  let s := setIsThrusting true s in
  let direction := math.angleToVector (rotation (transform s)) in
  let acceleration := math.scale direction (THRUST_POWER * dt) in
  let s := setBase (setVelocity (math.add (velocity s) acceleration) s) s in
  let speed := math.magnitude (velocity s) in
  if speed >? MAX_SPEED
  then setBase (setVelocity (math.scale (velocity s) (MAX_SPEED / speed)) s) s
  else s.

(** The [switch] of [update]: one hyperspace phase hands over to the next
    when its timer has reached the phase's duration. *)
Definition hyperspacePhase (s : Ship) : Ship :=
  match hyperspaceState s with
  | shrinking =>
      if hyperspaceTimer s >=? HYPERSPACE_SHRINK_TIME
      then setHyperspaceTimer 0 (setHyperspaceState warping s)
      else s
  | warping =>
      if hyperspaceTimer s >=? HYPERSPACE_WARP_TIME
      then
        let s := setBase (setPosition (mkVector2 (x (hyperspaceTargetPosition s))
                                                 (y (hyperspaceTargetPosition s))) s) s in
        let s := setBase (setVelocity (mkVector2 0 0) s) s in
        setHyperspaceTimer 0 (setHyperspaceState expanding s)
      else s
  | expanding =>
      if hyperspaceTimer s >=? HYPERSPACE_EXPAND_TIME
      then
        setHyperspaceCooldown HYPERSPACE_COOLDOWN
          (setHyperspaceTimer 0 (setHyperspaceState idle s))
      else s
  | idle => s
  end.

Definition update (dt : R) (s : Ship) : Ship :=
  (* Update hyperspace animation *)
  let s :=
    if negb (HyperspaceState_eqb (hyperspaceState s) idle)
    then hyperspacePhase (setHyperspaceTimer (hyperspaceTimer s + dt) s)
    else s in
  (* Update hyperspace cooldown *)
  let s :=
    if hyperspaceCooldown s >? 0
    then setHyperspaceCooldown (hyperspaceCooldown s - dt) s
    else s in
  (* Update position (only when not in warp phase) *)
  let s :=
    if negb (HyperspaceState_eqb (hyperspaceState s) warping)
    then setBase (setPosition (math.add (position (transform s))
                                        (math.scale (velocity s) dt)) s) s
    else s in
  (* Count down invulnerability *)
  if invulnerableTime s >? 0
  then setInvulnerableTime (invulnerableTime s - dt) s
  else s.

Definition getNosePosition (s : Ship) : Vector2 :=
  let direction := math.angleToVector (rotation (transform s)) in
  math.add (position (transform s)) (math.scale direction 15).

Definition isInvulnerable (s : Ship) : bool := invulnerableTime s >? 0.

Definition canHyperspace (s : Ship) : bool :=
  HyperspaceState_eqb (hyperspaceState s) idle && (hyperspaceCooldown s <=? 0).

Definition activateHyperspace (targetX targetY : R) (s : Ship) : Ship :=
  if negb (canHyperspace s) then s
  else
    let s := setHyperspaceState shrinking s in
    let s := setHyperspaceTimer 0 s in
    let s := setHyperspaceTargetPosition (mkVector2 targetX targetY) s in
    setInvulnerableTime
      (Rmax (invulnerableTime s)
            (HYPERSPACE_SHRINK_TIME + HYPERSPACE_WARP_TIME
             + HYPERSPACE_EXPAND_TIME + HYPERSPACE_INVULNERABILITY))
      s.

Definition getHyperspaceProgress (s : Ship) : R :=
  match hyperspaceState s with
  | shrinking => hyperspaceTimer s / HYPERSPACE_SHRINK_TIME
  | warping => hyperspaceTimer s / HYPERSPACE_WARP_TIME
  | expanding => hyperspaceTimer s / HYPERSPACE_EXPAND_TIME
  | idle => 0
  end.

Definition getHyperspaceScale (s : Ship) : R :=
  match hyperspaceState s with
  | idle => 1
  | shrinking => 1 - getHyperspaceProgress s
  | expanding => getHyperspaceProgress s
  | warping => 0
  end.

Definition isInHyperspace (s : Ship) : bool :=
  negb (HyperspaceState_eqb (hyperspaceState s) idle).

(** A run of [update] calls, one per frame, oldest first. *)
Definition updates (dts : list R) (s : Ship) : Ship :=
  fold_left (fun s dt => update dt s) dts s.

(** The time a run of frames accumulates. *)
Definition elapsed (dts : list R) : R := fold_right Rplus 0 dts.

(** The frames [dts] fill a phase of duration [T] exactly: there is at
    least one frame, every frame takes positive time and the frames add
    up to [T], so that the last frame ends on the phase boundary. *)
Definition fills (T : R) (dts : list R) : Prop :=
  dts <> [] /\ Forall (fun dt => 0 < dt) dts /\ elapsed dts = T.

(** The frames [dts] carry a phase of duration [T] to its end and no
    further: there is at least one frame, every frame takes positive
    time, the frames before the last add up to less than [T] and all of
    them to at least [T], so that the last frame is the first update at
    which the time accumulated in the phase reaches [T]. *)
Definition reaches (T : R) (dts : list R) : Prop :=
  dts <> [] /\ Forall (fun dt => 0 < dt) dts /\
  elapsed (removelast dts) < T <= elapsed dts.


(** The calls a client makes on a ship, and a run of them, oldest
    first. *)
Inductive Call : Type :=
| call_update (dt : R)
| call_rotateLeft (dt : R)
| call_rotateRight (dt : R)
| call_thrust (dt : R)
| call_activateHyperspace (targetX targetY : R)
| call_reset (x0 y0 : R).

Definition call (c : Call) (s : Ship) : Ship :=
  match c with
  | call_update dt => update dt s
  | call_rotateLeft dt => rotateLeft dt s
  | call_rotateRight dt => rotateRight dt s
  | call_thrust dt => thrust dt s
  | call_activateHyperspace targetX targetY => activateHyperspace targetX targetY s
  | call_reset x0 y0 => reset x0 y0 s
  end.

Definition calls (cs : list Call) (s : Ship) : Ship :=
  fold_left (fun s c => call c s) cs s.

(** The frame times of a run are within the game loop's cap:
    [Math.min(..., 0.1)]. *)
Definition capped (c : Call) : Prop :=
  match c with
  | call_update dt => 0 <= dt <= CONFIG.timing.maxDeltaTime
  | _ => True
  end.


(** The hyperspace timer is within the running phase, and the
    invulnerability granted on activation outlasts what is left of the
    phases, a capped frame of overshoot per phase included. *)
Definition in_phase (s : Ship) : Prop :=
  match hyperspaceState s with
  | idle => True
  | shrinking =>
      0 <= hyperspaceTimer s < HYPERSPACE_SHRINK_TIME /\
      HYPERSPACE_SHRINK_TIME + HYPERSPACE_WARP_TIME + HYPERSPACE_EXPAND_TIME
      + HYPERSPACE_INVULNERABILITY <= invulnerableTime s + hyperspaceTimer s
  | warping =>
      0 <= hyperspaceTimer s < HYPERSPACE_WARP_TIME /\
      HYPERSPACE_WARP_TIME + HYPERSPACE_EXPAND_TIME + HYPERSPACE_INVULNERABILITY
      - CONFIG.timing.maxDeltaTime <= invulnerableTime s + hyperspaceTimer s
  | expanding =>
      0 <= hyperspaceTimer s < HYPERSPACE_EXPAND_TIME /\
      HYPERSPACE_EXPAND_TIME + HYPERSPACE_INVULNERABILITY
      - 2 * CONFIG.timing.maxDeltaTime <= invulnerableTime s + hyperspaceTimer s
  end.

End ship.

Coercion ship.ship_base : ship.Ship >-> Entity.

(* ================================================================== *)
(** ** entities/asteroid.ts *)

Module asteroid.

Record SizeConfig : Type := mkSizeConfig {
  cfg_radius : R; minVerts : R; maxVerts : R; speed : R; cfg_points : Z
}.

Definition SIZE_CONFIG (size : AsteroidSize) : SizeConfig :=
  match size with
  | large => mkSizeConfig 40 10 14 50 20
  | medium => mkSizeConfig 20 8 10 80 50
  | small => mkSizeConfig 10 6 8 120 100
  end.

(** The [for] loop of [generateAsteroidShape]: [todo] iterations are left
    and [i] is the loop index. *)
Fixpoint shapeLoop (todo : nat) (i numVerts : R) (config : SizeConfig)
         (shape : Shape) : Rand Shape :=
  match todo with
  | O => ret shape
  | S todo' =>
      let angle := (i / numVerts) * PI * 2 in
      f <- math.randomRange (7 / 10) 1 ;;
      let r := cfg_radius config * f in
      shapeLoop todo' (i + 1) numVerts config
                (shape ++ [ mkVector2 (cos angle * r) (sin angle * r) ])
  end.

Definition generateAsteroidShape (size : AsteroidSize) : Rand Shape :=
  let config := SIZE_CONFIG size in
  numVerts <- math.randomInt (minVerts config) (maxVerts config) ;;
  shapeLoop (Z.to_nat numVerts) 0 (IZR numVerts) config [].

Record Asteroid : Type := mkAsteroid {
  asteroid_base :> Entity;
  size : AsteroidSize;
  points : Z
}.

Definition setBase (e : Entity) (a : Asteroid) : Asteroid :=
  mkAsteroid e (size a) (points a).

(** [new Asteroid(x, y, size, direction?)]; an omitted [direction] is
    [None]. *)
Definition new (x0 y0 : R) (size0 : AsteroidSize) (direction : option Vector2)
  : Rand Asteroid :=
  let config := SIZE_CONFIG size0 in
  shape0 <- generateAsteroidShape size0 ;;
  (* Random spin *)
  spin <- math.randomRange (-2) 2 ;;
  (* Random or specified direction *)
  velocity0 <-
    match direction with
    | Some d => ret (math.scale d (speed config))
    | None =>
        angle <- math.randomRange 0 (PI * 2) ;;
        ret (mkVector2 (cos angle * speed config) (sin angle * speed config))
    end ;;
  ret (mkAsteroid
         (mkEntity (mkTransform (mkVector2 x0 y0) 0 1) velocity0 spin shape0
                   (cfg_radius config) true)
         size0 (cfg_points config)).

Definition update (dt : R) (a : Asteroid) : Asteroid :=
  let e := setPosition (math.add (position (transform a))
                                 (math.scale (velocity a) dt)) a in
  setBase (setRotation (rotation (transform e) + angularVelocity e * dt) e) a.

(** When destroyed, large asteroids split into medium, medium into small. *)
Definition split (a : Asteroid) : Rand (list Asteroid) :=
  match size a with
  | small => ret []
  | _ =>
      let nextSize := match size a with large => medium | _ => small end in
      let x0 := x (position (transform a)) in
      let y0 := y (position (transform a)) in
      angle1 <- math.randomRange 0 (PI * 2) ;;
      jitter <- math.randomRange (- (5 / 10)) (5 / 10) ;;
      let angle2 := angle1 + PI / 2 + jitter in
      a1 <- new x0 y0 nextSize (Some (mkVector2 (cos angle1) (sin angle1))) ;;
      a2 <- new x0 y0 nextSize (Some (mkVector2 (cos angle2) (sin angle2))) ;;
      ret [a1; a2]
  end.

Definition AsteroidSize_eqb (a b : AsteroidSize) : bool :=
  match a, b with
  | large, large | medium, medium | small, small => true
  | _, _ => false
  end.

(** The constructor derives the points from the size; nothing changes
    either afterwards. *)
Definition consistent (a : Asteroid) : Prop :=
  points a = cfg_points (SIZE_CONFIG (size a)).

(** What the specification asks of a child of [parent] of size [sz]: it
    has that size, sits where the parent sits, and moves at the
    configured speed of its size. *)
Definition is_child_of (parent : Asteroid) (sz : AsteroidSize) (c : Asteroid) : Prop :=
  size c = sz /\
  position (transform c) = position (transform parent) /\
  math.magnitude (velocity c) = speed (SIZE_CONFIG sz).


(** A vertex lies between 70% and 100% of the radius from the centre. *)
Definition in_ring (config : SizeConfig) (v : Vector2) : Prop :=
  7 / 10 * cfg_radius config <= math.magnitude v < cfg_radius config.

End asteroid.

Coercion asteroid.asteroid_base : asteroid.Asteroid >-> Entity.

(* ================================================================== *)
(** ** entities/bullet.ts *)

Module bullet.

Record Bullet : Type := mkBullet { bullet_base :> baseEntity.TimedEntity }.

Definition new (x0 y0 : R) (direction : Vector2) : Bullet :=
  let t := baseEntity.TimedEntity_new x0 y0 CONFIG.bullet.lifetime in
  let e := setVelocity (math.scale direction CONFIG.bullet.speed) t in
  let e := setRadius CONFIG.bullet.radius e in
  mkBullet (baseEntity.mkTimedEntity e (baseEntity.lifetime t)).

Definition setBulletActive (b : bool) (bl : Bullet) : Bullet :=
  mkBullet (baseEntity.mkTimedEntity (setActive b bl) (baseEntity.lifetime bl)).

Definition update (dt : R) (bl : Bullet) : Bullet :=
  mkBullet (baseEntity.TimedEntity_update dt bl).


(** A run of [update] calls, one per frame, oldest first. *)
Definition updates (dts : list R) (bl : Bullet) : Bullet :=
  fold_left (fun bl dt => update dt bl) dts bl.

End bullet.

Coercion bullet.bullet_base : bullet.Bullet >-> baseEntity.TimedEntity.

(* ================================================================== *)
(** ** entities/debris.ts *)

Module debris.

Record DebrisLine : Type := mkDebrisLine {
  start : Vector2;
  end_ : Vector2;
  line_velocity : Vector2;
  line_angularVelocity : R;
  line_rotation : R;
  line_lifetime : R;
  maxLifetime : R
}.

Record Debris : Type := mkDebris {
  lines : list DebrisLine;
  debris_isActive : bool;
  color : string
}.

(** The constructor's loop over the edges of the outline; [i] is the
    index of the edge's first vertex. *)
Fixpoint linesLoop (todo i : nat) (pos : Vector2) (shipRotation : R)
         (shipShape : Shape) (acc : list DebrisLine) : Rand (list DebrisLine) :=
  match todo with
  | O => ret acc
  | S todo' =>
      let lifetime := CONFIG.visual.debrisLifetime in
      let baseSpeed := CONFIG.visual.debrisSpeed in
      let nextIndex := Nat.modulo (i + 1) (List.length shipShape) in
      let s := math.rotate (nth i shipShape (mkVector2 0 0)) shipRotation in
      let e := math.rotate (nth nextIndex shipShape (mkVector2 0 0)) shipRotation in
      angle <- math.randomRange 0 (PI * 2) ;;
      speed <- math.randomRange (baseSpeed * (5 / 10)) baseSpeed ;;
      spin <- math.randomRange (-3) 3 ;;
      linesLoop todo' (S i) pos shipRotation shipShape
        (acc ++ [ mkDebrisLine (math.add pos s) (math.add pos e)
                    (mkVector2 (cos angle * speed) (sin angle * speed))
                    spin 0 lifetime lifetime ])
  end.

Definition new (pos : Vector2) (shipRotation : R) (shipShape : Shape)
           (color0 : string) : Rand Debris :=
  ls <- linesLoop (List.length shipShape) 0 pos shipRotation shipShape [] ;;
  ret (mkDebris ls true color0).


(** The body of [update]'s loop for one line: a line whose lifetime has
    run out is skipped ([continue]). *)
Definition updateLine (dt : R) (line : DebrisLine) : DebrisLine :=
  if line_lifetime line <=? 0 then line
  else
    (* Move the line segment *)
    let delta := math.scale (line_velocity line) dt in
    let start1 := math.add (start line) delta in
    let end1 := math.add (end_ line) delta in
    (* Rotate around the midpoint *)
    let rotation1 := line_rotation line + line_angularVelocity line * dt in
    let mid := mkVector2 ((x start1 + x end1) / 2) ((y start1 + y end1) / 2) in
    let halfLen := mkVector2 ((x end1 - x start1) / 2) ((y end1 - y start1) / 2) in
    let rotatedHalf := math.rotate halfLen (line_angularVelocity line * dt) in
    mkDebrisLine (mkVector2 (x mid - x rotatedHalf) (y mid - y rotatedHalf))
                 (mkVector2 (x mid + x rotatedHalf) (y mid + y rotatedHalf))
                 (line_velocity line) (line_angularVelocity line) rotation1
                 (line_lifetime line - dt) (maxLifetime line).

(** [anyActive] is set by the lines that were not skipped and still have
    lifetime left after the frame. *)
Definition update (dt : R) (d : Debris) : Debris :=
  let anyActive :=
    existsb (fun line => negb (line_lifetime line <=? 0)
                         && (line_lifetime (updateLine dt line) >? 0))
            (lines d) in
  mkDebris (map (updateLine dt) (lines d)) anyActive (color d).

Definition getAlpha (line : DebrisLine) : R :=
  (* Fade out over the last half of lifetime *)
  if line_lifetime line <? maxLifetime line / 2
  then line_lifetime line / (maxLifetime line / 2)
  else 1.

(** A run of [update] calls, one per frame, oldest first. *)
Definition updates (dts : list R) (d : Debris) : Debris :=
  fold_left (fun d dt => update dt d) dts d.

Definition midpoint (line : DebrisLine) : Vector2 :=
  mkVector2 ((x (start line) + x (end_ line)) / 2) ((y (start line) + y (end_ line)) / 2).


(** What the constructor makes of the [k]-th edge of the outline: the
    segment from vertex [k] to the next vertex (the first one after the
    last), turned by the rotation of the entity and moved to its
    position, with a full lifetime, a speed between half the base speed
    and the base speed and a spin between -3 and 3. *)
Definition edge_line (pos : Vector2) (shipRotation : R) (shipShape : Shape) (k : nat)
           (line : DebrisLine) : Prop :=
  start line = math.add pos (math.rotate (nth k shipShape (mkVector2 0 0)) shipRotation) /\
  end_ line
  = math.add pos
      (math.rotate (nth (Nat.modulo (k + 1) (List.length shipShape)) shipShape
                        (mkVector2 0 0)) shipRotation) /\
  line_lifetime line = CONFIG.visual.debrisLifetime /\
  maxLifetime line = CONFIG.visual.debrisLifetime /\
  line_rotation line = 0 /\
  CONFIG.visual.debrisSpeed * (5 / 10) <= math.magnitude (line_velocity line)
    < CONFIG.visual.debrisSpeed /\
  -3 <= line_angularVelocity line < 3.

End debris.

(* ================================================================== *)
(** ** entities/hyperspaceParticle.ts *)

Module hyperspaceParticle.

Inductive Phase : Type := shrink | expand.

Record HyperspaceParticleData : Type := mkHyperspaceParticleData {
  particle_position : Vector2;
  offset : Vector2;   (* Offset from ship center *)
  alpha : R
}.

Record HyperspaceParticles : Type := mkHyperspaceParticles {
  particles : list HyperspaceParticleData;
  particles_isActive : bool;
  phase : Phase;
  centerPosition : Vector2
}.

(** [new HyperspaceParticles(centerPosition, phase, particleCount = 20)]:
    particles in a ring around the ship. *)
Definition new (centerPosition0 : Vector2) (phase0 : Phase)
           (particleCount_arg : option nat) : HyperspaceParticles :=
  let particleCount := match particleCount_arg with Some n => n | None => 20%nat end in
  mkHyperspaceParticles
    (map (fun i : nat =>
            let angle := (PI * 2 * INR i) / INR particleCount in
            let distance := 15 in   (* Start at ship radius *)
            let offset0 := mkVector2 (cos angle * distance) (sin angle * distance) in
            mkHyperspaceParticleData (math.add centerPosition0 offset0) offset0 1)
         (seq 0 particleCount))
    true phase0 centerPosition0.

(** The body of [update]'s loop for one particle. *)
Definition updateParticle (phase0 : Phase) (centerPosition0 : Vector2) (progress : R)
           (particle : HyperspaceParticleData) : HyperspaceParticleData :=
  let maxDistance := 60 in
  let normalizedOffset :=
    mkVector2 (x (offset particle) / 15) (y (offset particle) / 15) in
  match phase0 with
  | shrink =>
      (* Particles move outward and fade *)
      let distance := 15 + maxDistance * progress in
      mkHyperspaceParticleData
        (math.add centerPosition0 (math.scale normalizedOffset distance))
        (offset particle) (1 - progress)
  | expand =>
      (* particles move inward and fade in *)
      let distance := maxDistance * (1 - progress) + 15 in
      mkHyperspaceParticleData
        (math.add centerPosition0 (math.scale normalizedOffset distance))
        (offset particle) progress
  end.

Definition update (progress : R) (h : HyperspaceParticles) : HyperspaceParticles :=
  mkHyperspaceParticles
    (map (updateParticle (phase h) (centerPosition h) progress) (particles h))
    (* Deactivate when complete *)
    (if progress >=? 1 then false else particles_isActive h)
    (phase h) (centerPosition h).

(** The distance from the centre at which [update] puts the particles. *)
Definition ringRadius (phase0 : Phase) (progress : R) : R :=
  match phase0 with
  | shrink => 15 + 60 * progress
  | expand => 60 * (1 - progress) + 15
  end.

End hyperspaceParticle.

(* ================================================================== *)
(** ** entities/ufo.ts *)

Module ufo.

(** UFO sizes - small is faster and worth more points but harder to hit. *)
Inductive UFOSize : Type := large | small.

Definition config_of (size : UFOSize) : CONFIG.ufo.SizeConfig :=
  match size with
  | large => CONFIG.ufo.large
  | small => CONFIG.ufo.small
  end.

(** Classic flying saucer shape. *)
Definition generateUFOShape (size : UFOSize) : Shape :=
  let r := CONFIG.ufo.radius (config_of size) in
  let h := r * (4 / 10) in
  [ mkVector2 (- r * (3 / 10)) (- h);
    mkVector2 (r * (3 / 10)) (- h);
    mkVector2 (r * (5 / 10)) (- h * (3 / 10));
    mkVector2 r 0;
    mkVector2 (r * (6 / 10)) (h * (5 / 10));
    mkVector2 (- r * (6 / 10)) (h * (5 / 10));
    mkVector2 (- r) 0;
    mkVector2 (- r * (5 / 10)) (- h * (3 / 10)) ].

Record UFO : Type := mkUFO {
  ufo_base :> baseEntity.ScoreableEntity;
  size : UFOSize;
  directionChangeTimer : R;
  verticalDirection : R;
  baseSpeed : R;
  horizontalDirection : R;   (* 1 = right, -1 = left *)
  shootTimer : R;
  shootCooldown : R
}.

Definition setEntity (e : Entity) (u : UFO) : UFO :=
  mkUFO (baseEntity.mkScoreableEntity e (baseEntity.points u)) (size u)
        (directionChangeTimer u) (verticalDirection u) (baseSpeed u)
        (horizontalDirection u) (shootTimer u) (shootCooldown u).
Definition setDirectionChangeTimer (t : R) (u : UFO) : UFO :=
  mkUFO u (size u) t (verticalDirection u) (baseSpeed u)
        (horizontalDirection u) (shootTimer u) (shootCooldown u).
Definition setVerticalDirection (d : R) (u : UFO) : UFO :=
  mkUFO u (size u) (directionChangeTimer u) d (baseSpeed u)
        (horizontalDirection u) (shootTimer u) (shootCooldown u).
Definition setShootTimer (t : R) (u : UFO) : UFO :=
  mkUFO u (size u) (directionChangeTimer u) (verticalDirection u) (baseSpeed u)
        (horizontalDirection u) t (shootCooldown u).

(** [new UFO(screenWidth, screenHeight, size = 'large', level = 1)]; an
    omitted argument is [None] and takes the default. *)
Definition new (screenWidth screenHeight : R) (size_arg : option UFOSize)
           (level_arg : option Z) : Rand UFO :=
  let size0 := match size_arg with Some s => s | None => large end in
  let level := match level_arg with Some l => l | None => 1%Z end in
  let config := config_of size0 in
  let radius0 := CONFIG.ufo.radius config in
  let baseSpeed0 := CONFIG.ufo.speed config in
  (* Cooldown decreases with level (fires faster at higher levels).
     Reduce by 10% per level, minimum 30% of original. *)
  let cooldownMultiplier := Rmax (3 / 10) (1 - (IZR level - 1) * (1 / 10)) in
  let shootCooldown0 := CONFIG.ufo.shootCooldown config * cooldownMultiplier in
  (* Start with a random delay before first shot *)
  shootTimer0 <- math.randomRange (5 / 10) shootCooldown0 ;;
  (* Spawn on left or right edge *)
  r <- Math_random ;;
  let spawnOnLeft := r <? 5 / 10 in
  let horizontalDirection0 := if spawnOnLeft then 1 else -1 in
  let x0 := if spawnOnLeft then - radius0 else screenWidth + radius0 in
  y0 <- math.randomRange (screenHeight * (2 / 10)) (screenHeight * (8 / 10)) ;;
  (* Random initial vertical direction *)
  verticalDirection0 <- math.randomRange (-1) 1 ;;
  directionChangeTimer0 <-
    math.randomRange CONFIG.ufo.directionChangeInterval.min
                     CONFIG.ufo.directionChangeInterval.max ;;
  ret (mkUFO
         (baseEntity.mkScoreableEntity
            (mkEntity (mkTransform (mkVector2 x0 y0) 0 1)
                      (mkVector2 (baseSpeed0 * horizontalDirection0) 0)
                      0 (generateUFOShape size0) radius0 true)
            (CONFIG.ufo.points config))
         size0 directionChangeTimer0 verticalDirection0 baseSpeed0
         horizontalDirection0 shootTimer0 shootCooldown0).

Definition update (dt : R) (u : UFO) : Rand UFO :=
  (* Change vertical direction periodically for erratic movement *)
  let u := setDirectionChangeTimer (directionChangeTimer u - dt) u in
  u <- (if directionChangeTimer u <=? 0
        then
          v <- math.randomRange (-1) 1 ;;
          t <- math.randomRange CONFIG.ufo.directionChangeInterval.min
                                CONFIG.ufo.directionChangeInterval.max ;;
          ret (setDirectionChangeTimer t (setVerticalDirection v u))
        else ret u) ;;
  (* Update shoot timer *)
  let u := if shootTimer u >? 0 then setShootTimer (shootTimer u - dt) u else u in
  (* Update velocity with vertical component *)
  let u :=
    setEntity
      (setVelocity
         (mkVector2 (baseSpeed u * horizontalDirection u)
                    (baseSpeed u * CONFIG.ufo.verticalSpeedFactor * verticalDirection u))
         u) u in
  (* Use parent's physics update *)
  ret (setEntity (baseEntity.updatePhysics dt u) u).

(** Check if UFO is ready to fire and return shot angle toward player.
    Returns the angle if ready to shoot, [None] (null) otherwise. *)
Definition tryShoot (playerX playerY : R) (u : UFO) : Rand (option R * UFO) :=
  if shootTimer u >? 0 then ret (None, u)
  else
    (* Reset timer *)
    let u := setShootTimer (shootCooldown u) u in
    (* Calculate angle to player with some inaccuracy *)
    let dx := playerX - x (position (transform u)) in
    let dy := playerY - y (position (transform u)) in
    let angleToPlayer := atan2 dy dx in
    (* Large UFOs are less accurate than small ones *)
    let inaccuracy := match size u with large => 4 / 10 | small => 15 / 100 end in
    randomSpread <- math.randomRange (- inaccuracy) inaccuracy ;;
    ret (Some (angleToPlayer + randomSpread), u).

(** Check if UFO has left the screen (for cleanup). *)
Definition isOffScreen (screenWidth : R) (u : UFO) : bool :=
  let x0 := x (position (transform u)) in
  let margin := radius u * 2 in
  if horizontalDirection u >? 0 then x0 >? screenWidth + margin
  else x0 <? - margin.

(** The level-scaled cooldown the specification speaks of: the size's
    base cooldown, shrunk by 10% for each level above the first and
    floored at 30% of the base value. *)
Definition levelScaledCooldown (size0 : UFOSize) (level : Z) : R :=
  CONFIG.ufo.shootCooldown (config_of size0)
  * Rmax (3 / 10) (1 - (IZR level - 1) * (1 / 10)).


(** A run of [update] calls, one per frame, oldest first. *)
Fixpoint updates (dts : list R) (u : UFO) : Rand UFO :=
  match dts with
  | [] => ret u
  | dt :: dts' => u' <- update dt u ;; updates dts' u'
  end.

End ufo.

Coercion ufo.ufo_base : ufo.UFO >-> baseEntity.ScoreableEntity.

(* ================================================================== *)
(** ** entities/gravityWell.ts *)

Module gravityWell.

(** Gravity well - provides constant pull towards center.  The arrays
    pre-allocated for the renderer ([cachedArms], [cachedRingRadii]) are
    left out; the pre-allocated [cachedPullForce] object, which
    [getPullForce] overwrites and returns, is kept. *)
Record GravityWell : Type := mkGravityWell {
  well_base :> baseEntity.TimedEntity;
  pullRadius : R;
  visualRadius : R;
  pullStrength : R;
  rotationAngle : R;
  pulsePhase : R;
  age : R;
  cachedPullForce : Vector2
}.

Definition setCachedPullForce (v : Vector2) (w : GravityWell) : GravityWell :=
  mkGravityWell w (pullRadius w) (visualRadius w) (pullStrength w)
                (rotationAngle w) (pulsePhase w) (age w) v.

(** [new GravityWell(x, y, duration = 8, pullStrength = CONFIG.gravityWell.pullStrength.min)]. *)
Definition new (x0 y0 : R) (duration_arg pullStrength_arg : option R) : GravityWell :=
  let duration := match duration_arg with Some d => d | None => 8 end in
  let pullStrength0 :=
    match pullStrength_arg with
    | Some p => p
    | None => CONFIG.gravityWell.pullStrength.min
    end in
  mkGravityWell (baseEntity.TimedEntity_new x0 y0 duration)
                CONFIG.gravityWell.pullRadius CONFIG.gravityWell.visualRadius
                pullStrength0 0 0 0 (mkVector2 0 0).

Definition update (dt : R) (w : GravityWell) : GravityWell :=
  mkGravityWell (baseEntity.TimedEntity_update dt w)
                (pullRadius w) (visualRadius w) (pullStrength w)
                (rotationAngle w + dt * 2) (pulsePhase w + dt * 4) (age w + dt)
                (cachedPullForce w).

(** Calculate gravitational pull on a point.  Returns the (overwritten)
    [cachedPullForce] object together with the well that now holds it. *)
Definition getPullForce (targetPos : Vector2) (w : GravityWell)
  : Vector2 * GravityWell :=
  let dx := x (position (transform w)) - x targetPos in
  let dy := y (position (transform w)) - y targetPos in
  let distance := sqrt (dx * dx + dy * dy) in
  (* No pull outside the pull radius or at the center *)
  if (distance >? pullRadius w) || (distance <? 1) then
    let f := mkVector2 0 0 in (f, setCachedPullForce f w)
  else
    (* Constant pull strength regardless of distance *)
    let f := mkVector2 ((dx / distance) * pullStrength w)
                       ((dy / distance) * pullStrength w) in
    (f, setCachedPullForce f w).

Definition getDistance (targetPos : Vector2) (w : GravityWell) : R :=
  let dx := x (position (transform w)) - x targetPos in
  let dy := y (position (transform w)) - y targetPos in
  sqrt (dx * dx + dy * dy).

Definition getFade (w : GravityWell) : R :=
  let lifetime := baseEntity.lifetime w in
  if age w <? 5 / 10 then age w / (5 / 10)
  else if lifetime <? 1 then lifetime
  else 1.


(** A run of [update] calls, one per frame, oldest first. *)
Definition updates (dts : list R) (w : GravityWell) : GravityWell :=
  fold_left (fun w dt => update dt w) dts w.

(** Get pulse value (0-1) for animation. *)
Definition getPulse (w : GravityWell) : R := 7 / 10 + 3 / 10 * sin (pulsePhase w).

Definition numArms : nat := CONFIG.visual.gravityWellSpiralArms.
Definition pointsPerArm : nat := CONFIG.visual.gravityWellPointsPerArm.

(** Generate the swirling visual effect shapes: the two [for] loops
    overwrite every point of the pre-allocated arms, [numArms] arms of
    [pointsPerArm] points. *)
Definition getSpiralPoints (w : GravityWell) : list (list Vector2) :=
  let pulse := getPulse w in
  let rotation0 := rotationAngle w in
  let pos := position (transform w) in
  map (fun arm : nat =>
         let armOffset := (INR arm / INR numArms) * PI * 2 in
         map (fun i : nat =>
                let t := INR i / INR pointsPerArm in
                let r := visualRadius w * t * pulse in
                let angle := rotation0 + armOffset + t * PI * 2 in
                mkVector2 (x pos + cos angle * r) (y pos + sin angle * r))
             (seq 0 pointsPerArm))
      (seq 0 numArms).

(** Get concentric ring radii for the visual effect. *)
Definition getRingRadii (w : GravityWell) : list R :=
  let pulse := getPulse w in
  [ visualRadius w * (3 / 10) * pulse;
    visualRadius w * (6 / 10) * pulse;
    visualRadius w * pulse;
    visualRadius w * (13 / 10) * pulse ].

End gravityWell.

Coercion gravityWell.well_base : gravityWell.GravityWell >-> baseEntity.TimedEntity.

(** The superseded revision of the gravity well that the repository still
    carries (src/entities/gravityWell.ts, written against the old
    [CONFIG.gravityWell.pullStrength] number): its pull grows towards the
    centre.  Only its force law is embedded, for comparison. *)
Module gravityWell_superseded.

Definition getPullForce (center : Vector2) (pullRadius pullStrength : R)
           (targetPos : Vector2) : Vector2 :=
  let dx := x center - x targetPos in
  let dy := y center - y targetPos in
  let distance := sqrt (dx * dx + dy * dy) in
  if (distance >? pullRadius) || (distance <? 1) then mkVector2 0 0
  else
    (* Stronger pull as you get closer (inverse relationship) *)
    let strength := (1 - distance / pullRadius) * pullStrength in
    mkVector2 ((dx / distance) * strength) ((dy / distance) * strength).

End gravityWell_superseded.

(* ================================================================== *)
(** ** systems/spawner.ts *)

Module spawner.

(** The [do ... while] of [createAsteroids]: sample a position until it
    lies outside the square exclusion zone around [avoidPosition].  The
    source puts no bound on the number of rounds; [fuel] is the number of
    rounds the model is willing to run. *)
Fixpoint samplePosition (fuel : nat) (screenWidth screenHeight : R)
         (avoidPosition : Vector2) (avoidRadius : R) (g : Rng)
  : Res (R * R * Rng) :=
  match fuel with
  | O => Fail OutOfFuel
  | S fuel' =>
      let (x0, g1) := math.randomRange 0 screenWidth g in
      let (y0, g2) := math.randomRange 0 screenHeight g1 in
      if (Rabs (x0 - x avoidPosition) <? avoidRadius)
         && (Rabs (y0 - y avoidPosition) <? avoidRadius)
      then samplePosition fuel' screenWidth screenHeight avoidPosition avoidRadius g2
      else Ok (x0, y0, g2)
  end.

(** The [for] loop of [createAsteroids], [todo] asteroids still to make. *)
Fixpoint asteroidsLoop (fuel todo : nat) (screenWidth screenHeight : R)
         (avoidPosition : Vector2) (avoidRadius : R)
         (asteroids : list asteroid.Asteroid) (g : Rng)
  : Res (list asteroid.Asteroid * Rng) :=
  match todo with
  | O => Ok (asteroids, g)
  | S todo' =>
      match samplePosition fuel screenWidth screenHeight avoidPosition avoidRadius g with
      | Fail e => Fail e
      | Ok (x0, y0, g1) =>
          let (a, g2) := asteroid.new x0 y0 large None g1 in
          asteroidsLoop fuel todo' screenWidth screenHeight avoidPosition avoidRadius
                        (asteroids ++ [a]) g2
      end
  end.

(** Create asteroids at random positions, avoiding a specified position.
    [avoidRadius = 100] when the argument is omitted ([None]). *)
Definition createAsteroids (fuel : nat) (count : Z) (screenWidth screenHeight : R)
           (avoidPosition : Vector2) (avoidRadius_arg : option R) (g : Rng)
  : Res (list asteroid.Asteroid * Rng) :=
  let avoidRadius := match avoidRadius_arg with Some r => r | None => 100 end in
  asteroidsLoop fuel (Z.to_nat count) screenWidth screenHeight
                avoidPosition avoidRadius [] g.

(** Create a UFO at the edge of the screen. *)
Definition createUFO (screenWidth screenHeight : R) (level : Z) : Rand ufo.UFO :=
  (* Higher levels have higher chance of small (harder) UFO *)
  let smallChance :=
    Rmin (CONFIG.ufo.smallChanceBase + IZR level * CONFIG.ufo.smallChancePerLevel)
         CONFIG.ufo.smallChanceMax in
  r <- Math_random ;;
  let size := if r <? smallChance then ufo.small else ufo.large in
  ufo.new screenWidth screenHeight (Some size) None.

(** Calculate gravity well pull strength based on level. *)
Definition getGravityWellPullStrength (level : Z) : R :=
  let strengthPerLevel := 40 in
  Rmin CONFIG.gravityWell.pullStrength.max
       (CONFIG.gravityWell.pullStrength.min + (IZR level - 1) * strengthPerLevel).

Definition maxAttempts : Z := 20.

(** The [do ... while] of [createGravityWell]; [attempts] counts the
    rounds already made.  Answers the last sample, the number of attempts
    made and the tape. *)
Fixpoint placeLoop (fuel : nat) (attempts : Z) (screenWidth screenHeight : R)
         (avoidPosition : Vector2) (g : Rng) : Res (R * R * Z * Rng) :=
  match fuel with
  | O => Fail OutOfFuel
  | S fuel' =>
      let (x0, g1) :=
        math.randomRange CONFIG.gravityWell.spawnMargin
                         (screenWidth - CONFIG.gravityWell.spawnMargin) g in
      let (y0, g2) :=
        math.randomRange CONFIG.gravityWell.spawnMargin
                         (screenHeight - CONFIG.gravityWell.spawnMargin) g1 in
      let attempts := (attempts + 1)%Z in
      if (attempts <? maxAttempts)%Z
         && (hypot (x0 - x avoidPosition) (y0 - y avoidPosition)
             <? CONFIG.gravityWell.spawnMinDistanceFromShip)
      then placeLoop fuel' attempts screenWidth screenHeight avoidPosition g2
      else Ok (x0, y0, attempts, g2)
  end.

(** Find a valid spawn position for a gravity well and create it. *)
Definition createGravityWell (fuel : nat) (screenWidth screenHeight : R)
           (avoidPosition : Vector2) (level : Z) (g : Rng)
  : Res (gravityWell.GravityWell * Rng) :=
  match placeLoop fuel 0 screenWidth screenHeight avoidPosition g with
  | Fail e => Fail e
  | Ok (x0, y0, _, g1) =>
      let (duration, g2) :=
        math.randomRange CONFIG.gravityWell.duration.min
                         CONFIG.gravityWell.duration.max g1 in
      let pullStrength := getGravityWellPullStrength level in
      Ok (gravityWell.new x0 y0 (Some duration) (Some pullStrength), g2)
  end.

(** Create debris from a destroyed entity; [color = '#0ff'] when omitted. *)
Definition createDebris (pos : Vector2) (rotation0 : R) (shape0 : Shape)
           (color_arg : option string) : Rand debris.Debris :=
  let color := match color_arg with Some c => c | None => "#0ff"%string end in
  debris.new pos rotation0 shape0 color.

Definition getNextUFOSpawnTime : Rand R :=
  math.randomRange CONFIG.ufo.spawnDelay.min CONFIG.ufo.spawnDelay.max.

Definition getNextGravityWellSpawnTime : Rand R :=
  math.randomRange CONFIG.gravityWell.spawnDelay.min CONFIG.gravityWell.spawnDelay.max.

(** *** Vocabulary for the placement loops *)

(** The [j]-th candidate position [createGravityWell] samples when it
    starts reading the tape at [g]'s cursor (two draws per candidate). *)
Definition wellCandidate (screenWidth screenHeight : R) (g : Rng) (j : nat) : Vector2 :=
  mkVector2
    (CONFIG.gravityWell.spawnMargin
     + tape g (cursor g + 2 * j)
       * (screenWidth - CONFIG.gravityWell.spawnMargin - CONFIG.gravityWell.spawnMargin))
    (CONFIG.gravityWell.spawnMargin
     + tape g (cursor g + 2 * j + 1)
       * (screenHeight - CONFIG.gravityWell.spawnMargin - CONFIG.gravityWell.spawnMargin)).

(** The placement constraint of the gravity well. *)
Definition tooClose (avoidPosition p : Vector2) : bool :=
  hypot (x p - x avoidPosition) (y p - y avoidPosition)
  <? CONFIG.gravityWell.spawnMinDistanceFromShip.

(** The two tape cells at [n] and [n + 1], read as an asteroid position,
    fall inside the square exclusion zone. *)
Definition inZone (screenWidth screenHeight : R) (avoidPosition : Vector2)
           (avoidRadius : R) (t : nat -> R) (n : nat) : Prop :=
  Rabs (0 + t n * (screenWidth - 0) - x avoidPosition) < avoidRadius /\
  Rabs (0 + t (S n) * (screenHeight - 0) - y avoidPosition) < avoidRadius.

(** From every cursor position on, reading the tape two cells at a time
    sooner or later meets a position outside the exclusion zone. *)
Definition eventuallyOutside (screenWidth screenHeight : R) (avoidPosition : Vector2)
           (avoidRadius : R) (t : nat -> R) : Prop :=
  forall n, exists k,
    ~ inZone screenWidth screenHeight avoidPosition avoidRadius t (n + 2 * k).


(** A position on the screen and outside the square exclusion zone. *)
Definition placed (screenWidth screenHeight : R) (avoidPosition : Vector2)
           (avoidRadius : R) (p : Vector2) : Prop :=
  ~ (Rabs (x p - x avoidPosition) < avoidRadius /\
     Rabs (y p - y avoidPosition) < avoidRadius) /\
  0 <= x p < screenWidth /\ 0 <= y p < screenHeight.

End spawner.

(* ================================================================== *)
(** ** The orchestrator's collaborators *)

Module io.

(** systems/input.ts: the sampled key state and the buffered presses. *)
Record KeyState : Type := mkKeyState {
  left : bool; right : bool; thrust : bool; fire : bool; hyperspace : bool
}.

Record InputHandler : Type := mkInputHandler {
  keys : KeyState;
  firePressed : bool;
  startPressed : bool;
  spaceWasReleased : bool;
  glowTogglePressed : bool;
  hyperspacePressed : bool;
  menuPressed : bool
}.

(** Clear all key states (call during state transitions). *)
Definition clearAll (i : InputHandler) : InputHandler :=
  mkInputHandler (mkKeyState false false false false false)
                 false false true false false false.

(** systems/audio.ts: the audio manager only receives cues; the model
    keeps the cues it was sent, oldest first. *)
Inductive Cue : Type :=
| playShoot
| playExplosion (size : AsteroidSize)
| playUFOExplosion
| playDeath
| playLevelUp
| startUFOSound (isSmall : bool)
| stopUFOSound
| stopGravityWellSound.

(** systems/textInput.ts *)
Record TextInputHandler : Type := mkTextInputHandler {
  text : string;
  active : bool;
  cursorVisible : bool;
  cursorTimer : R;
  submitPressed : bool;
  cancelPressed : bool
}.

Definition activate (t : TextInputHandler) : TextInputHandler :=
  if active t then t
  else mkTextInputHandler EmptyString true true 0 false false.

(** systems/highScoreManager.ts: the cached leaderboard. *)
Record HighScore : Type := mkHighScore {
  playerName : string;
  hs_score : Z;
  hs_level : Z
}.

Record HighScoreManager : Type := mkHighScoreManager {
  scores : list HighScore
}.

(** Check if a score qualifies for the high score list.  [displayCount]
    is [CONFIG.highScores.displayCount], a constant that core/config.ts
    does not define.  Reading [.score] of [scores[scores.length - 1]] on
    an empty list is a [TypeError]. *)
Definition isHighScore (displayCount : Z) (score : Z) (m : HighScoreManager)
  : Res bool :=
  (* If leaderboard not full, any score qualifies *)
  if (Z.of_nat (List.length (scores m)) <? displayCount)%Z then Ok true
  else
    (* Check if score beats the lowest score *)
    match nth_error (scores m) (List.length (scores m) - 1) with
    | Some lowest => Ok (hs_score lowest <? score)%Z
    | None => Fail TypeError
    end.


(** *** systems/input.ts, continued: key events and buffered presses *)

Definition set_keys (k : KeyState) (i : InputHandler) : InputHandler :=
  mkInputHandler k (firePressed i) (startPressed i) (spaceWasReleased i)
                 (glowTogglePressed i) (hyperspacePressed i) (menuPressed i).
Definition set_firePressed (b : bool) (i : InputHandler) : InputHandler :=
  mkInputHandler (keys i) b (startPressed i) (spaceWasReleased i)
                 (glowTogglePressed i) (hyperspacePressed i) (menuPressed i).
Definition set_startPressed (b : bool) (i : InputHandler) : InputHandler :=
  mkInputHandler (keys i) (firePressed i) b (spaceWasReleased i)
                 (glowTogglePressed i) (hyperspacePressed i) (menuPressed i).
Definition set_spaceWasReleased (b : bool) (i : InputHandler) : InputHandler :=
  mkInputHandler (keys i) (firePressed i) (startPressed i) b
                 (glowTogglePressed i) (hyperspacePressed i) (menuPressed i).
Definition set_glowTogglePressed (b : bool) (i : InputHandler) : InputHandler :=
  mkInputHandler (keys i) (firePressed i) (startPressed i) (spaceWasReleased i)
                 b (hyperspacePressed i) (menuPressed i).
Definition set_hyperspacePressed (b : bool) (i : InputHandler) : InputHandler :=
  mkInputHandler (keys i) (firePressed i) (startPressed i) (spaceWasReleased i)
                 (glowTogglePressed i) b (menuPressed i).
Definition set_menuPressed (b : bool) (i : InputHandler) : InputHandler :=
  mkInputHandler (keys i) (firePressed i) (startPressed i) (spaceWasReleased i)
                 (glowTogglePressed i) (hyperspacePressed i) b.

(** The field initialisers of [InputHandler]. *)
Definition InputHandler_new : InputHandler :=
  mkInputHandler (mkKeyState false false false false false)
                 false false true false false false.

(** The [switch] of [updateKey]; every case ends in [break], and a code
    that matches no case changes nothing. *)
Definition updateKey (code : string) (isDown : bool) (i : InputHandler) : InputHandler :=
  let k := keys i in
  if (code =? "ArrowLeft")%string || (code =? "KeyA")%string then
    set_keys (mkKeyState isDown (right k) (thrust k) (fire k) (hyperspace k)) i
  else if (code =? "ArrowRight")%string || (code =? "KeyD")%string then
    set_keys (mkKeyState (left k) isDown (thrust k) (fire k) (hyperspace k)) i
  else if (code =? "ArrowUp")%string || (code =? "KeyW")%string then
    set_keys (mkKeyState (left k) (right k) isDown (fire k) (hyperspace k)) i
  else if (code =? "Space")%string then
    let i := set_keys (mkKeyState (left k) (right k) (thrust k) isDown (hyperspace k)) i in
    if isDown then
      let i := set_firePressed true i in
      (* Only register start if space was released first *)
      if spaceWasReleased i
      then set_spaceWasReleased false (set_startPressed true i)
      else i
    else set_spaceWasReleased true i
  else if (code =? "KeyG")%string then
    if isDown then set_glowTogglePressed true i else i
  else if (code =? "KeyH")%string then
    let i := set_keys (mkKeyState (left k) (right k) (thrust k) (fire k) isDown) i in
    if isDown then set_hyperspacePressed true i else i
  else if (code =? "Escape")%string then
    if isDown then set_menuPressed true i else i
  else i.

(** The two listeners; [preventDefault] acts on the browser only. *)
Inductive KeyEvent : Type :=
| keydown (code : string)
| keyup (code : string).

Definition handle (e : KeyEvent) (i : InputHandler) : InputHandler :=
  match e with
  | keydown code => updateKey code true i
  | keyup code => updateKey code false i
  end.

Definition handles (es : list KeyEvent) (i : InputHandler) : InputHandler :=
  fold_left (fun i e => handle e i) es i.

Definition getKeys (i : InputHandler) : KeyState := keys i.

(** Check if fire was just pressed (for single-shot firing). *)
Definition consumeFirePress (i : InputHandler) : bool * InputHandler :=
  if firePressed i then (true, set_firePressed false i) else (false, i).

(** Check if player pressed start. *)
Definition consumeStartPress (i : InputHandler) : bool * InputHandler :=
  if startPressed i then (true, set_startPressed false i) else (false, i).

Definition consumeGlowTogglePress (i : InputHandler) : bool * InputHandler :=
  if glowTogglePressed i then (true, set_glowTogglePressed false i) else (false, i).

Definition consumeHyperspacePress (i : InputHandler) : bool * InputHandler :=
  if hyperspacePressed i then (true, set_hyperspacePressed false i) else (false, i).

(** Check if player pressed menu (ESC). *)
Definition consumeMenuPress (i : InputHandler) : bool * InputHandler :=
  if menuPressed i then (true, set_menuPressed false i) else (false, i).

(** *** systems/textInput.ts, continued *)

Definition minLength : nat := 3.
Definition maxLength : nat := 20.
Definition cursorBlinkInterval : R := 5 / 10.

(** The field initialisers of [TextInputHandler]. *)
Definition TextInputHandler_new : TextInputHandler :=
  mkTextInputHandler EmptyString false true 0 false false.

Definition set_text (s : string) (t : TextInputHandler) : TextInputHandler :=
  mkTextInputHandler s (active t) (cursorVisible t) (cursorTimer t)
                     (submitPressed t) (cancelPressed t).

Definition deactivate (t : TextInputHandler) : TextInputHandler :=
  if negb (active t) then t
  else mkTextInputHandler (text t) false (cursorVisible t) (cursorTimer t)
                          (submitPressed t) (cancelPressed t).

(** [/^[A-Za-z0-9 ]$/.test(c)] for a one-character string. *)
Definition allowedChar (c : Ascii.ascii) : bool :=
  let n := Ascii.nat_of_ascii c in
  ((65 <=? n) && (n <=? 90) || (97 <=? n) && (n <=? 122)
   || (48 <=? n) && (n <=? 57) || (n =? 32))%nat.

(** [toUpperCase] on a character the pattern lets through. *)
Definition toUpperCase (c : Ascii.ascii) : Ascii.ascii :=
  let n := Ascii.nat_of_ascii c in
  if ((97 <=? n) && (n <=? 122))%nat then Ascii.ascii_of_nat (n - 32) else c.

(** [text.slice(0, -1)]: all but the last character. *)
Fixpoint slice_0_m1 (s : string) : string :=
  match s with
  | EmptyString => EmptyString
  | String c EmptyString => EmptyString
  | String c rest => String c (slice_0_m1 rest)
  end.

(** [handleKeyDown] with [e.key = key]. *)
Definition handleKeyDown (key : string) (t : TextInputHandler) : TextInputHandler :=
  if negb (active t) then t
  else if (key =? "Enter")%string then
    mkTextInputHandler (text t) (active t) (cursorVisible t) (cursorTimer t)
                       true (cancelPressed t)
  else if (key =? "Escape")%string then
    mkTextInputHandler (text t) (active t) (cursorVisible t) (cursorTimer t)
                       (submitPressed t) true
  else if (key =? "Backspace")%string then
    if (0 <? String.length (text t))%nat then set_text (slice_0_m1 (text t)) t else t
  else
    match key with
    | String c EmptyString =>
        if allowedChar c then
          (* Only allow alphanumeric and space *)
          if (String.length (text t) <? maxLength)%nat
          then set_text (text t ++ String (toUpperCase c) EmptyString)%string t
          else t
        else t
    | _ => t
    end.

Definition typed (ks : list string) (t : TextInputHandler) : TextInputHandler :=
  fold_left (fun t key => handleKeyDown key t) ks t.

(** Blink cursor. *)
Definition TextInputHandler_update (dt : R) (t : TextInputHandler) : TextInputHandler :=
  if negb (active t) then t
  else
    let timer := cursorTimer t + dt in
    if timer >=? cursorBlinkInterval
    then mkTextInputHandler (text t) (active t) (negb (cursorVisible t)) 0
                            (submitPressed t) (cancelPressed t)
    else mkTextInputHandler (text t) (active t) (cursorVisible t) timer
                            (submitPressed t) (cancelPressed t).

Definition consumeSubmit (t : TextInputHandler) : bool * TextInputHandler :=
  (submitPressed t,
   mkTextInputHandler (text t) (active t) (cursorVisible t) (cursorTimer t)
                      false (cancelPressed t)).

Definition consumeCancel (t : TextInputHandler) : bool * TextInputHandler :=
  (cancelPressed t,
   mkTextInputHandler (text t) (active t) (cursorVisible t) (cursorTimer t)
                      (submitPressed t) false).

(** The characters a name is made of: capitals, digits and the space. *)
Definition nameChar (c : Ascii.ascii) : bool :=
  let n := Ascii.nat_of_ascii c in
  ((65 <=? n) && (n <=? 90) || (48 <=? n) && (n <=? 57) || (n =? 32))%nat.

Fixpoint allChars (p : Ascii.ascii -> bool) (s : string) : bool :=
  match s with
  | EmptyString => true
  | String c rest => p c && allChars p rest
  end.

End io.

(* ================================================================== *)
(** ** core/game.ts *)

Module game.

Import io.

Inductive GameState : Type :=
| start | playing | gameOver | submitScore | viewingScores.

Definition GameState_eqb (a b : GameState) : bool :=
  match a, b with
  | start, start | playing, playing | gameOver, gameOver
  | submitScore, submitScore | viewingScores, viewingScores => true
  | _, _ => false
  end.

Record GameData : Type := mkGameData {
  score : Z;
  lives : Z;
  level : Z;
  state : GameState;
  finalScore : option Z;
  finalLevel : option Z
}.

Definition set_score (v : Z) (d : GameData) : GameData :=
  mkGameData v (lives d) (level d) (state d) (finalScore d) (finalLevel d).
Definition set_lives (v : Z) (d : GameData) : GameData :=
  mkGameData (score d) v (level d) (state d) (finalScore d) (finalLevel d).
Definition set_level (v : Z) (d : GameData) : GameData :=
  mkGameData (score d) (lives d) v (state d) (finalScore d) (finalLevel d).
Definition set_state (v : GameState) (d : GameData) : GameData :=
  mkGameData (score d) (lives d) (level d) v (finalScore d) (finalLevel d).
Definition set_finalScore (v : option Z) (d : GameData) : GameData :=
  mkGameData (score d) (lives d) (level d) (state d) v (finalLevel d).
Definition set_finalLevel (v : option Z) (d : GameData) : GameData :=
  mkGameData (score d) (lives d) (level d) (state d) (finalScore d) v.

(** The two settings the orchestrator reads that are kept as parameters:
    the debug switch, and the leaderboard size, which core/config.ts does
    not define. *)
Record Settings : Type := mkSettings {
  disablePlayerCollision : bool;   (* CONFIG.debug.disablePlayerCollision *)
  displayCount : Z                 (* CONFIG.highScores.displayCount *)
}.

(** The configuration as shipped, for a given leaderboard size. *)
Definition shipped (displayCount0 : Z) : Settings :=
  mkSettings CONFIG.debug.disablePlayerCollision displayCount0.

(** The renderer fixes the play field ([Renderer]'s constructor). *)
Definition renderer_width : R := 800.
Definition renderer_height : R := 600.

(** The fields of [Game] the simulation uses.  Left out: the renderer
    (but for its two dimensions), the starfield, the hyperspace particles,
    the menu timers and the frame counters. *)
Record Game : Type := mkGame {
  input : InputHandler;
  audio : list Cue;
  textInput : TextInputHandler;
  highScoreManager : HighScoreManager;
  ship : ship.Ship;
  asteroids : list asteroid.Asteroid;
  bullets : list bullet.Bullet;
  ufoBullets : list bullet.Bullet;
  debris : list debris.Debris;
  ufo : option ufo.UFO;
  ufoSpawnTimer : R;
  gravityWell : option gravityWell.GravityWell;
  gravityWellSpawnTimer : R;
  wasGravityWellActive : bool;
  data : GameData;
  fireCooldown : R;
  respawnTimer : R;
  gameOverTimer : R;
  rng : Rng
}.

(** Field assignments. *)
Definition set_input (v : InputHandler) (g : Game) : Game :=
  mkGame v (audio g) (textInput g) (highScoreManager g) (ship g)
         (asteroids g) (bullets g) (ufoBullets g) (debris g) (ufo g)
         (ufoSpawnTimer g) (gravityWell g) (gravityWellSpawnTimer g)
         (wasGravityWellActive g) (data g) (fireCooldown g) (respawnTimer g)
         (gameOverTimer g) (rng g).
Definition set_audio (v : list Cue) (g : Game) : Game :=
  mkGame (input g) v (textInput g) (highScoreManager g) (ship g)
         (asteroids g) (bullets g) (ufoBullets g) (debris g) (ufo g)
         (ufoSpawnTimer g) (gravityWell g) (gravityWellSpawnTimer g)
         (wasGravityWellActive g) (data g) (fireCooldown g) (respawnTimer g)
         (gameOverTimer g) (rng g).
Definition set_textInput (v : TextInputHandler) (g : Game) : Game :=
  mkGame (input g) (audio g) v (highScoreManager g) (ship g) (asteroids g)
         (bullets g) (ufoBullets g) (debris g) (ufo g) (ufoSpawnTimer g)
         (gravityWell g) (gravityWellSpawnTimer g) (wasGravityWellActive g)
         (data g) (fireCooldown g) (respawnTimer g) (gameOverTimer g)
         (rng g).
Definition set_highScoreManager (v : HighScoreManager) (g : Game) : Game :=
  mkGame (input g) (audio g) (textInput g) v (ship g) (asteroids g)
         (bullets g) (ufoBullets g) (debris g) (ufo g) (ufoSpawnTimer g)
         (gravityWell g) (gravityWellSpawnTimer g) (wasGravityWellActive g)
         (data g) (fireCooldown g) (respawnTimer g) (gameOverTimer g)
         (rng g).
Definition set_ship (v : ship.Ship) (g : Game) : Game :=
  mkGame (input g) (audio g) (textInput g) (highScoreManager g) v
         (asteroids g) (bullets g) (ufoBullets g) (debris g) (ufo g)
         (ufoSpawnTimer g) (gravityWell g) (gravityWellSpawnTimer g)
         (wasGravityWellActive g) (data g) (fireCooldown g) (respawnTimer g)
         (gameOverTimer g) (rng g).
Definition set_asteroids (v : list asteroid.Asteroid) (g : Game) : Game :=
  mkGame (input g) (audio g) (textInput g) (highScoreManager g) (ship g) v
         (bullets g) (ufoBullets g) (debris g) (ufo g) (ufoSpawnTimer g)
         (gravityWell g) (gravityWellSpawnTimer g) (wasGravityWellActive g)
         (data g) (fireCooldown g) (respawnTimer g) (gameOverTimer g)
         (rng g).
Definition set_bullets (v : list bullet.Bullet) (g : Game) : Game :=
  mkGame (input g) (audio g) (textInput g) (highScoreManager g) (ship g)
         (asteroids g) v (ufoBullets g) (debris g) (ufo g) (ufoSpawnTimer g)
         (gravityWell g) (gravityWellSpawnTimer g) (wasGravityWellActive g)
         (data g) (fireCooldown g) (respawnTimer g) (gameOverTimer g)
         (rng g).
Definition set_ufoBullets (v : list bullet.Bullet) (g : Game) : Game :=
  mkGame (input g) (audio g) (textInput g) (highScoreManager g) (ship g)
         (asteroids g) (bullets g) v (debris g) (ufo g) (ufoSpawnTimer g)
         (gravityWell g) (gravityWellSpawnTimer g) (wasGravityWellActive g)
         (data g) (fireCooldown g) (respawnTimer g) (gameOverTimer g)
         (rng g).
Definition set_debris (v : list debris.Debris) (g : Game) : Game :=
  mkGame (input g) (audio g) (textInput g) (highScoreManager g) (ship g)
         (asteroids g) (bullets g) (ufoBullets g) v (ufo g)
         (ufoSpawnTimer g) (gravityWell g) (gravityWellSpawnTimer g)
         (wasGravityWellActive g) (data g) (fireCooldown g) (respawnTimer g)
         (gameOverTimer g) (rng g).
Definition set_ufo (v : option ufo.UFO) (g : Game) : Game :=
  mkGame (input g) (audio g) (textInput g) (highScoreManager g) (ship g)
         (asteroids g) (bullets g) (ufoBullets g) (debris g) v
         (ufoSpawnTimer g) (gravityWell g) (gravityWellSpawnTimer g)
         (wasGravityWellActive g) (data g) (fireCooldown g) (respawnTimer g)
         (gameOverTimer g) (rng g).
Definition set_ufoSpawnTimer (v : R) (g : Game) : Game :=
  mkGame (input g) (audio g) (textInput g) (highScoreManager g) (ship g)
         (asteroids g) (bullets g) (ufoBullets g) (debris g) (ufo g) v
         (gravityWell g) (gravityWellSpawnTimer g) (wasGravityWellActive g)
         (data g) (fireCooldown g) (respawnTimer g) (gameOverTimer g)
         (rng g).
Definition set_gravityWell (v : option gravityWell.GravityWell) (g : Game) : Game :=
  mkGame (input g) (audio g) (textInput g) (highScoreManager g) (ship g)
         (asteroids g) (bullets g) (ufoBullets g) (debris g) (ufo g)
         (ufoSpawnTimer g) v (gravityWellSpawnTimer g)
         (wasGravityWellActive g) (data g) (fireCooldown g) (respawnTimer g)
         (gameOverTimer g) (rng g).
Definition set_gravityWellSpawnTimer (v : R) (g : Game) : Game :=
  mkGame (input g) (audio g) (textInput g) (highScoreManager g) (ship g)
         (asteroids g) (bullets g) (ufoBullets g) (debris g) (ufo g)
         (ufoSpawnTimer g) (gravityWell g) v (wasGravityWellActive g)
         (data g) (fireCooldown g) (respawnTimer g) (gameOverTimer g)
         (rng g).
Definition set_wasGravityWellActive (v : bool) (g : Game) : Game :=
  mkGame (input g) (audio g) (textInput g) (highScoreManager g) (ship g)
         (asteroids g) (bullets g) (ufoBullets g) (debris g) (ufo g)
         (ufoSpawnTimer g) (gravityWell g) (gravityWellSpawnTimer g) v
         (data g) (fireCooldown g) (respawnTimer g) (gameOverTimer g)
         (rng g).
Definition set_data (v : GameData) (g : Game) : Game :=
  mkGame (input g) (audio g) (textInput g) (highScoreManager g) (ship g)
         (asteroids g) (bullets g) (ufoBullets g) (debris g) (ufo g)
         (ufoSpawnTimer g) (gravityWell g) (gravityWellSpawnTimer g)
         (wasGravityWellActive g) v (fireCooldown g) (respawnTimer g)
         (gameOverTimer g) (rng g).
Definition set_fireCooldown (v : R) (g : Game) : Game :=
  mkGame (input g) (audio g) (textInput g) (highScoreManager g) (ship g)
         (asteroids g) (bullets g) (ufoBullets g) (debris g) (ufo g)
         (ufoSpawnTimer g) (gravityWell g) (gravityWellSpawnTimer g)
         (wasGravityWellActive g) (data g) v (respawnTimer g)
         (gameOverTimer g) (rng g).
Definition set_respawnTimer (v : R) (g : Game) : Game :=
  mkGame (input g) (audio g) (textInput g) (highScoreManager g) (ship g)
         (asteroids g) (bullets g) (ufoBullets g) (debris g) (ufo g)
         (ufoSpawnTimer g) (gravityWell g) (gravityWellSpawnTimer g)
         (wasGravityWellActive g) (data g) (fireCooldown g) v
         (gameOverTimer g) (rng g).
Definition set_gameOverTimer (v : R) (g : Game) : Game :=
  mkGame (input g) (audio g) (textInput g) (highScoreManager g) (ship g)
         (asteroids g) (bullets g) (ufoBullets g) (debris g) (ufo g)
         (ufoSpawnTimer g) (gravityWell g) (gravityWellSpawnTimer g)
         (wasGravityWellActive g) (data g) (fireCooldown g) (respawnTimer g)
         v (rng g).
Definition set_rng (v : Rng) (g : Game) : Game :=
  mkGame (input g) (audio g) (textInput g) (highScoreManager g) (ship g)
         (asteroids g) (bullets g) (ufoBullets g) (debris g) (ufo g)
         (ufoSpawnTimer g) (gravityWell g) (gravityWellSpawnTimer g)
         (wasGravityWellActive g) (data g) (fireCooldown g) (respawnTimer g)
         (gameOverTimer g) v.

(** [checkBulletCollisions], inner loop: one bullet against the asteroids
    in list order, up to the first hit ([break]).  [score], [audio],
    [newAsteroids] and the tape are what the loop body writes besides the
    two flags. *)
Record Pass : Type := mkPass {
  p_score : Z;
  p_audio : list Cue;
  p_newAsteroids : list asteroid.Asteroid;
  p_rng : Rng
}.

Fixpoint bulletVsAsteroids (b : bullet.Bullet) (asts : list asteroid.Asteroid)
         (p : Pass) : bullet.Bullet * list asteroid.Asteroid * Pass :=
  match asts with
  | [] => (b, [], p)
  | a :: rest =>
      if collision.checkCollision b a then
        let b' := bullet.setBulletActive false b in
        let a' := asteroid.setBase (setActive false a) a in
        (* Split the asteroid *)
        let (children, r) := asteroid.split a' (p_rng p) in
        (b', a' :: rest,
         mkPass (p_score p + asteroid.points a')%Z
                (p_audio p ++ [playExplosion (asteroid.size a')])
                (p_newAsteroids p ++ children) r)
      else
        let '(b', rest', p') := bulletVsAsteroids b rest p in
        (b', a :: rest', p')
  end.

(** [checkBulletCollisions], outer loop over the bullets. *)
Fixpoint bulletsLoop (bs : list bullet.Bullet) (asts : list asteroid.Asteroid)
         (p : Pass) : list bullet.Bullet * list asteroid.Asteroid * Pass :=
  match bs with
  | [] => ([], asts, p)
  | b :: bs' =>
      let '(b', asts', p') := bulletVsAsteroids b asts p in
      let '(bs'', asts'', p'') := bulletsLoop bs' asts' p' in
      (b' :: bs'', asts'', p'')
  end.

Definition checkBulletCollisions (g : Game) : Game :=
  let '(bs, asts, p) :=
    bulletsLoop (bullets g) (asteroids g)
                (mkPass (score (data g)) (audio g) [] (rng g)) in
  let g := set_bullets bs g in
  let g := set_data (set_score (p_score p) (data g)) g in
  let g := set_audio (p_audio p) g in
  let g := set_rng (p_rng p) g in
  (* Remove destroyed asteroids and add new ones *)
  set_asteroids (filter (fun a : asteroid.Asteroid => isActive a) asts
                 ++ p_newAsteroids p) g.

(** The loop shared by [checkUFOCollisions] and
    [checkUFOBulletCollisions]: the first bullet that collides with
    [target] is deactivated; [None] when no bullet collides. *)
Fixpoint firstBulletHit (target : Entity) (bs : list bullet.Bullet)
  : option (list bullet.Bullet) :=
  match bs with
  | [] => None
  | b :: bs' =>
      if collision.checkCollision b target
      then Some (bullet.setBulletActive false b :: bs')
      else match firstBulletHit target bs' with
           | Some bs'' => Some (b :: bs'')
           | None => None
           end
  end.

Definition shipDestroyed (st : Settings) (g : Game) : Res Game :=
  (* Create debris from the ship breaking apart *)
  let (d, r) :=
    spawner.createDebris (position (transform (ship g)))
                         (rotation (transform (ship g))) (shape (ship g))
                         None (rng g) in
  let g := set_rng r (set_debris (debris g ++ [d]) g) in
  let g := set_ship (ship.setBase (setActive false (ship g)) (ship g)) g in
  let g := set_data (set_lives (lives (data g) - 1)%Z (data g)) g in
  (* Clear any buffered inputs so they don't trigger on respawn *)
  let g := set_input (clearAll (input g)) g in
  let g := set_audio (audio g ++ [playDeath]) g in
  if (lives (data g) <=? 0)%Z then
    (* Store final score and level *)
    let g := set_data (set_finalScore (Some (score (data g))) (data g)) g in
    let g := set_data (set_finalLevel (Some (level (data g))) (data g)) g in
    (* Check if it's a high score *)
    match isHighScore (displayCount st) (score (data g)) (highScoreManager g) with
    | Fail e => Fail e
    | Ok high =>
        let g :=
          if high then
            let g := set_data (set_state submitScore (data g)) g in
            set_textInput (activate (textInput g)) g
          else
            let g := set_data (set_state gameOver (data g)) g in
            set_gameOverTimer CONFIG.timing.gameOverReturnDelay g in
        (* Stop UFO sound on game over *)
        let g :=
          match ufo g with
          | Some _ => set_ufo None (set_audio (audio g ++ [stopUFOSound]) g)
          | None => g
          end in
        (* Stop gravity well sound on game over *)
        let g :=
          match gravityWell g with
          | Some _ =>
              set_gravityWell None (set_audio (audio g ++ [stopGravityWellSound]) g)
          | None => g
          end in
        Ok g
    end
  else
    Ok (set_respawnTimer CONFIG.timing.respawnDelay g).

(** The [for] loop of [checkShipCollision]. *)
Fixpoint shipHitsAsteroid (s : ship.Ship) (asts : list asteroid.Asteroid) : bool :=
  match asts with
  | [] => false
  | a :: rest =>
      if collision.checkCollision s a then true else shipHitsAsteroid s rest
  end.

Definition checkShipCollision (st : Settings) (g : Game) : Res Game :=
  if disablePlayerCollision st then Ok g
  else if negb (isActive (ship g)) || ship.isInvulnerable (ship g)
          || ship.isInHyperspace (ship g) then Ok g
  else if shipHitsAsteroid (ship g) (asteroids g) then shipDestroyed st g
  else
    (* Check collision with UFO *)
    match ufo g with
    | Some u =>
        if collision.checkCollision (ship g) u then shipDestroyed st g else Ok g
    | None => Ok g
    end.

Definition checkUFOBulletCollisions (st : Settings) (g : Game) : Res Game :=
  if negb (isActive (ship g)) || ship.isInvulnerable (ship g)
     || ship.isInHyperspace (ship g) then Ok g
  else
    match firstBulletHit (ship g) (ufoBullets g) with
    | Some bs => shipDestroyed st (set_ufoBullets bs g)
    | None => Ok g
    end.

Definition spawnUFO (g : Game) : Game :=
  let (u, r) :=
    spawner.createUFO renderer_width renderer_height (level (data g)) (rng g) in
  let g := set_rng r (set_ufo (Some u) g) in
  set_audio (audio g ++ [startUFOSound
                           (match ufo.size u with
                            | ufo.small => true
                            | ufo.large => false
                            end)]) g.

Definition checkUFOCollisions (g : Game) : Game :=
  match ufo g with
  | None => g
  | Some u =>
      match firstBulletHit u (bullets g) with
      | None => g
      | Some bs =>
          let g := set_bullets bs g in
          let g := set_data (set_score (score (data g) + baseEntity.points u)%Z
                                       (data g)) g in
          (* Create debris from UFO (green to match UFO color) *)
          let (d, r) :=
            spawner.createDebris (position (transform u)) (rotation (transform u))
                                 (shape u) (Some "#0f0"%string) (rng g) in
          let g := set_rng r (set_debris (debris g ++ [d]) g) in
          let g := set_audio (audio g ++ [playUFOExplosion]) g in
          let g := set_ufo None g in
          let (t, r') := spawner.getNextUFOSpawnTime (rng g) in
          set_ufoSpawnTimer t (set_rng r' g)
      end
  end.

Definition spawnAsteroids (fuel : nat) (count : Z) (g : Game) : Res Game :=
  match spawner.createAsteroids fuel count renderer_width renderer_height
                                (position (transform (ship g))) None (rng g) with
  | Fail e => Fail e
  | Ok (newAsteroids, r) =>
      Ok (set_rng r (set_asteroids (asteroids g ++ newAsteroids) g))
  end.

Definition nextLevel (fuel : nat) (g : Game) : Res Game :=
  let g := set_data (set_level (level (data g) + 1)%Z (data g)) g in
  let g := set_audio (audio g ++ [playLevelUp]) g in
  (* Spawn more asteroids each level *)
  let numAsteroids := (CONFIG.asteroid.startingCount + level (data g) - 1)%Z in
  spawnAsteroids fuel numAsteroids g.

Definition startGame (fuel : nat) (g : Game) : Res Game :=
  let g := set_input (clearAll (input g)) g in
  let g := set_data (set_state playing (data g)) g in
  match spawnAsteroids fuel CONFIG.asteroid.startingCount g with
  | Fail e => Fail e
  | Ok g =>
      let (t, r) := spawner.getNextUFOSpawnTime (rng g) in
      let g := set_ufoSpawnTimer t (set_rng r g) in
      let (t', r') := spawner.getNextGravityWellSpawnTime (rng g) in
      Ok (set_gravityWellSpawnTimer t' (set_rng r' g))
  end.

(** The last part of [update] in the playing state, first half: the four
    collision checks. *)
Definition collision_checks (st : Settings) (g : Game) : Res Game :=
  let g := checkBulletCollisions g in
  let g := checkUFOCollisions g in
  Res_bind (checkUFOBulletCollisions st g) (checkShipCollision st).

(** The last part of [update] in the playing state: the collision checks,
    then the level-complete test. *)
Definition update_collisions (st : Settings) (fuel : nat) (g : Game) : Res Game :=
  Res_bind (collision_checks st g) (fun g =>
  (* Check if level is complete *)
  if Nat.eqb (List.length (asteroids g)) 0 then nextLevel fuel g else Ok g).

(** [new Game(canvas)]: the field initialisers and the constructor body
    (the ship is created at the centre); [r] is the state of the random
    source at that moment. *)
Definition new (r : Rng) : Game :=
  mkGame (mkInputHandler (mkKeyState false false false false false)
                         false false true false false false)
         []
         (mkTextInputHandler EmptyString false true 0 false false)
         (mkHighScoreManager [])
         (ship.new (renderer_width / 2) (renderer_height / 2))
         [] [] [] [] None 0 None 0 false
         (mkGameData 0 3 1 start None None)
         0 0 0 r.

(** The random source of [g] keeps offering asteroid positions outside
    the exclusion zone around the ship of [g]. *)
Definition eventuallyOutside_ship (g : Game) : Prop :=
  spawner.eventuallyOutside renderer_width renderer_height
                            (position (transform (ship g))) 100 (tape (rng g)).

(** *** Vocabulary for the scoring scenario *)

(** The point value of a size. *)
Definition pointsOf (sz : AsteroidSize) : Z :=
  asteroid.cfg_points (asteroid.SIZE_CONFIG sz).

Definition largePoints : Z := pointsOf large.

(** The number of asteroids of a size in a list, and the number of those
    that are active. *)
Definition countSize (sz : AsteroidSize) (asts : list asteroid.Asteroid) : Z :=
  Z.of_nat (List.length
              (filter (fun a => asteroid.AsteroidSize_eqb (asteroid.size a) sz) asts)).

Definition activeOfSize (sz : AsteroidSize) (asts : list asteroid.Asteroid) : Z :=
  Z.of_nat (List.length
              (filter (fun a : asteroid.Asteroid =>
                         isActive a && asteroid.AsteroidSize_eqb (asteroid.size a) sz)
                      asts)).

(** An asteroid as it sits in the orchestrator's list between frames:
    active, and worth the points of its size. *)
Definition liveAsteroid (a : asteroid.Asteroid) : Prop :=
  asteroid.consistent a /\ isActive a = true.

Definition liveLarge (a : asteroid.Asteroid) : Prop :=
  liveAsteroid a /\ asteroid.size a = large.

(** The asteroids of each size that a pass has destroyed, read off the
    lists before and after it: a destroyed large asteroid leaves two
    medium ones behind, a destroyed medium one two small ones. *)
Definition destroyedLarge (before after : list asteroid.Asteroid) : Z :=
  countSize large before - countSize large after.

Definition destroyedMedium (before after : list asteroid.Asteroid) : Z :=
  countSize medium before + 2 * destroyedLarge before after - countSize medium after.

Definition destroyedSmall (before after : list asteroid.Asteroid) : Z :=
  countSize small before + 2 * destroyedMedium before after - countSize small after.

(** What a run of the bullet loops over the asteroids [asts], ending with
    the flags [asts'], has added to the pass [p]: the points of every
    asteroid it has switched off, and that asteroid's children. *)
Definition accounted (asts asts' : list asteroid.Asteroid) (p p' : Pass) : Prop :=
  Forall asteroid.consistent asts' /\
  (forall sz, activeOfSize sz asts' <= activeOfSize sz asts)%Z /\
  p_score p' =
    (p_score p
     + pointsOf large * (activeOfSize large asts - activeOfSize large asts')
     + pointsOf medium * (activeOfSize medium asts - activeOfSize medium asts')
     + pointsOf small * (activeOfSize small asts - activeOfSize small asts'))%Z /\
  exists ch,
    p_newAsteroids p' = p_newAsteroids p ++ ch /\
    Forall liveAsteroid ch /\
    countSize large ch = 0%Z /\
    countSize medium ch
      = (2 * (activeOfSize large asts - activeOfSize large asts'))%Z /\
    countSize small ch
      = (2 * (activeOfSize medium asts - activeOfSize medium asts'))%Z.


Definition fire (g : Game) : Game :=
  let pos := ship.getNosePosition (ship g) in
  let dir := math.angleToVector (rotation (transform (ship g))) in
  let g := set_bullets (bullets g ++ [bullet.new (x pos) (y pos) dir]) g in
  let g := set_fireCooldown CONFIG.bullet.fireCooldown g in
  set_audio (audio g ++ [playShoot]) g.


Definition updateUFO (dt : R) (g : Game) : Game :=
  match ufo g with
  | None =>
      (* Update spawn timer when no UFO is active *)
      let g := set_ufoSpawnTimer (ufoSpawnTimer g - dt) g in
      if ufoSpawnTimer g <=? 0 then spawnUFO g else g
  | Some u =>
      (* Update existing UFO *)
      let (u, r) := ufo.update dt u (rng g) in
      let g := set_rng r g in
      (* Wrap vertically but not horizontally (UFO flies across screen) *)
      let y0 := y (position (transform u)) in
      let u :=
        if y0 <? - radius u
        then ufo.setEntity
               (setPosition (mkVector2 (x (position (transform u)))
                                       (renderer_height + radius u)) u) u
        else if y0 >? renderer_height + radius u
        then ufo.setEntity
               (setPosition (mkVector2 (x (position (transform u))) (- radius u)) u) u
        else u in
      (* UFO shoots at player *)
      let '(u, g) :=
        if isActive (ship g) && negb (ship.isInHyperspace (ship g)) then
          let '(shotAngle, u, r) :=
            ufo.tryShoot (x (position (transform (ship g))))
                         (y (position (transform (ship g)))) u (rng g) in
          let g := set_rng r g in
          match shotAngle with
          | Some shotAngle =>
              let direction := mkVector2 (cos shotAngle) (sin shotAngle) in
              let b := bullet.new (x (position (transform u)))
                                  (y (position (transform u))) direction in
              let g := set_ufoBullets (ufoBullets g ++ [b]) g in
              (u, set_audio (audio g ++ [playShoot]) g)
          | None => (u, g)
          end
        else (u, g) in
      (* Remove UFO when it exits the screen horizontally *)
      if ufo.isOffScreen renderer_width u then
        let g := set_audio (audio g ++ [stopUFOSound]) g in
        let g := set_ufo None g in
        let (t, r) := spawner.getNextUFOSpawnTime (rng g) in
        set_ufoSpawnTimer t (set_rng r g)
      else set_ufo (Some u) g
  end.


(** [resetGame], on the fields kept here: the menu timers and the id of
    the submitted score, which it also resets, are not part of [Game].
    The object literal assigned to [data] has no [finalScore] and no
    [finalLevel]. *)
Definition resetGame (g : Game) : Game :=
  let g := set_input (clearAll (input g)) g in
  let g := set_data (mkGameData CONFIG.initialState.score CONFIG.initialState.lives
                                CONFIG.initialState.level start None None) g in
  let g := set_asteroids [] g in
  let g := set_bullets [] g in
  let g := set_ufoBullets [] g in
  let g := set_debris [] g in
  let g := set_ship (ship.reset (renderer_width / 2) (renderer_height / 2) (ship g)) g in
  let g := set_respawnTimer 0 g in
  (* Clear UFO state *)
  let g :=
    match ufo g with
    | Some _ => set_ufo None (set_audio (audio g ++ [stopUFOSound]) g)
    | None => g
    end in
  let g := set_ufoSpawnTimer 0 g in
  (* Clear gravity well state *)
  let g :=
    match gravityWell g with
    | Some _ => set_gravityWell None (set_audio (audio g ++ [stopGravityWellSound]) g)
    | None => g
    end in
  let g := set_gravityWellSpawnTimer 0 g in
  set_wasGravityWellActive false g.

(** The branch of [update] for the state [gameOver]. *)
Definition update_gameOver (fuel : nat) (dt : R) (g : Game) : Res Game :=
  (* Countdown to return to menu *)
  let g := set_gameOverTimer (gameOverTimer g - dt) g in
  if gameOverTimer g <=? 0 then Ok (resetGame g)
  else
    (* Or press space to play again immediately *)
    let (pressed, i) := consumeStartPress (input g) in
    let g := set_input i g in
    if pressed then startGame fuel (resetGame g) else Ok g.

(** The game as [resetGame] leaves it: the initial score, lives and
    level on the start screen, an empty field, and the ship back at the
    centre. *)
Definition fresh (g : Game) : Prop :=
  data g = mkGameData 0 3 1 start None None /\
  asteroids g = [] /\ bullets g = [] /\ ufoBullets g = [] /\ debris g = [] /\
  ufo g = None /\ gravityWell g = None /\
  respawnTimer g = 0 /\
  isActive (ship g) = true /\
  position (transform (ship g)) = mkVector2 (renderer_width / 2) (renderer_height / 2) /\
  velocity (ship g) = mkVector2 0 0 /\
  rotation (transform (ship g)) = 0 /\
  ship.invulnerableTime (ship g) = 3.

End game.

(* ================================================================== *)
(** * Properties *)

(** ** Comparisons *)

Lemma Rltb_true (a b : R) : a < b -> (a <? b) = true.
Proof. intros H; unfold Rltb; destruct (Rlt_dec a b); [reflexivity | contradiction]. Qed.

Lemma Rltb_false (a b : R) : b <= a -> (a <? b) = false.
Proof. intros H; unfold Rltb; destruct (Rlt_dec a b); [lra | reflexivity]. Qed.

Lemma Rleb_true (a b : R) : a <= b -> (a <=? b) = true.
Proof. intros H; unfold Rleb; destruct (Rle_dec a b); [reflexivity | contradiction]. Qed.

Lemma Rleb_false (a b : R) : b < a -> (a <=? b) = false.
Proof. intros H; unfold Rleb; destruct (Rle_dec a b); [lra | reflexivity]. Qed.

Lemma Rltb_iff (a b : R) : (a <? b) = true <-> a < b.
Proof.
  split; [| apply Rltb_true].
  unfold Rltb; destruct (Rlt_dec a b); [trivial | discriminate].
Qed.

Lemma Rleb_iff (a b : R) : (a <=? b) = true <-> a <= b.
Proof.
  split; [| apply Rleb_true].
  unfold Rleb; destruct (Rle_dec a b); [trivial | discriminate].
Qed.

Lemma Rltb_iff_false (a b : R) : (a <? b) = false <-> b <= a.
Proof.
  split; [| apply Rltb_false].
  unfold Rltb; destruct (Rlt_dec a b); [discriminate | lra].
Qed.

Lemma Rleb_iff_false (a b : R) : (a <=? b) = false <-> b < a.
Proof.
  split; [| apply Rleb_false].
  unfold Rleb; destruct (Rle_dec a b); [discriminate | lra].
Qed.

(** Decide every comparison of the goal that linear arithmetic settles. *)
Ltac rcompare :=
  unfold Rgtb, Rgeb in *;
  repeat match goal with
    | |- context [Rltb ?a ?b] =>
        first [ rewrite (Rltb_true a b) by lra | rewrite (Rltb_false a b) by lra ]
    | |- context [Rleb ?a ?b] =>
        first [ rewrite (Rleb_true a b) by lra | rewrite (Rleb_false a b) by lra ]
    end.

(** ** The random monad *)

Lemma bind_proj {A B : Type} (m : Rand A) (k : A -> Rand B) (g : Rng) :
  bind m k g = k (fst (m g)) (snd (m g)).
Proof. unfold bind. destruct (m g); reflexivity. Qed.

(* ================================================================== *)
(** ** Ship: the hyperspace state machine *)

Section Hyperspace.

Import ship.

Lemma elapsed_pos (l : list R) :
  l <> [] -> Forall (fun dt => 0 < dt) l -> 0 < elapsed l.
Proof.
  intros Hne Hall; induction Hall as [| d l Hd Hall IH]; [contradiction |].
  simpl. destruct l as [| d' l'].
  - simpl; lra.
  - assert (0 < elapsed (d' :: l')) by (apply IH; discriminate). lra.
Qed.

Lemma vector_plus_zero (p : Vector2) (dt : R) :
  math.add p (math.scale (mkVector2 0 0) dt) = p.
Proof. destruct p; unfold math.add, math.scale; simpl; f_equal; lra. Qed.

Ltac ship_step :=
  unfold update, hyperspacePhase; simpl;
  unfold HYPERSPACE_SHRINK_TIME, HYPERSPACE_WARP_TIME, HYPERSPACE_EXPAND_TIME,
    HYPERSPACE_COOLDOWN in *;
  rcompare; simpl; rcompare; simpl.

(** *** One frame inside a phase, and the frame that ends it *)

Lemma update_shrinking_stay (dt : R) (s : Ship) :
  hyperspaceState s = shrinking ->
  hyperspaceTimer s + dt < HYPERSPACE_SHRINK_TIME ->
  hyperspaceCooldown s <= 0 ->
  let s' := update dt s in
  hyperspaceState s' = shrinking /\
  hyperspaceTimer s' = hyperspaceTimer s + dt /\
  hyperspaceCooldown s' = hyperspaceCooldown s /\
  hyperspaceTargetPosition s' = hyperspaceTargetPosition s.
Proof.
  destruct s as [e thr inv st tm cd tg]; simpl; intros -> Ht Hc.
  ship_step. destruct (Rltb 0 inv); simpl; repeat split; reflexivity.
Qed.

Lemma update_shrinking_done (dt : R) (s : Ship) :
  hyperspaceState s = shrinking ->
  HYPERSPACE_SHRINK_TIME <= hyperspaceTimer s + dt ->
  hyperspaceCooldown s <= 0 ->
  let s' := update dt s in
  hyperspaceState s' = warping /\
  hyperspaceTimer s' = 0 /\
  hyperspaceCooldown s' = hyperspaceCooldown s /\
  hyperspaceTargetPosition s' = hyperspaceTargetPosition s.
Proof.
  destruct s as [e thr inv st tm cd tg]; simpl; intros -> Ht Hc.
  ship_step. destruct (Rltb 0 inv); simpl; repeat split; reflexivity.
Qed.

Lemma update_warping_stay (dt : R) (s : Ship) :
  hyperspaceState s = warping ->
  hyperspaceTimer s + dt < HYPERSPACE_WARP_TIME ->
  hyperspaceCooldown s <= 0 ->
  let s' := update dt s in
  hyperspaceState s' = warping /\
  hyperspaceTimer s' = hyperspaceTimer s + dt /\
  hyperspaceCooldown s' = hyperspaceCooldown s /\
  hyperspaceTargetPosition s' = hyperspaceTargetPosition s /\
  position (transform s') = position (transform s).
Proof.
  destruct s as [e thr inv st tm cd tg]; simpl; intros -> Ht Hc.
  ship_step. destruct (Rltb 0 inv); simpl; repeat split; reflexivity.
Qed.

Lemma update_warping_done (dt : R) (s : Ship) :
  hyperspaceState s = warping ->
  HYPERSPACE_WARP_TIME <= hyperspaceTimer s + dt ->
  hyperspaceCooldown s <= 0 ->
  let s' := update dt s in
  hyperspaceState s' = expanding /\
  hyperspaceTimer s' = 0 /\
  hyperspaceCooldown s' = hyperspaceCooldown s /\
  hyperspaceTargetPosition s' = hyperspaceTargetPosition s /\
  position (transform s') = hyperspaceTargetPosition s /\
  velocity s' = mkVector2 0 0.
Proof.
  destruct s as [e thr inv st tm cd tg]; simpl; intros -> Ht Hc.
  ship_step.
  assert (Hp : math.add (mkVector2 (x tg) (y tg)) (math.scale (mkVector2 0 0) dt) = tg)
    by (destruct tg; unfold math.add, math.scale; simpl; f_equal; lra).
  destruct (Rltb 0 inv); simpl; rewrite Hp; repeat split; reflexivity.
Qed.

Lemma update_expanding_stay (dt : R) (s : Ship) :
  hyperspaceState s = expanding ->
  hyperspaceTimer s + dt < HYPERSPACE_EXPAND_TIME ->
  hyperspaceCooldown s <= 0 ->
  velocity s = mkVector2 0 0 ->
  let s' := update dt s in
  hyperspaceState s' = expanding /\
  hyperspaceTimer s' = hyperspaceTimer s + dt /\
  hyperspaceCooldown s' = hyperspaceCooldown s /\
  position (transform s') = position (transform s) /\
  velocity s' = mkVector2 0 0.
Proof.
  destruct s as [e thr inv st tm cd tg]; simpl; intros -> Ht Hc Hv.
  ship_step. rewrite Hv, vector_plus_zero.
  destruct (Rltb 0 inv); simpl; repeat split; assumption || reflexivity.
Qed.

Lemma update_expanding_done (dt : R) (s : Ship) :
  hyperspaceState s = expanding ->
  HYPERSPACE_EXPAND_TIME <= hyperspaceTimer s + dt ->
  hyperspaceCooldown s <= 0 ->
  velocity s = mkVector2 0 0 ->
  let s' := update dt s in
  hyperspaceState s' = idle /\
  hyperspaceTimer s' = 0 /\
  hyperspaceCooldown s' = HYPERSPACE_COOLDOWN - dt /\
  position (transform s') = position (transform s) /\
  velocity s' = mkVector2 0 0.
Proof.
  destruct s as [e thr inv st tm cd tg]; simpl; intros -> Ht Hc Hv.
  ship_step. rewrite Hv, vector_plus_zero.
  destruct (Rltb 0 inv); simpl; repeat split; assumption || reflexivity.
Qed.

(** *** A whole phase, frame by frame *)

Lemma shrinking_phase (l : list R) : forall s : Ship,
  l <> [] -> Forall (fun dt => 0 < dt) l ->
  hyperspaceState s = shrinking ->
  hyperspaceTimer s + elapsed l = HYPERSPACE_SHRINK_TIME ->
  hyperspaceCooldown s <= 0 ->
  let s' := updates l s in
  hyperspaceState s' = warping /\
  hyperspaceTimer s' = 0 /\
  hyperspaceCooldown s' = hyperspaceCooldown s /\
  hyperspaceTargetPosition s' = hyperspaceTargetPosition s.
Proof.
  induction l as [| d l IH]; intros s Hne Hall Hst Hsum Hcd; [contradiction |].
  inversion Hall as [| ? ? Hd Hall']; subst.
  destruct l as [| d' l'].
  - simpl in *. apply update_shrinking_done; trivial. lra.
  - assert (Hpos : 0 < elapsed (d' :: l')) by (apply elapsed_pos; [discriminate | assumption]).
    change (elapsed (d :: d' :: l')) with (d + elapsed (d' :: l')) in Hsum.
    destruct (update_shrinking_stay d s Hst) as (H1 & H2 & H3 & H4); [lra | assumption |].
    change (updates (d :: d' :: l') s) with (updates (d' :: l') (update d s)).
    destruct (IH (update d s)) as (I1 & I2 & I3 & I4);
      [discriminate | assumption | assumption | rewrite H2; lra | rewrite H3; assumption |].
    cbv zeta. rewrite I3, I4, H3, H4. auto.
Qed.

Lemma warping_phase (l : list R) : forall s : Ship,
  l <> [] -> Forall (fun dt => 0 < dt) l ->
  hyperspaceState s = warping ->
  hyperspaceTimer s + elapsed l = HYPERSPACE_WARP_TIME ->
  hyperspaceCooldown s <= 0 ->
  let s' := updates l s in
  hyperspaceState s' = expanding /\
  hyperspaceTimer s' = 0 /\
  hyperspaceCooldown s' = hyperspaceCooldown s /\
  position (transform s') = hyperspaceTargetPosition s /\
  velocity s' = mkVector2 0 0.
Proof.
  induction l as [| d l IH]; intros s Hne Hall Hst Hsum Hcd; [contradiction |].
  inversion Hall as [| ? ? Hd Hall']; subst.
  destruct l as [| d' l'].
  - simpl in *.
    destruct (update_warping_done d s Hst) as (H1 & H2 & H3 & H4 & H5 & H6);
      [lra | assumption | auto].
  - assert (Hpos : 0 < elapsed (d' :: l')) by (apply elapsed_pos; [discriminate | assumption]).
    change (elapsed (d :: d' :: l')) with (d + elapsed (d' :: l')) in Hsum.
    destruct (update_warping_stay d s Hst) as (H1 & H2 & H3 & H4 & H5); [lra | assumption |].
    change (updates (d :: d' :: l') s) with (updates (d' :: l') (update d s)).
    destruct (IH (update d s)) as (I1 & I2 & I3 & I4 & I5);
      [discriminate | assumption | assumption | rewrite H2; lra | rewrite H3; assumption |].
    cbv zeta. rewrite I3, I4, H3, H4. auto.
Qed.

Lemma expanding_phase (l : list R) : forall s : Ship,
  l <> [] -> Forall (fun dt => 0 < dt) l ->
  hyperspaceState s = expanding ->
  hyperspaceTimer s + elapsed l = HYPERSPACE_EXPAND_TIME ->
  hyperspaceCooldown s <= 0 ->
  velocity s = mkVector2 0 0 ->
  let s' := updates l s in
  hyperspaceState s' = idle /\
  hyperspaceTimer s' = 0 /\
  hyperspaceCooldown s' = HYPERSPACE_COOLDOWN - last l 0 /\
  position (transform s') = position (transform s) /\
  velocity s' = mkVector2 0 0.
Proof.
  induction l as [| d l IH]; intros s Hne Hall Hst Hsum Hcd Hv; [contradiction |].
  inversion Hall as [| ? ? Hd Hall']; subst.
  destruct l as [| d' l'].
  - simpl in *. apply update_expanding_done; trivial. lra.
  - assert (Hpos : 0 < elapsed (d' :: l')) by (apply elapsed_pos; [discriminate | assumption]).
    change (elapsed (d :: d' :: l')) with (d + elapsed (d' :: l')) in Hsum.
    destruct (update_expanding_stay d s Hst) as (H1 & H2 & H3 & H4 & H5);
      [lra | assumption | assumption |].
    change (updates (d :: d' :: l') s) with (updates (d' :: l') (update d s)).
    destruct (IH (update d s)) as (I1 & I2 & I3 & I4 & I5);
      [discriminate | assumption | assumption | rewrite H2; lra
      | rewrite H3; assumption | assumption |].
    cbv zeta. rewrite I4, H4.
    change (last (d :: d' :: l') 0) with (last (d' :: l') 0). auto.
Qed.

Lemma updates_app (l1 l2 : list R) (s : Ship) :
  updates (l1 ++ l2) s = updates l2 (updates l1 s).
Proof. apply fold_left_app. Qed.

Lemma activateHyperspace_accepted (tx ty : R) (s : Ship) :
  canHyperspace s = true ->
  let s' := activateHyperspace tx ty s in
  hyperspaceState s' = shrinking /\
  hyperspaceTimer s' = 0 /\
  hyperspaceCooldown s' <= 0 /\
  hyperspaceTargetPosition s' = mkVector2 tx ty.
Proof.
  intros Hcan. unfold activateHyperspace. rewrite Hcan; simpl.
  unfold canHyperspace in Hcan. apply andb_true_iff in Hcan as [_ Hcd].
  apply Rleb_iff in Hcd. repeat split; trivial.
Qed.

(** The cycle, when every phase is filled exactly by its own frames. *)
Lemma hyperspace_cycle (s : Ship) (tx ty : R) (l1 l2 l3 : list R) :
  canHyperspace s = true ->
  fills HYPERSPACE_SHRINK_TIME l1 ->
  fills HYPERSPACE_WARP_TIME l2 ->
  fills HYPERSPACE_EXPAND_TIME l3 ->
  let s' := updates (l1 ++ l2 ++ l3) (activateHyperspace tx ty s) in
  hyperspaceState s' = idle /\
  hyperspaceTimer s' = 0 /\
  hyperspaceCooldown s' = HYPERSPACE_COOLDOWN - last l3 0 /\
  position (transform s') = mkVector2 tx ty /\
  velocity s' = mkVector2 0 0.
Proof.
  intros Hcan (N1 & P1 & E1) (N2 & P2 & E2) (N3 & P3 & E3).
  destruct (activateHyperspace_accepted tx ty s Hcan) as (A1 & A2 & A3 & A4).
  set (s0 := activateHyperspace tx ty s) in *.
  destruct (shrinking_phase l1 s0 N1 P1 A1) as (B1 & B2 & B3 & B4);
    [rewrite A2; lra | assumption |].
  destruct (warping_phase l2 (updates l1 s0) N2 P2 B1) as (C1 & C2 & C3 & C4 & C5);
    [rewrite B2; lra | rewrite B3; assumption |].
  destruct (expanding_phase l3 (updates l2 (updates l1 s0)) N3 P3 C1)
    as (D1 & D2 & D3 & D4 & D5);
    [rewrite C2; lra | rewrite C3, B3; assumption | assumption |].
  cbv zeta. rewrite !updates_app.
  rewrite D4, C4, B4, A4. auto.
Qed.

(** *** A phase that ends at the first update reaching its duration *)

Lemma elapsed_app (a b : list R) : elapsed (a ++ b) = elapsed a + elapsed b.
Proof. induction a as [| d a IH]; simpl; [lra | rewrite IH; lra]. Qed.

Lemma elapsed_removelast (l : list R) :
  l <> [] -> elapsed l = elapsed (removelast l) + last l 0.
Proof.
  intros Hne. rewrite (app_removelast_last 0 Hne) at 1.
  rewrite elapsed_app. simpl. lra.
Qed.

Lemma elapsed_removelast_nonneg (l : list R) :
  Forall (fun dt => 0 < dt) l -> 0 <= elapsed (removelast l).
Proof.
  induction 1 as [| d l Hd Hall IH]; [simpl; lra |].
  destruct l as [| d' l']; [simpl; lra |].
  change (removelast (d :: d' :: l')) with (d :: removelast (d' :: l')).
  change (elapsed (d :: removelast (d' :: l')))
    with (d + elapsed (removelast (d' :: l'))). lra.
Qed.

Lemma fills_reaches (T : R) (l : list R) : fills T l -> reaches T l.
Proof.
  intros (N & P & E). split; [exact N |]. split; [exact P |].
  rewrite (elapsed_removelast l N) in E.
  assert (0 < last l 0).
  { rewrite Forall_forall in P. apply P.
    rewrite (app_removelast_last 0 N) at 2. apply in_or_app. right. left. reflexivity. }
  rewrite (elapsed_removelast l N). lra.
Qed.

Lemma shrinking_reached (l : list R) : forall s : Ship,
  l <> [] -> Forall (fun dt => 0 < dt) l ->
  hyperspaceState s = shrinking ->
  hyperspaceTimer s + elapsed (removelast l) < HYPERSPACE_SHRINK_TIME ->
  HYPERSPACE_SHRINK_TIME <= hyperspaceTimer s + elapsed l ->
  hyperspaceCooldown s <= 0 ->
  let s' := updates l s in
  hyperspaceState s' = warping /\
  hyperspaceTimer s' = 0 /\
  hyperspaceCooldown s' = hyperspaceCooldown s /\
  hyperspaceTargetPosition s' = hyperspaceTargetPosition s.
Proof.
  induction l as [| d l IH]; intros s Hne Hall Hst Hlt Hge Hcd; [contradiction |].
  inversion Hall as [| ? ? Hd Hall']; subst.
  destruct l as [| d' l'].
  - simpl in *. apply update_shrinking_done; trivial. lra.
  - pose proof (elapsed_removelast_nonneg (d' :: l') Hall') as Hpos.
    change (removelast (d :: d' :: l')) with (d :: removelast (d' :: l')) in Hlt.
    change (elapsed (d :: removelast (d' :: l')))
      with (d + elapsed (removelast (d' :: l'))) in Hlt.
    change (elapsed (d :: d' :: l')) with (d + elapsed (d' :: l')) in Hge.
    destruct (update_shrinking_stay d s Hst) as (H1 & H2 & H3 & H4); [lra | assumption |].
    change (updates (d :: d' :: l') s) with (updates (d' :: l') (update d s)).
    destruct (IH (update d s)) as (I1 & I2 & I3 & I4);
      [discriminate | assumption | assumption | rewrite H2; lra | rewrite H2; lra
      | rewrite H3; assumption |].
    cbv zeta. rewrite I3, I4, H3, H4. auto.
Qed.

Lemma warping_reached (l : list R) : forall s : Ship,
  l <> [] -> Forall (fun dt => 0 < dt) l ->
  hyperspaceState s = warping ->
  hyperspaceTimer s + elapsed (removelast l) < HYPERSPACE_WARP_TIME ->
  HYPERSPACE_WARP_TIME <= hyperspaceTimer s + elapsed l ->
  hyperspaceCooldown s <= 0 ->
  let s' := updates l s in
  hyperspaceState s' = expanding /\
  hyperspaceTimer s' = 0 /\
  hyperspaceCooldown s' = hyperspaceCooldown s /\
  position (transform s') = hyperspaceTargetPosition s /\
  velocity s' = mkVector2 0 0.
Proof.
  induction l as [| d l IH]; intros s Hne Hall Hst Hlt Hge Hcd; [contradiction |].
  inversion Hall as [| ? ? Hd Hall']; subst.
  destruct l as [| d' l'].
  - simpl in *.
    destruct (update_warping_done d s Hst) as (H1 & H2 & H3 & H4 & H5 & H6);
      [lra | assumption | auto].
  - pose proof (elapsed_removelast_nonneg (d' :: l') Hall') as Hpos.
    change (removelast (d :: d' :: l')) with (d :: removelast (d' :: l')) in Hlt.
    change (elapsed (d :: removelast (d' :: l')))
      with (d + elapsed (removelast (d' :: l'))) in Hlt.
    change (elapsed (d :: d' :: l')) with (d + elapsed (d' :: l')) in Hge.
    destruct (update_warping_stay d s Hst) as (H1 & H2 & H3 & H4 & H5); [lra | assumption |].
    change (updates (d :: d' :: l') s) with (updates (d' :: l') (update d s)).
    destruct (IH (update d s)) as (I1 & I2 & I3 & I4 & I5);
      [discriminate | assumption | assumption | rewrite H2; lra | rewrite H2; lra
      | rewrite H3; assumption |].
    cbv zeta. rewrite I3, I4, H3, H4. auto.
Qed.

(** While the accumulated time stays below the duration, the ship goes
    on expanding where it is. *)
Lemma expanding_stays (l : list R) : forall s : Ship,
  Forall (fun dt => 0 < dt) l ->
  hyperspaceState s = expanding ->
  hyperspaceTimer s + elapsed l < HYPERSPACE_EXPAND_TIME ->
  hyperspaceCooldown s <= 0 ->
  velocity s = mkVector2 0 0 ->
  let s' := updates l s in
  hyperspaceState s' = expanding /\
  hyperspaceTimer s' = hyperspaceTimer s + elapsed l /\
  hyperspaceCooldown s' = hyperspaceCooldown s /\
  position (transform s') = position (transform s) /\
  velocity s' = mkVector2 0 0.
Proof.
  induction l as [| d l IH]; intros s Hall Hst Hlt Hcd Hv.
  - simpl. repeat split; trivial. lra.
  - inversion Hall as [| ? ? Hd Hall']; subst.
    assert (Hpos : 0 <= elapsed l).
    { clear - Hall'. induction Hall' as [| e l He _ IHl]; simpl; lra. }
    change (elapsed (d :: l)) with (d + elapsed l) in *.
    destruct (update_expanding_stay d s Hst) as (H1 & H2 & H3 & H4 & H5);
      [lra | assumption | assumption |].
    change (updates (d :: l) s) with (updates l (update d s)).
    destruct (IH (update d s)) as (I1 & I2 & I3 & I4 & I5);
      [assumption | assumption | rewrite H2; lra | rewrite H3; assumption | assumption |].
    cbv zeta. rewrite I2, I3, I4, H2, H3, H4. repeat split; trivial. lra.
Qed.

Lemma expanding_reached (l : list R) (s : Ship) :
  l <> [] -> Forall (fun dt => 0 < dt) l ->
  hyperspaceState s = expanding ->
  hyperspaceTimer s + elapsed (removelast l) < HYPERSPACE_EXPAND_TIME ->
  HYPERSPACE_EXPAND_TIME <= hyperspaceTimer s + elapsed l ->
  hyperspaceCooldown s <= 0 ->
  velocity s = mkVector2 0 0 ->
  hyperspaceState (updates (removelast l) s) = expanding /\
  let s' := updates l s in
  hyperspaceState s' = idle /\
  hyperspaceTimer s' = 0 /\
  hyperspaceCooldown s' = HYPERSPACE_COOLDOWN - last l 0 /\
  position (transform s') = position (transform s) /\
  velocity s' = mkVector2 0 0.
Proof.
  intros Hne Hall Hst Hlt Hge Hcd Hv.
  assert (Hall' : Forall (fun dt => 0 < dt) (removelast l)).
  { rewrite Forall_forall in *. intros d Hd. apply Hall.
    rewrite (app_removelast_last 0 Hne). apply in_or_app. left. exact Hd. }
  destruct (expanding_stays (removelast l) s Hall' Hst Hlt Hcd Hv)
    as (S1 & S2 & S3 & S4 & S5).
  split; [exact S1 |].
  assert (E : updates l s = update (last l 0) (updates (removelast l) s)).
  { transitivity (updates (removelast l ++ [last l 0]) s).
    - f_equal. apply app_removelast_last. exact Hne.
    - rewrite updates_app. reflexivity. }
  rewrite (elapsed_removelast l Hne) in Hge.
  destruct (update_expanding_done (last l 0) (updates (removelast l) s) S1)
    as (D1 & D2 & D3 & D4 & D5);
    [rewrite S2; lra | rewrite S3; assumption | assumption |].
  cbv zeta. rewrite E, D4, S4. auto.
Qed.

(** The cycle, when every phase ends at the first update that reaches
    its duration. *)
Lemma hyperspace_cycle_reached (s : Ship) (tx ty : R) (l1 l2 l3 : list R) :
  canHyperspace s = true ->
  reaches HYPERSPACE_SHRINK_TIME l1 ->
  reaches HYPERSPACE_WARP_TIME l2 ->
  reaches HYPERSPACE_EXPAND_TIME l3 ->
  let s0 := activateHyperspace tx ty s in
  hyperspaceState (updates l1 s0) = warping /\
  hyperspaceState (updates (l1 ++ l2) s0) = expanding /\
  hyperspaceState (updates (l1 ++ l2 ++ removelast l3) s0) = expanding /\
  let s' := updates (l1 ++ l2 ++ l3) s0 in
  hyperspaceState s' = idle /\
  hyperspaceTimer s' = 0 /\
  hyperspaceCooldown s' = HYPERSPACE_COOLDOWN - last l3 0 /\
  position (transform s') = mkVector2 tx ty /\
  velocity s' = mkVector2 0 0.
Proof.
  intros Hcan (N1 & P1 & L1 & G1) (N2 & P2 & L2 & G2) (N3 & P3 & L3 & G3).
  destruct (activateHyperspace_accepted tx ty s Hcan) as (A1 & A2 & A3 & A4).
  cbv zeta. set (s0 := activateHyperspace tx ty s) in *.
  destruct (shrinking_reached l1 s0 N1 P1 A1) as (B1 & B2 & B3 & B4);
    [rewrite A2; lra | rewrite A2; lra | assumption |].
  destruct (warping_reached l2 (updates l1 s0) N2 P2 B1) as (C1 & C2 & C3 & C4 & C5);
    [rewrite B2; lra | rewrite B2; lra | rewrite B3; assumption |].
  destruct (expanding_reached l3 (updates l2 (updates l1 s0)) N3 P3 C1)
    as (D0 & D1 & D2 & D3 & D4 & D5);
    [rewrite C2; lra | rewrite C2; lra | rewrite C3, B3; assumption | assumption |].
  rewrite !updates_app.
  split; [exact B1 |]. split; [exact C1 |]. split; [exact D0 |].
  rewrite D4, C4, B4, A4. auto.
Qed.

(** C3 (as amended).  A full hyperspace cycle
    idle -> shrinking -> warping -> expanding -> idle, driven by
    [Ship.update] calls with positive [dt] in which each phase ends at
    the first update at which the time accumulated in that phase reaches
    the phase's duration, takes at least shrinkTime + warpTime +
    expandTime and less than that plus the last frame of each phase.
    The ship is warping after the frames of the first phase, expanding
    after those of the second and still expanding before the last
    update; after the last update it is back in the idle state, with
    the hyperspace timer at zero, at the pre-chosen target position
    with zero velocity, and with [hyperspaceCooldown] equal to the
    configured cooldown less the [dt] of that last update: the cooldown
    countdown already runs in the [update] that re-enters idle. *)
Theorem hyperspace_full_cycle (s : Ship) (tx ty : R) (l1 l2 l3 : list R) :
  canHyperspace s = true ->
  reaches HYPERSPACE_SHRINK_TIME l1 ->
  reaches HYPERSPACE_WARP_TIME l2 ->
  reaches HYPERSPACE_EXPAND_TIME l3 ->
  let total := HYPERSPACE_SHRINK_TIME + HYPERSPACE_WARP_TIME + HYPERSPACE_EXPAND_TIME in
  let dts := l1 ++ l2 ++ l3 in
  let s0 := activateHyperspace tx ty s in
  let s' := updates dts s0 in
  total <= elapsed dts < total + last l1 0 + last l2 0 + last l3 0 /\
  hyperspaceState (updates l1 s0) = warping /\
  hyperspaceState (updates (l1 ++ l2) s0) = expanding /\
  hyperspaceState (updates (removelast dts) s0) = expanding /\
  hyperspaceState s' = idle /\
  hyperspaceTimer s' = 0 /\
  hyperspaceCooldown s' = HYPERSPACE_COOLDOWN - last dts 0 /\
  position (transform s') = mkVector2 tx ty /\
  velocity s' = mkVector2 0 0.
Proof.
  intros Hcan F1 F2 F3 total dts s0 s'.
  assert (N3 : l3 <> []) by apply F3.
  assert (Hlast : last dts 0 = last l3 0).
  { unfold dts. rewrite app_assoc.
    rewrite (app_removelast_last 0 N3) at 1.
    rewrite app_assoc, last_last. reflexivity. }
  assert (Hrem : removelast dts = l1 ++ l2 ++ removelast l3).
  { unfold dts. rewrite app_assoc, removelast_app by exact N3.
    rewrite <- app_assoc. reflexivity. }
  destruct (hyperspace_cycle_reached s tx ty l1 l2 l3 Hcan F1 F2 F3)
    as (W & E & E' & I1 & I2 & I3 & I4 & I5).
  split.
  - unfold dts, total. rewrite !elapsed_app.
    destruct F1 as (N1 & _ & L1 & G1), F2 as (N2 & _ & L2 & G2), F3 as (_ & _ & L3 & G3).
    rewrite (elapsed_removelast l1 N1), (elapsed_removelast l2 N2),
      (elapsed_removelast l3 N3) in *.
    lra.
  - rewrite Hlast, Hrem. repeat split; assumption.
Qed.

Lemma hyperspace_full_cycle_witness :
  let f := 1 / 16 in
  let dts := [f; f; f; f; f] ++ [f; f; f; f] ++ [f; f; f; f; f] in
  let s' := updates dts (activateHyperspace 100 200 (new 400 300)) in
  elapsed dts = 14 / 16 /\
  hyperspaceState s' = idle /\
  hyperspaceTimer s' = 0 /\
  hyperspaceCooldown s' = HYPERSPACE_COOLDOWN - 1 / 16 /\
  position (transform s') = mkVector2 100 200 /\
  velocity s' = mkVector2 0 0.
Proof.
  cbv zeta.
  destruct (hyperspace_full_cycle (new 400 300) 100 200
              [1/16; 1/16; 1/16; 1/16; 1/16] [1/16; 1/16; 1/16; 1/16]
              [1/16; 1/16; 1/16; 1/16; 1/16])
    as (_ & _ & _ & _ & H1 & H2 & H3 & H4 & H5).
  - unfold canHyperspace; simpl. rewrite Rleb_true by lra. reflexivity.
  - unfold reaches, HYPERSPACE_SHRINK_TIME; simpl.
    split; [discriminate | split; [repeat constructor; lra | lra]].
  - unfold reaches, HYPERSPACE_WARP_TIME; simpl.
    split; [discriminate | split; [repeat constructor; lra | lra]].
  - unfold reaches, HYPERSPACE_EXPAND_TIME; simpl.
    split; [discriminate | split; [repeat constructor; lra | lra]].
  - split; [simpl; lra |]. repeat split; assumption.
Defined.

(** C3 as stated fails twice.  Eight frames of 1/10 s add up to
    shrinkTime + warpTime + expandTime and do complete the cycle, but the
    cooldown then reads 49/10, not the configured 5; and a single frame of
    8/10 s adds up to the same total and leaves the ship in the warping
    phase. *)
Lemma hyperspace_full_cycle_counterexample :
  (let f := 1 / 10 in
   let dts := [f; f; f; f; f; f; f; f] in
   let s' := updates dts (activateHyperspace 100 200 (new 400 300)) in
   elapsed dts = HYPERSPACE_SHRINK_TIME + HYPERSPACE_WARP_TIME + HYPERSPACE_EXPAND_TIME /\
   hyperspaceState s' = idle /\
   hyperspaceCooldown s' = 49 / 10 /\
   hyperspaceCooldown s' <> HYPERSPACE_COOLDOWN) /\
  (let dts := [8 / 10] in
   let s' := updates dts (activateHyperspace 100 200 (new 400 300)) in
   elapsed dts = HYPERSPACE_SHRINK_TIME + HYPERSPACE_WARP_TIME + HYPERSPACE_EXPAND_TIME /\
   hyperspaceState s' = warping /\
   hyperspaceState s' <> idle).
Proof.
  assert (Hcan : canHyperspace (new 400 300) = true).
  { unfold canHyperspace; simpl. rewrite Rleb_true by lra. reflexivity. }
  split.
  - cbv zeta.
    change [1/10; 1/10; 1/10; 1/10; 1/10; 1/10; 1/10; 1/10]
      with ([1/10; 1/10; 1/10] ++ [1/10; 1/10] ++ [1/10; 1/10; 1/10]).
    destruct (hyperspace_cycle (new 400 300) 100 200
                [1/10; 1/10; 1/10] [1/10; 1/10] [1/10; 1/10; 1/10] Hcan)
      as (H1 & H2 & H3 & H4 & H5);
      try (unfold fills, HYPERSPACE_SHRINK_TIME, HYPERSPACE_WARP_TIME,
             HYPERSPACE_EXPAND_TIME; simpl;
           split; [discriminate | split; [repeat constructor; lra | lra]]).
    rewrite H3.
    unfold HYPERSPACE_SHRINK_TIME, HYPERSPACE_WARP_TIME, HYPERSPACE_EXPAND_TIME,
      HYPERSPACE_COOLDOWN; simpl.
    repeat split; trivial; lra.
  - cbv zeta.
    destruct (activateHyperspace_accepted 100 200 (new 400 300) Hcan) as (A1 & A2 & A3 & A4).
    destruct (update_shrinking_done (8 / 10) _ A1) as (B1 & B2 & B3 & B4);
      [rewrite A2; unfold HYPERSPACE_SHRINK_TIME; lra | assumption |].
    unfold updates; simpl fold_left. rewrite B1.
    unfold HYPERSPACE_SHRINK_TIME, HYPERSPACE_WARP_TIME, HYPERSPACE_EXPAND_TIME; simpl.
    repeat split; [lra | discriminate].
Qed.

(** C4.  For every ship whose hyperspace state is not idle, or whose
    hyperspace cooldown is positive, [activateHyperspace] with any target
    is a silent no-op: the call returns and leaves the ship as it was, so
    [hyperspaceState], [hyperspaceTimer], [hyperspaceTargetPosition] and
    [invulnerableTime] (and every other field) are unchanged. *)
Theorem activateHyperspace_noop (s : Ship) (tx ty : R) :
  hyperspaceState s <> idle \/ hyperspaceCooldown s > 0 ->
  let s' := activateHyperspace tx ty s in
  s' = s /\
  hyperspaceState s' = hyperspaceState s /\
  hyperspaceTimer s' = hyperspaceTimer s /\
  hyperspaceTargetPosition s' = hyperspaceTargetPosition s /\
  invulnerableTime s' = invulnerableTime s.
Proof.
  intros H.
  assert (Hcan : canHyperspace s = false).
  { unfold canHyperspace. destruct H as [H | H].
    - destruct (hyperspaceState s); [contradiction | reflexivity ..].
    - rewrite (Rleb_false _ _ H). apply andb_false_r. }
  cbv zeta. unfold activateHyperspace. rewrite Hcan. simpl. auto.
Qed.

Lemma activateHyperspace_noop_witness :
  let s := setHyperspaceCooldown 3 (new 400 300) in
  activateHyperspace 100 200 s = s.
Proof.
  apply (activateHyperspace_noop (setHyperspaceCooldown 3 (new 400 300)) 100 200).
  right. simpl. lra.
Defined.

End Hyperspace.

(* ================================================================== *)
(** ** Gravity well: the pull force *)

Section GravityWellForce.

Import gravityWell.

Lemma sqrt_sq_sum (a b : R) : sqrt (a * a + b * b) * sqrt (a * a + b * b) = a * a + b * b.
Proof. apply sqrt_sqrt. nra. Qed.

(** A vector of length [d], rescaled by [k / d], has length [|k|]. *)
Lemma magnitude_rescaled (dx dy k : R) :
  let d := sqrt (dx * dx + dy * dy) in
  0 < d ->
  math.magnitude (mkVector2 (dx / d * k) (dy / d * k)) = Rabs k.
Proof.
  intros d Hd. unfold math.magnitude; simpl.
  assert (Hdd : d * d = dx * dx + dy * dy) by apply sqrt_sq_sum.
  replace (dx / d * k * (dx / d * k) + dy / d * k * (dy / d * k)) with (Rsqr k).
  - apply sqrt_Rsqr_abs.
  - replace (dx / d * k * (dx / d * k) + dy / d * k * (dy / d * k))
      with ((dx * dx + dy * dy) / (d * d) * (k * k)) by (field; lra).
    rewrite <- Hdd. unfold Rsqr. field. lra.
Qed.

Lemma getPullForce_outside (w : GravityWell) (p : Vector2) :
  let d := math.distance p (position (transform w)) in
  d > pullRadius w \/ d < 1 ->
  fst (getPullForce p w) = mkVector2 0 0.
Proof.
  intros d H. unfold getPullForce.
  fold (math.distance p (position (transform w))). fold d.
  destruct H as [H | H].
  - unfold Rgtb. rewrite (Rltb_true _ _ H). reflexivity.
  - rewrite (Rltb_true _ _ H), orb_true_r. reflexivity.
Qed.

Lemma getPullForce_inside (w : GravityWell) (p : Vector2) :
  let c := position (transform w) in
  let d := math.distance p c in
  1 <= d <= pullRadius w ->
  fst (getPullForce p w) =
    mkVector2 ((x c - x p) / d * pullStrength w) ((y c - y p) / d * pullStrength w).
Proof.
  intros c d [H1 H2]. unfold getPullForce.
  fold c. fold (math.distance p c). fold d.
  unfold Rgtb. rewrite (Rltb_false _ _ H2), (Rltb_false _ _ H1). reflexivity.
Qed.

(** C1.  For every gravity well and every query point: [getPullForce]
    returns the zero vector when the point's distance from the centre is
    greater than [pullRadius] or less than 1; for a point in between, the
    returned vector is the vector from the query point to the centre
    rescaled by [pullStrength / distance], so that its magnitude is the
    absolute value of [pullStrength] whatever the distance; for a well of
    non-negative pull strength, as every well the spawner makes is, the
    magnitude is [pullStrength] exactly and the vector points from the
    query point toward the centre. *)
Theorem getPullForce_constant_pull (w : GravityWell) (p : Vector2) :
  let c := position (transform w) in
  let d := math.distance p c in
  let f := fst (getPullForce p w) in
  (d > pullRadius w \/ d < 1 -> f = mkVector2 0 0) /\
  (1 <= d <= pullRadius w ->
     f = math.scale (math.subtract c p) (pullStrength w / d) /\
     math.magnitude f = Rabs (pullStrength w) /\
     (0 <= pullStrength w ->
        math.magnitude f = pullStrength w /\ 0 <= pullStrength w / d)).
Proof.
  intros c d f. split.
  - apply getPullForce_outside.
  - intros Hd. unfold f. rewrite (getPullForce_inside w p Hd). fold c d.
    assert (Hpos : 0 < d) by lra.
    assert (Hmag : math.magnitude
                     (mkVector2 ((x c - x p) / d * pullStrength w)
                                ((y c - y p) / d * pullStrength w))
                   = Rabs (pullStrength w))
      by (apply (magnitude_rescaled (x c - x p) (y c - y p) (pullStrength w)); assumption).
    split; [| split; [exact Hmag |]].
    + unfold math.scale, math.subtract; simpl. f_equal; field; lra.
    + intros Hs. split.
      * rewrite Hmag. apply Rabs_right. lra.
      * apply Rmult_le_pos; [assumption |]. left. apply Rinv_0_lt_compat. assumption.
Qed.

Lemma getPullForce_constant_pull_witness :
  math.magnitude (fst (getPullForce (mkVector2 3 4) (new 0 0 None None))) = 150 /\
  fst (getPullForce (mkVector2 400 0) (new 0 0 None None)) = mkVector2 0 0.
Proof.
  assert (H5 : math.distance (mkVector2 3 4) (mkVector2 0 0) = 5).
  { unfold math.distance; simpl.
    replace ((0 - 3) * (0 - 3) + (0 - 4) * (0 - 4)) with (5 * 5) by lra.
    apply sqrt_square; lra. }
  assert (H400 : math.distance (mkVector2 400 0) (mkVector2 0 0) = 400).
  { unfold math.distance; simpl.
    replace ((0 - 400) * (0 - 400) + (0 - 0) * (0 - 0)) with (400 * 400) by lra.
    apply sqrt_square; lra. }
  split.
  - apply (getPullForce_constant_pull (new 0 0 None None) (mkVector2 3 4)).
    + simpl. rewrite H5. unfold CONFIG.gravityWell.pullRadius. lra.
    + simpl. unfold CONFIG.gravityWell.pullStrength.min. lra.
  - apply (getPullForce_constant_pull (new 0 0 None None) (mkVector2 400 0)).
    left. simpl. rewrite H400. unfold CONFIG.gravityWell.pullRadius. lra.
Defined.

(** The pull strength the spawner hands to a well lies between the
    configured minimum and maximum from level 1 on. *)
Lemma getGravityWellPullStrength_bounds (level : Z) :
  (1 <= level)%Z ->
  CONFIG.gravityWell.pullStrength.min <= spawner.getGravityWellPullStrength level
    <= CONFIG.gravityWell.pullStrength.max.
Proof.
  intros H. apply IZR_le in H.
  unfold spawner.getGravityWellPullStrength, CONFIG.gravityWell.pullStrength.min,
    CONFIG.gravityWell.pullStrength.max, Rmin.
  destruct (Rle_dec _ _); lra.
Qed.

(** The returned vector is the well's own [cachedPullForce] object, and
    the call changes nothing else of the well. *)
Lemma getPullForce_cached (w : GravityWell) (p : Vector2) :
  let (f, w') := getPullForce p w in
  cachedPullForce w' = f /\ w' = setCachedPullForce f w.
Proof.
  unfold getPullForce. destruct (_ || _); simpl; auto.
Qed.

(** The superseded force law is weaker by the factor 1 - d / pullRadius. *)
Lemma superseded_pull_is_distance_scaled :
  gravityWell_superseded.getPullForce (mkVector2 0 0) 300 150 (mkVector2 150 0)
  = mkVector2 (-75) 0.
Proof.
  assert (H : sqrt ((0 - 150) * (0 - 150) + (0 - 0) * (0 - 0)) = 150).
  { replace ((0 - 150) * (0 - 150) + (0 - 0) * (0 - 0)) with (150 * 150) by lra.
    apply sqrt_square; lra. }
  unfold gravityWell_superseded.getPullForce; simpl. rewrite H.
  rcompare. simpl. f_equal; field.
Qed.

End GravityWellForce.

(* ================================================================== *)
(** ** Collision detection *)

Section Collision.

Import collision.

Lemma distance_sym (p q : Vector2) : math.distance p q = math.distance q p.
Proof. unfold math.distance; simpl. f_equal. ring. Qed.

Lemma checkCollision_sym (a b : Entity) : checkCollision a b = checkCollision b a.
Proof.
  unfold checkCollision.
  rewrite (orb_comm (negb (isActive a))), (distance_sym (position (transform a))),
    (Rplus_comm (radius a)).
  reflexivity.
Qed.

(** The test on an active pair, written out: [dist < a.radius + b.radius]
    with [dist] the square root of the sum of the squared coordinate
    differences. *)
Lemma checkCollision_active_pair (a b : Entity) :
  isActive a = true -> isActive b = true ->
  let dx := x (position (transform b)) - x (position (transform a)) in
  let dy := y (position (transform b)) - y (position (transform a)) in
  (checkCollision a b = true <-> sqrt (dx * dx + dy * dy) < radius a + radius b).
Proof.
  intros Ha Hb. cbv zeta. unfold checkCollision, math.distance.
  rewrite Ha, Hb. cbn [negb orb]. cbv zeta. apply Rltb_iff.
Qed.

(** The same test without the square root. *)
Lemma sqrt_lt_sum (q r : R) :
  0 <= q -> (sqrt q < r <-> 0 < r /\ q < r * r).
Proof.
  intros Hq. split.
  - intros H. pose proof (sqrt_pos q) as Hs.
    assert (Hr : 0 < r) by lra. split; [exact Hr |].
    rewrite <- (sqrt_sqrt q Hq). apply Rmult_le_0_lt_compat; lra.
  - intros [Hr H]. rewrite <- (sqrt_square r) by lra.
    apply sqrt_lt_1_alt. split; [exact Hq | exact H].
Qed.

(** C6.  For every pair of entities A and B: [checkCollision A B] equals
    [checkCollision B A]; it is false whenever either entity is inactive;
    and when both are active it is true if and only if the Euclidean
    distance between the two transform positions, the square root of
    (bx - ax)^2 + (by - ay)^2, is strictly less than the sum of the two
    radii - that is, if and only if that sum is positive and the squared
    distance is less than its square. *)
Theorem checkCollision_spec (a b : Entity) :
  let dx := x (position (transform b)) - x (position (transform a)) in
  let dy := y (position (transform b)) - y (position (transform a)) in
  checkCollision a b = checkCollision b a /\
  (isActive a = false \/ isActive b = false -> checkCollision a b = false) /\
  (isActive a = true -> isActive b = true ->
     (checkCollision a b = true <-> sqrt (dx * dx + dy * dy) < radius a + radius b) /\
     (checkCollision a b = true <->
      0 < radius a + radius b /\
      dx * dx + dy * dy < (radius a + radius b) * (radius a + radius b))).
Proof.
  cbv zeta. split; [apply checkCollision_sym |]. split.
  - unfold checkCollision. intros [-> | ->]; simpl; [| rewrite orb_true_r]; reflexivity.
  - intros Ha Hb. pose proof (checkCollision_active_pair a b Ha Hb) as H. cbv zeta in H.
    split; [exact H |]. rewrite H. apply sqrt_lt_sum.
    apply Rplus_le_le_0_compat; apply Rle_0_sqr.
Qed.

(** Two entities 5 apart (a 3-4-5 triangle): radii 2 and 4 collide,
    radii 2 and 3 do not (the test is strict), and an inactive entity
    never collides. *)
Lemma checkCollision_spec_witness :
  let a := setRadius 2 (baseEntity.BaseEntity 0 0) in
  let b := setRadius 4 (baseEntity.BaseEntity 3 4) in
  let b' := setRadius 3 (baseEntity.BaseEntity 3 4) in
  let c := setActive false b in
  checkCollision a b = true /\
  checkCollision a b' = false /\
  checkCollision b' a = false /\
  checkCollision a c = false.
Proof.
  intros a b b' c.
  assert (H5 : sqrt ((3 - 0) * (3 - 0) + (4 - 0) * (4 - 0)) = 5).
  { replace ((3 - 0) * (3 - 0) + (4 - 0) * (4 - 0)) with (5 * 5) by ring.
    apply sqrt_square. lra. }
  destruct (checkCollision_spec a b) as (_ & _ & Hab).
  destruct (checkCollision_spec a b') as (Hsym & _ & Hab').
  destruct (checkCollision_spec a c) as (_ & Hc & _).
  destruct (Hab eq_refl eq_refl) as (Hab1 & _).
  destruct (Hab' eq_refl eq_refl) as (Hab2 & _).
  assert (Hmiss : checkCollision a b' = false).
  { destruct (checkCollision a b') eqn:E; [| reflexivity].
    exfalso. destruct Hab2 as [Hlt _]. specialize (Hlt eq_refl).
    cbn in Hlt. rewrite H5 in Hlt. lra. }
  split; [| split; [| split]].
  - apply Hab1. cbn. rewrite H5. lra.
  - exact Hmiss.
  - rewrite <- Hsym. exact Hmiss.
  - apply Hc. right. reflexivity.
Defined.

End Collision.

(* ================================================================== *)
(** ** Asteroids: splitting *)

Section AsteroidSplit.

Import asteroid.

Lemma magnitude_unit_scaled (angle s : R) :
  0 <= s ->
  math.magnitude (math.scale (mkVector2 (cos angle) (sin angle)) s) = s.
Proof.
  intros Hs. unfold math.magnitude, math.scale; simpl.
  replace (cos angle * s * (cos angle * s) + sin angle * s * (sin angle * s))
    with ((Rsqr (sin angle) + Rsqr (cos angle)) * (s * s)) by (unfold Rsqr; ring).
  rewrite sin2_cos2, Rmult_1_l. apply sqrt_square. assumption.
Qed.

Lemma speed_nonneg (sz : AsteroidSize) : 0 <= speed (SIZE_CONFIG sz).
Proof. destruct sz; simpl; lra. Qed.

(** The fields of a freshly constructed asteroid that was given a
    direction. *)
Lemma new_with_direction (x0 y0 : R) (sz : AsteroidSize) (d : Vector2) (g : Rng) :
  let a := fst (new x0 y0 sz (Some d) g) in
  size a = sz /\
  position (transform a) = mkVector2 x0 y0 /\
  velocity a = math.scale d (speed (SIZE_CONFIG sz)) /\
  radius a = cfg_radius (SIZE_CONFIG sz) /\
  points a = cfg_points (SIZE_CONFIG sz) /\
  isActive a = true.
Proof.
  unfold new, bind, ret.
  destruct (generateAsteroidShape sz g) as [sh g1].
  destruct (math.randomRange (-2) 2 g1) as [spin g2].
  simpl. repeat split; reflexivity.
Qed.

Lemma new_child (parent : Asteroid) (sz : AsteroidSize) (angle : R) (g : Rng) :
  is_child_of parent sz
    (fst (new (x (position (transform parent))) (y (position (transform parent)))
              sz (Some (mkVector2 (cos angle) (sin angle))) g)).
Proof.
  destruct (new_with_direction (x (position (transform parent)))
              (y (position (transform parent))) sz
              (mkVector2 (cos angle) (sin angle)) g) as (H1 & H2 & H3 & _).
  unfold is_child_of. rewrite H1, H2, H3. repeat split.
  - destruct (position (transform parent)); reflexivity.
  - apply magnitude_unit_scaled, speed_nonneg.
Qed.

(** [split] on an asteroid that is not small: two calls of the
    constructor at the parent's position, with the next smaller size and
    a unit direction each. *)
Lemma split_unfold (a : Asteroid) (g : Rng) :
  size a <> small ->
  exists (angle1 angle2 : R) (g2 g3 : Rng),
    let nextSize := match size a with large => medium | _ => small end in
    let x0 := x (position (transform a)) in
    let y0 := y (position (transform a)) in
    fst (split a g) =
      [ fst (new x0 y0 nextSize (Some (mkVector2 (cos angle1) (sin angle1))) g2);
        fst (new x0 y0 nextSize (Some (mkVector2 (cos angle2) (sin angle2))) g3) ].
Proof.
  intros Hsz. unfold split.
  destruct (size a) eqn:E; [| | contradiction];
    rewrite !bind_proj; unfold ret; cbn [fst];
    do 4 eexists; reflexivity.
Qed.

(** C5.  For every asteroid: [split] on a small asteroid returns the
    empty list; on a large asteroid it returns exactly two medium
    asteroids and on a medium asteroid exactly two small ones, each child
    at the parent's position and each child's velocity magnitude equal to
    the configured speed of the child's size. *)
Theorem split_spec (a : Asteroid) (g : Rng) :
  let children := fst (split a g) in
  match size a with
  | small => children = []
  | large =>
      exists c1 c2, children = [c1; c2] /\
                    is_child_of a medium c1 /\ is_child_of a medium c2
  | medium =>
      exists c1 c2, children = [c1; c2] /\
                    is_child_of a small c1 /\ is_child_of a small c2
  end.
Proof.
  cbv zeta. destruct (size a) eqn:Hsz.
  - destruct (split_unfold a g) as (angle1 & angle2 & g2 & g3 & E); [congruence |].
    rewrite Hsz in E. cbv zeta in E. rewrite E.
    do 2 eexists. split; [reflexivity |]. split; apply new_child.
  - destruct (split_unfold a g) as (angle1 & angle2 & g2 & g3 & E); [congruence |].
    rewrite Hsz in E. cbv zeta in E. rewrite E.
    do 2 eexists. split; [reflexivity |]. split; apply new_child.
  - unfold split. rewrite Hsz. reflexivity.
Qed.

End AsteroidSplit.

(* ================================================================== *)
(** ** UFO: the shoot timer *)

Section UFOShooting.

Import ufo.

Lemma Rmax_floor_level_1 : Rmax (3 / 10) (1 - (IZR 1 - 1) * (1 / 10)) = 1.
Proof. unfold Rmax. destruct (Rle_dec _ _); lra. Qed.

(** What the constructor stores, as far as shooting is concerned. *)
Lemma new_shooting_fields (w h : R) (sz : UFOSize) (lvl : option Z) (g : Rng) :
  let u := fst (new w h (Some sz) lvl g) in
  let level := match lvl with Some l => l | None => 1%Z end in
  size u = sz /\
  shootCooldown u = levelScaledCooldown sz level /\
  shootTimer u = 5 / 10 + tape g (cursor g) * (shootCooldown u - 5 / 10).
Proof.
  unfold new, bind, ret, math.randomRange, Math_random, levelScaledCooldown.
  simpl. repeat split; reflexivity.
Qed.

(** The spawner never passes the level on: whatever the level, the UFO
    it makes has the base cooldown of its size. *)
Lemma createUFO_shootCooldown (w h : R) (level : Z) (g : Rng) :
  let u := fst (spawner.createUFO w h level g) in
  shootCooldown u = CONFIG.ufo.shootCooldown (config_of (size u)).
Proof.
  unfold spawner.createUFO, bind.
  destruct (Math_random g) as [r g1].
  destruct (new_shooting_fields w h
              (if r <? Rmin (CONFIG.ufo.smallChanceBase
                             + IZR level * CONFIG.ufo.smallChancePerLevel)
                            CONFIG.ufo.smallChanceMax
               then small else large) None g1) as (H1 & H2 & _).
  cbv zeta. rewrite H2, H1. unfold levelScaledCooldown.
  rewrite Rmax_floor_level_1. ring.
Qed.

(** Had the level been passed on, the constructor would have scaled the
    cooldown with it. *)
Lemma new_with_level_shootCooldown (w h : R) (sz : UFOSize) (level : Z) (g : Rng) :
  shootCooldown (fst (new w h (Some sz) (Some level) g)) = levelScaledCooldown sz level.
Proof. apply (new_shooting_fields w h sz (Some level) g). Qed.

(** [update] counts the shoot timer down and leaves the cooldown alone. *)
Lemma update_shooting_fields (dt : R) (u : UFO) (g : Rng) :
  let u' := fst (update dt u g) in
  size u' = size u /\
  shootCooldown u' = shootCooldown u /\
  shootTimer u' = (if shootTimer u >? 0 then shootTimer u - dt else shootTimer u).
Proof.
  unfold update, bind, ret. simpl.
  destruct (directionChangeTimer u - dt <=? 0); simpl;
    destruct (shootTimer u >? 0); simpl; repeat split; reflexivity.
Qed.

Lemma tryShoot_ready (px py : R) (u : UFO) (g : Rng) :
  shootTimer u <= 0 ->
  exists angle g',
    tryShoot px py u g = (Some angle, setShootTimer (shootCooldown u) u, g').
Proof.
  intros H. unfold tryShoot, Rgtb. rewrite (Rltb_false _ _ H).
  unfold bind, ret, math.randomRange, Math_random. simpl.
  eexists; eexists; reflexivity.
Qed.

Lemma tryShoot_not_ready (px py : R) (u : UFO) (g : Rng) :
  0 < shootTimer u -> tryShoot px py u g = (None, u, g).
Proof.
  intros H. unfold tryShoot, Rgtb. rewrite (Rltb_true _ _ H). reflexivity.
Qed.

(** What [tryShoot] does for any UFO with a positive cooldown whose timer
    has run out: it fires, resets the timer to the UFO's own cooldown, and
    a second call right away does not fire. *)
Lemma tryShoot_fires_once (px py : R) (u : UFO) (g : Rng) :
  shootTimer u <= 0 -> 0 < shootCooldown u ->
  exists angle u' g',
    tryShoot px py u g = (Some angle, u', g') /\
    shootTimer u' = shootCooldown u /\
    tryShoot px py u' g' = (None, u', g').
Proof.
  intros Ht Hc. destruct (tryShoot_ready px py u g Ht) as (angle & g' & E).
  exists angle, (setShootTimer (shootCooldown u) u), g'.
  split; [exact E | split; [reflexivity |]].
  apply tryShoot_not_ready. simpl. assumption.
Qed.

(** C7, evaluated at level 5.  With a random source that always answers
    0, [createUFO] at level 5 makes a small UFO whose shoot timer starts
    at 1/2; after one [update] of 1/2 s the timer is 0, [tryShoot] fires
    and resets the timer to 1, the base cooldown of the small UFO, where
    the level-scaled cooldown at level 5 is 6/10; the second call right
    away does not fire. *)
Theorem createUFO_level_5_cooldown :
  let g0 := mkRng (fun _ => 0) 0 in
  let '(u, g1) := spawner.createUFO 800 600 5 g0 in
  let '(u1, g2) := update (1 / 2) u g1 in
  let '(shot, u2, g3) := tryShoot 400 300 u1 g2 in
  let '(shot', _, _) := tryShoot 400 300 u2 g3 in
  size u = small /\
  shootTimer u1 <= 0 /\
  shot <> None /\
  shootTimer u2 = 1 /\
  levelScaledCooldown (size u) 5 = 6 / 10 /\
  shot' = None.
Proof.
  cbv zeta.
  assert (E0 : spawner.createUFO 800 600 5 (mkRng (fun _ => 0) 0)
               = new 800 600 (Some small) None (mkRng (fun _ => 0) 1)).
  { unfold spawner.createUFO, bind, Math_random; simpl.
    rewrite Rltb_true; [reflexivity |].
    unfold CONFIG.ufo.smallChanceBase, CONFIG.ufo.smallChancePerLevel,
      CONFIG.ufo.smallChanceMax, Rmin.
    destruct (Rle_dec _ _); lra. }
  rewrite E0.
  destruct (new_shooting_fields 800 600 small None (mkRng (fun _ => 0) 1))
    as (H1 & H2 & H3).
  destruct (new 800 600 (Some small) None (mkRng (fun _ => 0) 1)) as [u g1].
  simpl in H1, H2, H3.
  assert (Hcd : shootCooldown u = 1).
  { rewrite H2. unfold levelScaledCooldown. rewrite Rmax_floor_level_1.
    simpl. lra. }
  assert (Htm : shootTimer u = 5 / 10) by (rewrite H3, Hcd; lra).
  destruct (update_shooting_fields (1 / 2) u g1) as (U1 & U2 & U3).
  destruct (update (1 / 2) u g1) as [u1 g2]. simpl in U1, U2, U3.
  assert (Htm1 : shootTimer u1 = 0).
  { rewrite U3, Htm. unfold Rgtb. rewrite Rltb_true by lra. lra. }
  destruct (tryShoot_fires_once 400 300 u1 g2) as (angle & u2 & g3 & T1 & T2 & T3);
    [lra | rewrite U2, Hcd; lra |].
  rewrite T1, T3.
  repeat split.
  - assumption.
  - lra.
  - discriminate.
  - rewrite T2, U2. assumption.
  - rewrite H1. unfold levelScaledCooldown, Rmax. simpl.
    destruct (Rle_dec _ _); lra.
Qed.

End UFOShooting.

(* ================================================================== *)
(** ** Spawner: the placement loops *)

Section Placement.

Import spawner.

Lemma wellCandidate_shift (w h : R) (t : nat -> R) (c j : nat) :
  wellCandidate w h (mkRng t (S (S c))) j = wellCandidate w h (mkRng t c) (S j).
Proof.
  unfold wellCandidate; simpl.
  replace (S (S (c + (j + (j + 0))))) with (c + S (j + S (j + 0)))%nat by lia.
  replace (S (S (c + (j + (j + 0)) + 1))) with (c + S (j + S (j + 0)) + 1)%nat by lia.
  reflexivity.
Qed.

(** One round of the gravity-well loop. *)
Lemma placeLoop_step (fuel : nat) (attempts : Z) (w h : R) (avoid : Vector2) (g : Rng) :
  let c := wellCandidate w h g 0 in
  let g2 := mkRng (tape g) (S (S (cursor g))) in
  placeLoop (S fuel) attempts w h avoid g =
    if (attempts + 1 <? maxAttempts)%Z && tooClose avoid c
    then placeLoop fuel (attempts + 1) w h avoid g2
    else Ok (x c, y c, (attempts + 1)%Z, g2).
Proof.
  unfold wellCandidate, tooClose. simpl.
  rewrite !Nat.add_0_r, Nat.add_1_r.
  reflexivity.
Qed.

(** The gravity-well loop stops after at most [maxAttempts] rounds in
    all.  [k] is the number of rounds made when it stops: the candidates
    before the last were all too close, the last one is returned, and it
    is only allowed to be too close when the bound has been reached. *)
Lemma placeLoop_spec (fuel : nat) : forall (a : nat) (w h : R) (avoid : Vector2) (g : Rng),
  (a < 20)%nat -> (20 - a <= fuel)%nat ->
  exists k : nat,
    (a < k <= 20)%nat /\
    placeLoop fuel (Z.of_nat a) w h avoid g =
      Ok (x (wellCandidate w h g (k - a - 1)), y (wellCandidate w h g (k - a - 1)),
          Z.of_nat k, mkRng (tape g) (cursor g + 2 * (k - a))) /\
    (forall j, (j < k - a - 1)%nat -> tooClose avoid (wellCandidate w h g j) = true) /\
    ((k < 20)%nat -> tooClose avoid (wellCandidate w h g (k - a - 1)) = false).
Proof.
  induction fuel as [| fuel IH]; intros a w h avoid g Ha Hf; [lia |].
  rewrite placeLoop_step. destruct g as [t c]. cbn [tape cursor].
  replace (Z.of_nat a + 1)%Z with (Z.of_nat (S a)) by lia.
  destruct ((Z.of_nat (S a) <? maxAttempts)%Z
            && tooClose avoid (wellCandidate w h (mkRng t c) 0)) eqn:Hcond.
  - apply andb_true_iff in Hcond as [Hlt Hclose].
    apply Z.ltb_lt in Hlt. unfold maxAttempts in Hlt.
    destruct (IH (S a) w h avoid (mkRng t (S (S c))))
      as (k & Hk & Hres & Hbefore & Hlast); [lia | lia |].
    exists k. split; [lia |].
    cbn [tape cursor] in Hres.
    rewrite wellCandidate_shift in Hres, Hlast.
    replace (S (k - S a - 1)) with (k - a - 1)%nat in Hres, Hlast by lia.
    split; [| split].
    + rewrite Hres. do 3 f_equal. lia.
    + intros [| j] Hj; [assumption |].
      rewrite <- wellCandidate_shift. apply Hbefore. lia.
    + assumption.
  - exists (S a). split; [lia |].
    replace (S a - a - 1)%nat with 0%nat by lia.
    split; [| split].
    + do 3 f_equal. lia.
    + intros j Hj; lia.
    + intros Hk. apply andb_false_iff in Hcond as [Hlt | Hclose]; [| assumption].
      apply Z.ltb_ge in Hlt. unfold maxAttempts in Hlt. lia.
Qed.

(** [createGravityWell] returns for every input once it is given fuel for
    [maxAttempts] rounds, after [k <= 20] rounds, with the well at the
    last candidate sampled. *)
Lemma createGravityWell_returns (w h : R) (avoid : Vector2) (level : Z) (g : Rng) :
  exists (k : nat) (well : gravityWell.GravityWell) (g' : Rng),
    (1 <= k <= 20)%nat /\
    createGravityWell 20 w h avoid level g = Ok (well, g') /\
    position (transform well) = wellCandidate w h g (k - 1) /\
    tape g' = tape g /\ cursor g' = (cursor g + 2 * k + 1)%nat /\
    (forall j, (j < k - 1)%nat -> tooClose avoid (wellCandidate w h g j) = true) /\
    ((k < 20)%nat -> tooClose avoid (wellCandidate w h g (k - 1)) = false).
Proof.
  destruct (placeLoop_spec 20 0 w h avoid g) as (k & Hk & Hres & Hbefore & Hlast);
    [lia | lia |].
  replace (k - 0 - 1)%nat with (k - 1)%nat in * by lia.
  replace (k - 0)%nat with k in Hres by lia.
  exists k.
  set (c := wellCandidate w h g (k - 1)) in *. clearbody c.
  unfold createGravityWell. change (Z.of_nat 0) with 0%Z in Hres. rewrite Hres.
  unfold math.randomRange, bind, ret, Math_random. simpl tape. simpl cursor.
  cbv iota beta.
  eexists _, _. split; [lia |]. split; [reflexivity |].
  split; [| split; [| split; [| split]]].
  - simpl. destruct c; reflexivity.
  - reflexivity.
  - simpl. lia.
  - assumption.
  - assumption.
Qed.

(** When the bound is exhausted - all twenty candidates are too close -
    the well is placed at the twentieth candidate all the same. *)
Lemma createGravityWell_fallback (w h : R) (avoid : Vector2) (level : Z) (g : Rng) :
  (forall j, (j < 20)%nat -> tooClose avoid (wellCandidate w h g j) = true) ->
  exists (well : gravityWell.GravityWell) (g' : Rng),
    createGravityWell 20 w h avoid level g = Ok (well, g') /\
    position (transform well) = wellCandidate w h g 19.
Proof.
  intros Hall.
  destruct (createGravityWell_returns w h avoid level g)
    as (k & well & g' & Hk & Hres & Hpos & _ & _ & _ & Hlast).
  exists well, g'. split; [assumption |].
  destruct (Nat.eq_dec k 20) as [-> | Hne]; [assumption |].
  assert (Hc : tooClose avoid (wellCandidate w h g (k - 1)) = false) by (apply Hlast; lia).
  rewrite Hall in Hc by lia. discriminate.
Qed.

(** The asteroid loop has no such bound.  On a 100 x 100 field with the
    avoid-position at its centre every position of the field lies in the
    exclusion zone of radius 100, so the loop never exits. *)
Lemma samplePosition_small_field (fuel : nat) : forall g : Rng,
  wf_tape (tape g) ->
  samplePosition fuel 100 100 (mkVector2 50 50) 100 g = Fail OutOfFuel.
Proof.
  induction fuel as [| fuel IH]; intros g Hwf; [reflexivity |].
  simpl.
  pose proof (Hwf (cursor g)) as H1. pose proof (Hwf (S (cursor g))) as H2.
  rewrite !Rltb_true by (apply Rabs_def1; lra).
  simpl. apply IH. assumption.
Qed.

(** Nor does it exit on the 800 x 600 field of the game, with the ship
    at the centre, when the random source keeps answering 1/2. *)
Lemma samplePosition_centre (fuel : nat) : forall c : nat,
  samplePosition fuel 800 600 (mkVector2 400 300) 100 (mkRng (fun _ => 1 / 2) c)
  = Fail OutOfFuel.
Proof.
  induction fuel as [| fuel IH]; intros c; [reflexivity |].
  simpl. rewrite !Rltb_true by (apply Rabs_def1; lra).
  simpl. apply IH.
Qed.

(** C9.  The gravity-well placement makes at most [maxAttempts] = 20
    attempts, returns for every input, and when the bound is exhausted
    falls back to the last candidate sampled.  The asteroid placement has
    no bound: [createAsteroids] for one asteroid on a 100 x 100 field
    around its centre does not return whatever the random source answers
    and however much fuel it is given, and neither does it on the
    800 x 600 field around the centre when the source keeps answering
    1/2. *)
Theorem placement_attempts (w h : R) (avoid : Vector2) (level : Z) (g : Rng) :
  (exists (k : nat) (well : gravityWell.GravityWell) (g' : Rng),
     (1 <= k <= 20)%nat /\
     createGravityWell 20 w h avoid level g = Ok (well, g') /\
     position (transform well) = wellCandidate w h g (k - 1) /\
     ((k < 20)%nat -> tooClose avoid (wellCandidate w h g (k - 1)) = false)) /\
  ((forall j, (j < 20)%nat -> tooClose avoid (wellCandidate w h g j) = true) ->
   exists (well : gravityWell.GravityWell) (g' : Rng),
     createGravityWell 20 w h avoid level g = Ok (well, g') /\
     position (transform well) = wellCandidate w h g 19) /\
  (wf_tape (tape g) ->
   forall fuel : nat,
     createAsteroids fuel 1 100 100 (mkVector2 50 50) None g = Fail OutOfFuel) /\
  (forall fuel : nat,
     createAsteroids fuel 1 800 600 (mkVector2 400 300) None (mkRng (fun _ => 1 / 2) 0)
     = Fail OutOfFuel).
Proof.
  split; [| split; [| split]].
  - destruct (createGravityWell_returns w h avoid level g)
      as (k & well & g' & Hk & Hres & Hpos & _ & _ & _ & Hlast).
    exists k, well, g'. auto.
  - apply createGravityWell_fallback.
  - intros Hwf fuel. unfold createAsteroids. simpl.
    rewrite samplePosition_small_field by assumption. reflexivity.
  - intros fuel. unfold createAsteroids. simpl.
    rewrite samplePosition_centre. reflexivity.
Qed.

Lemma placement_attempts_witness :
  let g := mkRng (fun _ => 1 / 2) 0 in
  (exists (well : gravityWell.GravityWell) (g' : Rng),
     createGravityWell 20 800 600 (mkVector2 400 300) 1 g = Ok (well, g') /\
     position (transform well) = wellCandidate 800 600 g 19) /\
  (forall fuel : nat,
     createAsteroids fuel 1 100 100 (mkVector2 50 50) None g = Fail OutOfFuel).
Proof.
  split.
  - apply (placement_attempts 800 600 (mkVector2 400 300) 1 (mkRng (fun _ => 1 / 2) 0)).
    intros j _. unfold tooClose, wellCandidate, hypot; simpl.
    unfold CONFIG.gravityWell.spawnMargin, CONFIG.gravityWell.spawnMinDistanceFromShip.
    replace (100 + 1 / 2 * (800 - 100 - 100) - 400) with 0 by lra.
    replace (100 + 1 / 2 * (600 - 100 - 100) - 300) with 0 by lra.
    replace (0 * 0 + 0 * 0) with 0 by lra.
    rewrite sqrt_0. apply Rltb_true. lra.
  - apply (placement_attempts 800 600 (mkVector2 400 300) 1 (mkRng (fun _ => 1 / 2) 0)).
    intros n; simpl; lra.
Defined.

End Placement.

(* ================================================================== *)
(** ** The random tape is only ever read *)

Section TapeIsReadOnly.

Lemma randomRange_tape (lo hi : R) (g : Rng) :
  tape (snd (math.randomRange lo hi g)) = tape g.
Proof. reflexivity. Qed.

Lemma randomInt_tape (lo hi : R) (g : Rng) :
  tape (snd (math.randomInt lo hi g)) = tape g.
Proof. reflexivity. Qed.

Lemma shapeLoop_tape (todo : nat) : forall i n cfg sh g,
  tape (snd (asteroid.shapeLoop todo i n cfg sh g)) = tape g.
Proof.
  induction todo as [| todo IH]; intros i n cfg sh g; [reflexivity |].
  simpl. unfold bind at 1.
  destruct (math.randomRange (7 / 10) 1 g) as [f g1] eqn:E.
  rewrite IH. change g1 with (snd (f, g1)). rewrite <- E. apply randomRange_tape.
Qed.

Lemma generateAsteroidShape_tape (sz : AsteroidSize) (g : Rng) :
  tape (snd (asteroid.generateAsteroidShape sz g)) = tape g.
Proof.
  unfold asteroid.generateAsteroidShape, bind.
  destruct (math.randomInt _ _ g) as [n g1] eqn:E.
  rewrite shapeLoop_tape. change g1 with (snd (n, g1)). rewrite <- E.
  apply randomInt_tape.
Qed.

(** A freshly constructed asteroid that was given no direction. *)
Lemma new_without_direction (x0 y0 : R) (sz : AsteroidSize) (g : Rng) :
  let (a, g') := asteroid.new x0 y0 sz None g in
  asteroid.size a = sz /\
  position (transform a) = mkVector2 x0 y0 /\
  asteroid.consistent a /\
  isActive a = true /\
  tape g' = tape g.
Proof.
  unfold asteroid.new, bind, ret.
  pose proof (generateAsteroidShape_tape sz g) as T.
  destruct (asteroid.generateAsteroidShape sz g) as [sh g1].
  simpl in *. repeat split; trivial.
Qed.

End TapeIsReadOnly.

(* ================================================================== *)
(** ** Spawner: a wave of asteroids *)

Section AsteroidWave.

Import spawner.

Variables (w h : R) (avoid : Vector2) (r : R).

Lemma samplePosition_step (fuel : nat) (g : Rng) :
  samplePosition (S fuel) w h avoid r g =
    let x0 := 0 + tape g (cursor g) * (w - 0) in
    let y0 := 0 + tape g (S (cursor g)) * (h - 0) in
    let g2 := mkRng (tape g) (S (S (cursor g))) in
    if (Rabs (x0 - x avoid) <? r) && (Rabs (y0 - y avoid) <? r)
    then samplePosition fuel w h avoid r g2
    else Ok (x0, y0, g2).
Proof. reflexivity. Qed.

Lemma zone_test (t : nat -> R) (n : nat) :
  (Rabs (0 + t n * (w - 0) - x avoid) <? r)
  && (Rabs (0 + t (S n) * (h - 0) - y avoid) <? r) = true
  <-> inZone w h avoid r t n.
Proof. unfold inZone. rewrite andb_true_iff, !Rltb_iff. reflexivity. Qed.

(** If the [k]-th pair from the cursor on lies outside the zone, the
    sampling loop returns within [k + 1] rounds. *)
Lemma samplePosition_returns (k : nat) : forall g : Rng,
  ~ inZone w h avoid r (tape g) (cursor g + 2 * k) ->
  exists (x0 y0 : R) (c' : nat),
    forall fuel, (k + 1 <= fuel)%nat ->
      samplePosition fuel w h avoid r g = Ok (x0, y0, mkRng (tape g) c').
Proof.
  induction k as [| k IH]; intros [t c] Hout; cbn [tape cursor] in *.
  - rewrite Nat.add_0_r in Hout.
    exists (0 + t c * (w - 0)), (0 + t (S c) * (h - 0)), (S (S c)).
    intros [| fuel] Hf; [lia |].
    rewrite samplePosition_step. cbn [tape cursor]. cbv zeta.
    destruct (_ && _) eqn:E; [| reflexivity].
    apply zone_test in E. contradiction.
  - destruct ((Rabs (0 + t c * (w - 0) - x avoid) <? r)
              && (Rabs (0 + t (S c) * (h - 0) - y avoid) <? r)) eqn:E.
    + destruct (IH (mkRng t (S (S c)))) as (x0 & y0 & c' & Hret).
      { cbn [tape cursor]. replace (S (S c) + 2 * k)%nat with (c + 2 * S k)%nat by lia.
        assumption. }
      exists x0, y0, c'. intros [| fuel] Hf; [lia |].
      rewrite samplePosition_step. cbn [tape cursor]. cbv zeta. rewrite E.
      apply Hret. lia.
    + exists (0 + t c * (w - 0)), (0 + t (S c) * (h - 0)), (S (S c)).
      intros [| fuel] Hf; [lia |].
      rewrite samplePosition_step. cbn [tape cursor]. cbv zeta. rewrite E.
      reflexivity.
Qed.

(** With a random source that keeps leaving the zone, the [for] loop
    makes all the asteroids it was asked for, each of them large, active
    and worth the points of a large asteroid. *)
Lemma asteroidsLoop_returns (t : nat -> R) (todo : nat) :
  eventuallyOutside w h avoid r t ->
  forall (acc : list asteroid.Asteroid) (g : Rng), tape g = t ->
  exists (fuel0 : nat) (wave : list asteroid.Asteroid) (g' : Rng),
    (forall fuel, (fuel0 <= fuel)%nat ->
       asteroidsLoop fuel todo w h avoid r acc g = Ok (acc ++ wave, g')) /\
    List.length wave = todo /\
    Forall game.liveLarge wave /\
    tape g' = t.
Proof.
  intros Hfair. induction todo as [| todo IH]; intros acc g Ht.
  - exists 0%nat, [], g. rewrite app_nil_r. repeat split; auto.
  - destruct (Hfair (cursor g)) as (k & Hk). rewrite <- Ht in Hk.
    destruct (samplePosition_returns k g Hk) as (x0 & y0 & c' & Hret).
    pose proof (new_without_direction x0 y0 large (mkRng (tape g) c')) as Hnew.
    destruct (asteroid.new x0 y0 large None (mkRng (tape g) c')) as [a g2] eqn:Enew.
    destruct Hnew as (N1 & N2 & N3 & N4 & N5). cbn [tape] in N5.
    destruct (IH (acc ++ [a]) g2) as (fuel0 & wave & g' & Hloop & Hlen & Hall & Ht');
      [congruence |].
    exists (Nat.max (k + 1) fuel0), (a :: wave), g'.
    split; [| split; [| split]].
    + intros fuel Hf. simpl. rewrite Hret by lia. rewrite Enew.
      rewrite Hloop by lia. rewrite <- app_assoc. reflexivity.
    + simpl. congruence.
    + constructor; [| assumption]. repeat split; assumption.
    + assumption.
Qed.

End AsteroidWave.

(* ================================================================== *)
(** ** Session: losing lives *)

Section ShipDestroyed.

Import io game.

Lemma isHighScore_returns (dc sc : Z) (m : HighScoreManager) :
  (0 < dc)%Z -> exists b, isHighScore dc sc m = Ok b.
Proof.
  intros Hdc. unfold isHighScore.
  destruct (Z.ltb_spec (Z.of_nat (List.length (scores m))) dc) as [Hlt | Hge];
    [eexists; reflexivity |].
  destruct (nth_error (scores m) (List.length (scores m) - 1)) as [lowest |] eqn:E;
    [eexists; reflexivity |].
  apply nth_error_None in E. lia.
Qed.

(** One destruction of the ship, whatever the state of the game. *)
Lemma shipDestroyed_spec (st : Settings) (g : Game) :
  (0 < displayCount st)%Z ->
  exists g',
    shipDestroyed st g = Ok g' /\
    lives (data g') = (lives (data g) - 1)%Z /\
    isActive (ship g') = false /\
    score (data g') = score (data g) /\
    level (data g') = level (data g) /\
    ((lives (data g) - 1 <= 0)%Z ->
       (state (data g') = gameOver \/ state (data g') = submitScore) /\
       ufo g' = None /\ gravityWell g' = None) /\
    ((0 < lives (data g) - 1)%Z ->
       state (data g') = state (data g) /\
       ufo g' = ufo g /\ gravityWell g' = gravityWell g /\
       respawnTimer g' = CONFIG.timing.respawnDelay).
Proof.
  intros Hdc. unfold shipDestroyed.
  destruct (spawner.createDebris _ _ _ None (rng g)) as [d r]. simpl.
  destruct (Z.leb_spec (lives (data g) - 1) 0) as [Hle | Hgt].
  - destruct (isHighScore_returns (displayCount st) (score (data g)) (highScoreManager g) Hdc)
      as (high & ->).
    destruct high; simpl;
      destruct (ufo g) eqn:Eu; simpl;
      destruct (gravityWell g) eqn:Ew; simpl;
      (eexists; split; [reflexivity |]); simpl;
      repeat split; auto; intros; try lia; repeat split; auto.
  - eexists. split; [reflexivity |]. simpl.
    repeat split; auto; intros; try lia; repeat split; auto.
Qed.

Lemma shipDestroyed_ignores_flag (flag flag' : bool) (dc : Z) (g : Game) :
  shipDestroyed (mkSettings flag dc) g = shipDestroyed (mkSettings flag' dc) g.
Proof. reflexivity. Qed.

(** C2.  In the playing state, when the ship is destroyed and [lives]
    reaches exactly 0, the session state leaves [playing] and right
    afterwards no UFO and no gravity well is active (both slots are
    null); starting from [lives = 3], three destructions in sequence
    produce the lives 2, 1, 0, and only the third leaves [playing].
    ([displayCount], the size of the leaderboard, is positive.) *)
Theorem ship_destroyed_last_life (st : Settings) (g : Game) :
  (0 < displayCount st)%Z ->
  state (data g) = playing ->
  (lives (data g) = 1%Z ->
     exists g',
       shipDestroyed st g = Ok g' /\
       lives (data g') = 0%Z /\
       state (data g') <> playing /\
       ufo g' = None /\ gravityWell g' = None) /\
  (lives (data g) = 3%Z ->
     exists g1 g2 g3,
       shipDestroyed st g = Ok g1 /\
       shipDestroyed st g1 = Ok g2 /\
       shipDestroyed st g2 = Ok g3 /\
       lives (data g1) = 2%Z /\ state (data g1) = playing /\
       lives (data g2) = 1%Z /\ state (data g2) = playing /\
       lives (data g3) = 0%Z /\ state (data g3) <> playing /\
       ufo g3 = None /\ gravityWell g3 = None).
Proof.
  intros Hdc Hst. split.
  - intros Hl.
    destruct (shipDestroyed_spec st g Hdc) as (g' & E & L & _ & _ & _ & Hzero & _).
    exists g'. rewrite Hl in *.
    destruct Hzero as ([S | S] & U & W); [lia | |];
      repeat split; trivial; rewrite S; discriminate.
  - intros Hl.
    destruct (shipDestroyed_spec st g Hdc) as (g1 & E1 & L1 & _ & _ & _ & _ & P1).
    rewrite Hl in *. destruct P1 as (S1 & _); [lia |].
    destruct (shipDestroyed_spec st g1 Hdc) as (g2 & E2 & L2 & _ & _ & _ & _ & P2).
    rewrite L1 in *. destruct P2 as (S2 & _); [lia |].
    destruct (shipDestroyed_spec st g2 Hdc) as (g3 & E3 & L3 & _ & _ & _ & Z3 & _).
    rewrite L2 in *. destruct Z3 as (S3 & U3 & W3); [lia |].
    exists g1, g2, g3.
    repeat split; trivial; try congruence; try lia.
    destruct S3 as [S3 | S3]; rewrite S3; discriminate.
Qed.

Lemma ship_destroyed_last_life_witness :
  let st := shipped 10 in
  let r := mkRng (fun _ => 0) 0 in
  let u := fst (spawner.createUFO renderer_width renderer_height 1 r) in
  let w := gravityWell.new 200 200 None None in
  let g := set_gravityWell (Some w)
             (set_ufo (Some u)
                (set_data (mkGameData 0 3 1 playing None None) (new r))) in
  exists g1 g2 g3,
    shipDestroyed st g = Ok g1 /\
    shipDestroyed st g1 = Ok g2 /\
    shipDestroyed st g2 = Ok g3 /\
    lives (data g1) = 2%Z /\ state (data g1) = playing /\
    lives (data g2) = 1%Z /\ state (data g2) = playing /\
    lives (data g3) = 0%Z /\ state (data g3) <> playing /\
    ufo g3 = None /\ gravityWell g3 = None.
Proof.
  cbv zeta.
  apply (ship_destroyed_last_life (shipped 10)); reflexivity.
Defined.

End ShipDestroyed.

(* ================================================================== *)
(** ** Session: what can destroy the ship *)

Section ShipCollision.

Import io game.

Lemma distance_self (p : Vector2) : math.distance p p = 0.
Proof.
  unfold math.distance; simpl.
  replace ((x p - x p) * (x p - x p) + (y p - y p) * (y p - y p)) with 0 by ring.
  apply sqrt_0.
Qed.




(** With the switch off, contact with an asteroid does destroy a ship
    that is active, vulnerable and not in hyperspace. *)
Lemma checkShipCollision_enabled (dc : Z) (g : Game) :
  isActive (ship g) = true ->
  ship.isInvulnerable (ship g) = false ->
  ship.isInHyperspace (ship g) = false ->
  shipHitsAsteroid (ship g) (asteroids g) = true ->
  checkShipCollision (mkSettings false dc) g = shipDestroyed (mkSettings false dc) g.
Proof.
  intros Ha Hi Hh Hhit. unfold checkShipCollision. simpl.
  rewrite Ha, Hi, Hh, Hhit. reflexivity.
Qed.



End ShipCollision.

(* ================================================================== *)
(** ** Session: scoring and the next wave *)

Section Scoring.

Import io game.

Lemma consistent_pointsOf (a : asteroid.Asteroid) :
  asteroid.consistent a -> asteroid.points a = pointsOf (asteroid.size a).
Proof. intros H; exact H. Qed.

Local Opaque pointsOf.

Lemma checkCollision_active (a b : Entity) :
  collision.checkCollision a b = true -> isActive a = true /\ isActive b = true.
Proof.
  unfold collision.checkCollision.
  destruct (isActive a), (isActive b); simpl; intros H; try discriminate; auto.
Qed.

Lemma activeOfSize_cons (sz : AsteroidSize) (a : asteroid.Asteroid)
      (rest : list asteroid.Asteroid) :
  activeOfSize sz (a :: rest) =
    ((if isActive a && asteroid.AsteroidSize_eqb (asteroid.size a) sz then 1 else 0)
     + activeOfSize sz rest)%Z.
Proof.
  unfold activeOfSize; simpl.
  destruct (isActive a && _); simpl List.length; lia.
Qed.

Lemma activeOfSize_nonneg (sz : AsteroidSize) (l : list asteroid.Asteroid) :
  (0 <= activeOfSize sz l)%Z.
Proof. unfold activeOfSize. lia. Qed.

Lemma countSize_app (sz : AsteroidSize) (l1 l2 : list asteroid.Asteroid) :
  countSize sz (l1 ++ l2) = (countSize sz l1 + countSize sz l2)%Z.
Proof. unfold countSize. rewrite filter_app, length_app. lia. Qed.

Lemma countSize_filter_active (sz : AsteroidSize) (l : list asteroid.Asteroid) :
  countSize sz (filter (fun a : asteroid.Asteroid => isActive a) l) = activeOfSize sz l.
Proof.
  unfold countSize, activeOfSize. induction l as [| a l IH]; [reflexivity |].
  simpl. destruct (isActive a); simpl.
  - destruct (asteroid.AsteroidSize_eqb _ _); simpl List.length; lia.
  - exact IH.
Qed.

Lemma activeOfSize_live (sz : AsteroidSize) (l : list asteroid.Asteroid) :
  Forall liveAsteroid l -> activeOfSize sz l = countSize sz l.
Proof.
  intros H. unfold countSize, activeOfSize.
  induction H as [| a l [_ Ha] _ IH]; [reflexivity |].
  simpl. rewrite Ha. simpl.
  destruct (asteroid.AsteroidSize_eqb _ _); simpl List.length; lia.
Qed.

Lemma countSize_all_large (l : list asteroid.Asteroid) :
  Forall liveLarge l ->
  countSize large l = Z.of_nat (List.length l) /\
  countSize medium l = 0%Z /\ countSize small l = 0%Z.
Proof.
  intros H. unfold countSize.
  induction H as [| a l [_ Ha] _ (I1 & I2 & I3)]; [auto |].
  simpl. rewrite Ha. simpl. simpl List.length. repeat split; lia.
Qed.

(** The children of a destroyed asteroid: none of them large, two medium
    ones for a large parent, two small ones for a medium parent, every
    one of them live. *)
Lemma split_children (a : asteroid.Asteroid) (r : Rng) :
  let ch := fst (asteroid.split a r) in
  Forall liveAsteroid ch /\
  countSize large ch = 0%Z /\
  countSize medium ch = (match asteroid.size a with large => 2 | _ => 0 end)%Z /\
  countSize small ch = (match asteroid.size a with medium => 2 | _ => 0 end)%Z.
Proof.
  cbv zeta.
  assert (Hnew : forall x0 y0 sz d g,
             liveAsteroid (fst (asteroid.new x0 y0 sz (Some d) g)) /\
             asteroid.size (fst (asteroid.new x0 y0 sz (Some d) g)) = sz).
  { intros x0 y0 sz d g.
    destruct (new_with_direction x0 y0 sz d g) as (H1 & _ & _ & _ & H5 & H6).
    unfold liveAsteroid, asteroid.consistent. rewrite H5, H1. auto. }
  destruct (asteroid.size a) eqn:Hsz.
  - destruct (split_unfold a r) as (a1 & a2 & g2 & g3 & E); [congruence |].
    rewrite Hsz in E. cbv zeta in E. rewrite E.
    unfold countSize. simpl.
    rewrite !(proj2 (Hnew _ _ _ _ _)). simpl.
    repeat split; try reflexivity. repeat constructor; apply Hnew.
  - destruct (split_unfold a r) as (a1 & a2 & g2 & g3 & E); [congruence |].
    rewrite Hsz in E. cbv zeta in E. rewrite E.
    unfold countSize. simpl.
    rewrite !(proj2 (Hnew _ _ _ _ _)). simpl.
    repeat split; try reflexivity. repeat constructor; apply Hnew.
  - unfold asteroid.split. rewrite Hsz. simpl. repeat split; constructor.
Qed.

Lemma accounted_refl (asts : list asteroid.Asteroid) (p : Pass) :
  Forall asteroid.consistent asts -> accounted asts asts p p.
Proof.
  intros H. split; [assumption |]. split; [intros; lia |]. split; [lia |].
  exists []. rewrite app_nil_r.
  repeat split; auto; unfold countSize; simpl List.length; lia.
Qed.

Lemma accounted_trans (l1 l2 l3 : list asteroid.Asteroid) (p1 p2 p3 : Pass) :
  accounted l1 l2 p1 p2 -> accounted l2 l3 p2 p3 -> accounted l1 l3 p1 p3.
Proof.
  intros (_ & M1 & S1 & c1 & N1 & L1 & A1 & B1 & C1)
         (F2 & M2 & S2 & c2 & N2 & L2 & A2 & B2 & C2).
  split; [assumption |]. split; [| split].
  - intros sz. specialize (M1 sz). specialize (M2 sz). lia.
  - rewrite S2, S1. ring.
  - exists (c1 ++ c2). rewrite N2, N1, app_assoc, !countSize_app.
    split; [reflexivity |]. split; [apply Forall_app; auto |].
    rewrite A1, A2, B1, B2, C1, C2. repeat split; ring.
Qed.

Lemma accounted_cons (a : asteroid.Asteroid) (l l' : list asteroid.Asteroid)
      (p p' : Pass) :
  asteroid.consistent a ->
  accounted l l' p p' -> accounted (a :: l) (a :: l') p p'.
Proof.
  intros Ha (F & M & S & ch & N & L & A & B & C).
  split; [constructor; assumption |]. split; [| split].
  - intros sz. rewrite !activeOfSize_cons. specialize (M sz). lia.
  - rewrite S, !activeOfSize_cons. ring.
  - exists ch. rewrite !activeOfSize_cons.
    split; [assumption |]. split; [assumption |]. split; [assumption |].
    rewrite B, C. split; ring.
Qed.

(** One bullet against the asteroids. *)
Lemma bulletVsAsteroids_accounted (b : bullet.Bullet) (asts : list asteroid.Asteroid) :
  forall p : Pass,
  Forall asteroid.consistent asts ->
  let '(_, asts', p') := bulletVsAsteroids b asts p in
  accounted asts asts' p p'.
Proof.
  induction asts as [| a rest IH]; intros p Hall; cbn [bulletVsAsteroids].
  - apply accounted_refl. constructor.
  - inversion Hall as [| ? ? Ha Hrest]; subst.
    destruct (collision.checkCollision b a) eqn:Hhit.
    + apply checkCollision_active in Hhit as [_ Hact].
      set (a' := asteroid.setBase (setActive false a) a).
      pose proof (split_children a' (p_rng p)) as Hch.
      destruct (asteroid.split a' (p_rng p)) as [children r].
      cbv zeta in Hch. cbn [fst] in Hch.
      change (asteroid.size a') with (asteroid.size a) in Hch.
      destruct Hch as (C1 & C2 & C3 & C4).
      split; [constructor; assumption |]. split; [| split].
      * intros sz. rewrite !activeOfSize_cons, Hact.
        change (isActive a') with false. cbn [andb].
        destruct (asteroid.AsteroidSize_eqb _ _); lia.
      * cbn [p_score]. rewrite !activeOfSize_cons, Hact.
        change (isActive a') with false.
        change (asteroid.points a') with (asteroid.points a).
        change (asteroid.size a') with (asteroid.size a).
        rewrite (consistent_pointsOf a Ha).
        destruct (asteroid.size a); cbn [andb asteroid.AsteroidSize_eqb]; ring.
      * exists children. cbn [p_newAsteroids].
        split; [reflexivity |]. split; [assumption |]. split; [assumption |].
        rewrite C3, C4, !activeOfSize_cons, Hact.
        change (isActive a') with false.
        change (asteroid.size a') with (asteroid.size a).
        destruct (asteroid.size a); cbn [andb asteroid.AsteroidSize_eqb]; split; ring.
    + specialize (IH p Hrest).
      destruct (bulletVsAsteroids b rest p) as [[b' rest'] p'].
      apply accounted_cons; assumption.
Qed.

(** All the bullets against the asteroids. *)
Lemma bulletsLoop_accounted (bs : list bullet.Bullet) :
  forall (asts : list asteroid.Asteroid) (p : Pass),
  Forall asteroid.consistent asts ->
  let '(_, asts', p') := bulletsLoop bs asts p in
  accounted asts asts' p p'.
Proof.
  induction bs as [| b bs IH]; intros asts p Hall; cbn [bulletsLoop].
  - apply accounted_refl. assumption.
  - pose proof (bulletVsAsteroids_accounted b asts p Hall) as H1.
    destruct (bulletVsAsteroids b asts p) as [[b' asts1] p1].
    assert (A1 : Forall asteroid.consistent asts1) by apply H1.
    specialize (IH asts1 p1 A1).
    destruct (bulletsLoop bs asts1 p1) as [[bs' asts2] p2].
    eapply accounted_trans; eassumption.
Qed.

(** One pass of [checkBulletCollisions] over a field of live asteroids
    credits exactly the asteroids it destroys, each at the point value of
    its size. *)
Lemma checkBulletCollisions_accounted (g : Game) :
  Forall liveAsteroid (asteroids g) ->
  let g' := checkBulletCollisions g in
  let dL := destroyedLarge (asteroids g) (asteroids g') in
  let dM := destroyedMedium (asteroids g) (asteroids g') in
  let dS := destroyedSmall (asteroids g) (asteroids g') in
  score (data g') =
    (score (data g) + pointsOf large * dL + pointsOf medium * dM
     + pointsOf small * dS)%Z /\
  (0 <= dL <= countSize large (asteroids g))%Z /\
  (0 <= dM <= countSize medium (asteroids g))%Z /\
  (0 <= dS <= countSize small (asteroids g))%Z /\
  Forall liveAsteroid (asteroids g').
Proof.
  intros Hlive.
  assert (Hall : Forall asteroid.consistent (asteroids g))
    by (eapply Forall_impl; [| exact Hlive]; intros a [H _]; exact H).
  pose proof (bulletsLoop_accounted (bullets g) (asteroids g)
                (mkPass (score (data g)) (audio g) [] (rng g)) Hall) as H.
  unfold checkBulletCollisions.
  destruct (bulletsLoop _ _ _) as [[bs asts'] p'].
  destruct H as (F & M & S & ch & N & L & A & B & C). cbn [p_score p_newAsteroids] in S, N.
  rewrite app_nil_l in N.
  cbv zeta.
  cbn [asteroids data score set_asteroids set_rng set_audio set_data set_bullets set_score].
  unfold destroyedSmall, destroyedMedium, destroyedLarge.
  rewrite N, !countSize_app, !countSize_filter_active, A, B, C.
  rewrite <- !(activeOfSize_live _ _ Hlive).
  pose proof (M large). pose proof (M medium). pose proof (M small).
  pose proof (activeOfSize_nonneg large asts').
  pose proof (activeOfSize_nonneg medium asts').
  pose proof (activeOfSize_nonneg small asts').
  split; [rewrite S; ring |].
  split; [lia |]. split; [lia |]. split; [lia |].
  apply Forall_app. split; [| assumption].
  apply Forall_forall. intros a Ha. apply filter_In in Ha as [Ha Hact].
  rewrite Forall_forall in F. split; [apply F; assumption | assumption].
Qed.

(** The flags the bullet loops leave on the asteroids do not depend on
    the score, the cues or the tape. *)
Lemma bulletsLoop_marks_cons (b : bullet.Bullet) (bs : list bullet.Bullet)
      (asts : list asteroid.Asteroid) (p : Pass) :
  snd (fst (bulletsLoop (b :: bs) asts p)) =
  snd (fst (bulletsLoop bs (snd (fst (bulletVsAsteroids b asts p)))
                        (snd (bulletVsAsteroids b asts p)))).
Proof.
  simpl. destruct (bulletVsAsteroids b asts p) as [[b' asts1] p1]. simpl.
  destruct (bulletsLoop bs asts1 p1) as [[bs' asts2] p2]. reflexivity.
Qed.

(** A bullet passes the asteroids already destroyed and hits the first
    one it collides with. *)
Lemma bulletVsAsteroids_marks (b : bullet.Bullet) (dead : list asteroid.Asteroid)
      (a : asteroid.Asteroid) (rest : list asteroid.Asteroid) (p : Pass) :
  Forall (fun d : asteroid.Asteroid => isActive d = false) dead ->
  collision.checkCollision b a = true ->
  snd (fst (bulletVsAsteroids b (dead ++ a :: rest) p))
  = dead ++ asteroid.setBase (setActive false a) a :: rest.
Proof.
  intros Hdead Hhit. induction Hdead as [| d dead Hd _ IH]; simpl.
  - rewrite Hhit. destruct (asteroid.split _ _) as [children r]. reflexivity.
  - assert (Hmiss : collision.checkCollision b d = false).
    { unfold collision.checkCollision. rewrite Hd. simpl.
      rewrite orb_true_r. reflexivity. }
    rewrite Hmiss.
    destruct (bulletVsAsteroids b (dead ++ a :: rest) p) as [[b' rest'] p'].
    simpl in *. rewrite IH. reflexivity.
Qed.

(** The large asteroids left after a pass are the ones still flagged
    active. *)
Lemma countLarge_after_pass (g : Game) :
  Forall asteroid.consistent (asteroids g) ->
  countSize large (asteroids (checkBulletCollisions g)) =
  activeOfSize large
    (snd (fst (bulletsLoop (bullets g) (asteroids g)
                           (mkPass (score (data g)) (audio g) [] (rng g))))).
Proof.
  intros Hall. unfold checkBulletCollisions.
  pose proof (bulletsLoop_accounted (bullets g) (asteroids g)
                (mkPass (score (data g)) (audio g) [] (rng g)) Hall) as H.
  destruct (bulletsLoop _ _ _) as [[bs asts'] p'].
  destruct H as (_ & _ & _ & ch & N & _ & A & _). cbn [p_newAsteroids] in N.
  rewrite app_nil_l in N. cbn [fst snd asteroids set_asteroids].
  rewrite N, countSize_app, countSize_filter_active, A. lia.
Qed.

(** The next level, once the field is empty. *)
Lemma nextLevel_returns (g : Game) :
  eventuallyOutside_ship g ->
  exists (fuel0 : nat) (g2 : Game),
    (forall fuel, (fuel0 <= fuel)%nat -> nextLevel fuel g = Ok g2) /\
    level (data g2) = (level (data g) + 1)%Z /\
    state (data g2) = state (data g) /\
    score (data g2) = score (data g) /\
    lives (data g2) = lives (data g) /\
    exists wave,
      asteroids g2 = asteroids g ++ wave /\
      List.length wave
        = Z.to_nat (CONFIG.asteroid.startingCount + level (data g2) - 1) /\
      Forall liveLarge wave.
Proof.
  intros Hfair. unfold nextLevel, spawnAsteroids, spawner.createAsteroids.
  cbn [rng set_audio set_data ship data level set_level asteroids].
  destruct (asteroidsLoop_returns renderer_width renderer_height
              (position (transform (ship g))) 100 (tape (rng g))
              (Z.to_nat (CONFIG.asteroid.startingCount + (level (data g) + 1) - 1))
              Hfair [] (rng g) eq_refl)
    as (fuel0 & wave & r' & Hloop & Hlen & Hall & _).
  eexists fuel0, _. split.
  - intros fuel Hf. rewrite (Hloop fuel Hf). reflexivity.
  - simpl. repeat split; trivial. exists wave. auto.
Qed.

End Scoring.

Section Waves.

Import io game.

Lemma largePoints_value : largePoints = 20%Z.
Proof. reflexivity. Qed.

(** Starting a game puts [startingCount] = 4 live large asteroids on an
    empty field. *)
Lemma startGame_returns (g : Game) :
  eventuallyOutside_ship g ->
  exists (fuel0 : nat) (g2 : Game),
    (forall fuel, (fuel0 <= fuel)%nat -> startGame fuel g = Ok g2) /\
    state (data g2) = playing /\
    exists wave,
      asteroids g2 = asteroids g ++ wave /\
      List.length wave = 4%nat /\
      Forall liveLarge wave.
Proof.
  intros Hfair. unfold startGame, spawnAsteroids, spawner.createAsteroids.
  cbn [rng set_input set_data ship asteroids].
  destruct (asteroidsLoop_returns renderer_width renderer_height
              (position (transform (ship g))) 100 (tape (rng g))
              (Z.to_nat CONFIG.asteroid.startingCount)
              Hfair [] (rng g) eq_refl)
    as (fuel0 & wave & r' & Hloop & Hlen & Hall & _).
  eexists fuel0, _. split.
  - intros fuel Hf. rewrite (Hloop fuel Hf). reflexivity.
  - simpl. split; [reflexivity |]. exists wave. auto.
Qed.

(** C8.  One pass of [checkBulletCollisions] over a field of live
    asteroids raises the score by the point value of each asteroid it
    destroys and by nothing else; so when a level starts with 4 large
    asteroids and the bullets destroy all four of them (the children,
    which are new in the list, are not credited in that pass), the score
    rises by exactly 4 times the large-asteroid point value.  And
    whenever the asteroid list is empty after the collision checks of a
    frame in the playing state, [update] goes on to [nextLevel]: the
    level goes up by 1, the session state stays as it is, and the new
    wave is made of startingCount + level - 1 live large asteroids, level
    being the new level (startingCount + 1 when going from level 1 to 2)
    - provided the random source keeps offering positions outside the
    exclusion zone around the ship, without which the placement loop of
    [createAsteroids] does not return. *)
Theorem wave_scoring_and_next_level (st : Settings) (g : Game) :
  (Forall liveAsteroid (asteroids g) ->
   let g' := checkBulletCollisions g in
   let dL := destroyedLarge (asteroids g) (asteroids g') in
   let dM := destroyedMedium (asteroids g) (asteroids g') in
   let dS := destroyedSmall (asteroids g) (asteroids g') in
   score (data g') =
     (score (data g) + pointsOf large * dL + pointsOf medium * dM
      + pointsOf small * dS)%Z /\
   (0 <= dL)%Z /\ (0 <= dM)%Z /\ (0 <= dS)%Z) /\
  (Forall liveLarge (asteroids g) ->
   List.length (asteroids g) = 4%nat ->
   countSize large (asteroids (checkBulletCollisions g)) = 0%Z ->
   score (data (checkBulletCollisions g)) = (score (data g) + 4 * largePoints)%Z) /\
  (forall g1 : Game,
     state (data g) = playing ->
     collision_checks st g = Ok g1 ->
     asteroids g1 = [] ->
     eventuallyOutside_ship g1 ->
     exists (fuel0 : nat) (g2 : Game),
       (forall fuel, (fuel0 <= fuel)%nat -> update_collisions st fuel g = Ok g2) /\
       level (data g2) = (level (data g1) + 1)%Z /\
       state (data g2) = state (data g1) /\
       List.length (asteroids g2)
         = Z.to_nat (CONFIG.asteroid.startingCount + level (data g2) - 1) /\
       Forall liveLarge (asteroids g2) /\
       (level (data g1) = 1%Z ->
        List.length (asteroids g2) = Z.to_nat (CONFIG.asteroid.startingCount + 1))).
Proof.
  split; [| split].
  - intros Hlive.
    destruct (checkBulletCollisions_accounted g Hlive) as (Hscore & HL & HM & HS & _).
    cbv zeta in *. repeat split; trivial; lia.
  - intros Hlarge H4 H0.
    assert (Hlive : Forall liveAsteroid (asteroids g))
      by (eapply Forall_impl; [| exact Hlarge]; intros a [H _]; exact H).
    destruct (checkBulletCollisions_accounted g Hlive) as (Hscore & HL & HM & HS & _).
    destruct (countSize_all_large (asteroids g) Hlarge) as (CL & CM & CS).
    cbv zeta in *. unfold destroyedSmall, destroyedMedium, destroyedLarge in *.
    rewrite CL, CM, CS, H4, H0 in *. unfold largePoints.
    rewrite Hscore.
    set (M' := countSize medium (asteroids (checkBulletCollisions g))) in *.
    set (S' := countSize small (asteroids (checkBulletCollisions g))) in *.
    replace (0 + 2 * (Z.of_nat 4 - 0) - M')%Z with 0%Z in * by lia.
    replace (0 + 2 * 0 - S')%Z with 0%Z by lia.
    lia.
  - intros g1 _ Hchecks Hempty Hfair.
    destruct (nextLevel_returns g1 Hfair)
      as (fuel0 & g2 & Hret & Hlevel & Hstate & _ & _ & wave & Hw & Hlen & Hall).
    exists fuel0, g2.
    rewrite Hempty in Hw. simpl in Hw.
    split; [| split; [| split; [| split; [| split]]]]; trivial.
    + intros fuel Hf. unfold update_collisions. rewrite Hchecks. simpl.
      rewrite Hempty. simpl. apply Hret. assumption.
    + rewrite Hw. assumption.
    + rewrite Hw. assumption.
    + intros H1. rewrite Hw, Hlen, Hlevel, H1. reflexivity.
Qed.

Lemma wave_scoring_and_next_level_witness :
  let a0 := asteroid.mkAsteroid
              (mkEntity (mkTransform (mkVector2 0 0) 0 1) (mkVector2 0 0) 0 [] 40 true)
              large 20 in
  let b0 := bullet.new 0 0 (mkVector2 1 0) in
  let e := set_data (mkGameData 0 3 1 playing None None) (new (mkRng (fun _ => 0) 0)) in
  let g := set_bullets [b0; b0; b0; b0] (set_asteroids [a0; a0; a0; a0] e) in
  (0 <= destroyedLarge (asteroids g) (asteroids (checkBulletCollisions g)))%Z /\
  score (data (checkBulletCollisions g)) = 80%Z /\
  exists (fuel0 : nat) (g2 : Game),
    (forall fuel, (fuel0 <= fuel)%nat -> update_collisions (shipped 10) fuel e = Ok g2) /\
    level (data g2) = 2%Z /\
    List.length (asteroids g2) = 5%nat.
Proof.
  intros a0 b0 e g.
  assert (Hlarge : Forall liveLarge (asteroids g)) by (repeat constructor).
  assert (Hlive : Forall liveAsteroid (asteroids g)) by (repeat constructor).
  split; [| split].
  - apply (wave_scoring_and_next_level (shipped 10) g). exact Hlive.
  - destruct (wave_scoring_and_next_level (shipped 10) g) as (_ & HA & _).
    change 80%Z with (score (data g) + 4 * largePoints)%Z.
    apply HA; [exact Hlarge | reflexivity |].
    rewrite countLarge_after_pass
      by (eapply Forall_impl; [| exact Hlive]; intros a [H _]; exact H).
    assert (Hhit : collision.checkCollision b0 a0 = true).
    { unfold collision.checkCollision. simpl. rewrite distance_self.
      apply Rltb_true. unfold CONFIG.bullet.radius. lra. }
    set (a1 := asteroid.setBase (setActive false a0) a0).
    change (asteroids g) with [a0; a0; a0; a0].
    change (bullets g) with [b0; b0; b0; b0].
    rewrite bulletsLoop_marks_cons.
    rewrite (bulletVsAsteroids_marks b0 [] a0 [a0; a0; a0]) by (trivial; constructor).
    rewrite bulletsLoop_marks_cons.
    rewrite (bulletVsAsteroids_marks b0 [a1] a0 [a0; a0])
      by (trivial; repeat constructor).
    rewrite bulletsLoop_marks_cons.
    rewrite (bulletVsAsteroids_marks b0 [a1; a1] a0 [a0])
      by (trivial; repeat constructor).
    rewrite bulletsLoop_marks_cons.
    rewrite (bulletVsAsteroids_marks b0 [a1; a1; a1] a0 [])
      by (trivial; repeat constructor).
    reflexivity.
  - destruct (wave_scoring_and_next_level (shipped 10) e) as (_ & _ & HB).
    assert (Hchecks : collision_checks (shipped 10) e = Ok e).
    { unfold collision_checks.
      change (checkUFOCollisions (checkBulletCollisions e)) with e.
      unfold checkUFOBulletCollisions, ship.isInvulnerable. simpl.
      unfold Rgtb. rewrite Rltb_false by lra. reflexivity. }
    destruct (HB e eq_refl Hchecks eq_refl)
      as (fuel0 & g2 & Hret & Hlevel & _ & _ & _ & Hfive).
    { intros n. exists 0%nat. unfold spawner.inZone. simpl.
      unfold renderer_width, renderer_height.
      intros [H _]. apply Rabs_def2 in H. lra. }
    exists fuel0, g2. split; [exact Hret |]. split; [exact Hlevel |].
    apply Hfive. reflexivity.
Defined.

End Waves.

(* ================================================================== *)
(** * Further properties of the code *)

(** ** physics/math.ts *)

Section VectorMath.

Lemma Reqb_true (a b : R) : a = b -> Reqb a b = true.
Proof. intros H; unfold Reqb; destruct (Req_EM_T a b); [reflexivity | contradiction]. Qed.

Lemma Reqb_false (a b : R) : a <> b -> Reqb a b = false.
Proof. intros H; unfold Reqb; destruct (Req_EM_T a b); [contradiction | reflexivity]. Qed.

Lemma magnitude_nonneg (v : Vector2) : 0 <= math.magnitude v.
Proof. apply sqrt_pos. Qed.

Lemma magnitude_zero_iff (v : Vector2) :
  math.magnitude v = 0 <-> x v = 0 /\ y v = 0.
Proof.
  unfold math.magnitude. split.
  - intros H. apply sqrt_eq_0 in H; [| nra]. split; nra.
  - intros [-> ->]. replace (0 * 0 + 0 * 0) with 0 by ring. apply sqrt_0.
Qed.

(** X1.  [normalize] answers the zero vector for the zero vector and a
    vector of magnitude 1 in the same direction for every other vector:
    scaling the answer by the magnitude of the argument gives the
    argument back. *)
Theorem normalize_spec (v : Vector2) :
  (x v = 0 /\ y v = 0 -> math.normalize v = mkVector2 0 0) /\
  (~ (x v = 0 /\ y v = 0) ->
     math.magnitude (math.normalize v) = 1 /\
     math.scale (math.normalize v) (math.magnitude v) = v).
Proof.
  split.
  - intros H. unfold math.normalize.
    rewrite Reqb_true by (apply magnitude_zero_iff; assumption). reflexivity.
  - intros H. unfold math.normalize.
    assert (Hm : math.magnitude v <> 0) by (rewrite magnitude_zero_iff; assumption).
    rewrite (Reqb_false _ _ Hm).
    assert (Hpos : 0 < math.magnitude v) by (pose proof (magnitude_nonneg v); lra).
    split.
    + pose proof (magnitude_rescaled (x v) (y v) 1 Hpos) as E.
      rewrite Rabs_R1 in E. rewrite <- E.
      unfold math.magnitude at 1 4. cbn [x y]. f_equal.
      fold (math.magnitude v). field. assumption.
    + destruct v as [vx vy]. unfold math.scale. cbn [x y]. f_equal; field; assumption.
Qed.

Lemma normalize_spec_witness :
  math.magnitude (math.normalize (mkVector2 3 4)) = 1 /\
  math.normalize (mkVector2 0 0) = mkVector2 0 0.
Proof.
  split.
  - apply (normalize_spec (mkVector2 3 4)). simpl. intros [H _]. lra.
  - apply (normalize_spec (mkVector2 0 0)). simpl. split; reflexivity.
Defined.

Lemma rotate_magnitude (p : Vector2) (angle : R) :
  math.magnitude (math.rotate p angle) = math.magnitude p.
Proof.
  unfold math.magnitude, math.rotate. cbn [x y]. f_equal.
  replace ((x p * cos angle - y p * sin angle) * (x p * cos angle - y p * sin angle)
           + (x p * sin angle + y p * cos angle) * (x p * sin angle + y p * cos angle))
    with ((x p * x p + y p * y p) * (Rsqr (sin angle) + Rsqr (cos angle)))
    by (unfold Rsqr; ring).
  rewrite sin2_cos2. ring.
Qed.

Lemma rotate_rotate (p : Vector2) (a b : R) :
  math.rotate (math.rotate p a) b = math.rotate p (a + b).
Proof.
  unfold math.rotate. cbn [x y]. rewrite cos_plus, sin_plus. f_equal; ring.
Qed.

Lemma rotate_0 (p : Vector2) : math.rotate p 0 = p.
Proof.
  destruct p as [px py]. unfold math.rotate. cbn [x y].
  rewrite cos_0, sin_0. f_equal; ring.
Qed.

(** X2.  [rotate] keeps the magnitude of the point, rotations add up,
    the rotation by 0 changes nothing and the rotation by the opposite
    angle undoes a rotation. *)
Theorem rotate_spec (p : Vector2) (a b : R) :
  math.magnitude (math.rotate p a) = math.magnitude p /\
  math.rotate (math.rotate p a) b = math.rotate p (a + b) /\
  math.rotate p 0 = p /\
  math.rotate (math.rotate p a) (- a) = p.
Proof.
  split; [apply rotate_magnitude |]. split; [apply rotate_rotate |].
  split; [apply rotate_0 |].
  rewrite rotate_rotate. replace (a + - a) with 0 by ring. apply rotate_0.
Qed.

Lemma randomRange_value (lo hi : R) (g : Rng) :
  math.randomRange lo hi g
  = (lo + tape g (cursor g) * (hi - lo), mkRng (tape g) (S (cursor g))).
Proof. reflexivity. Qed.

Lemma randomRange_bounds (lo hi : R) (g : Rng) :
  wf_tape (tape g) -> lo <= hi ->
  lo <= fst (math.randomRange lo hi g) <= hi /\
  (lo < hi -> fst (math.randomRange lo hi g) < hi).
Proof.
  intros Hwf Hle. rewrite randomRange_value. cbn [fst].
  pose proof (Hwf (cursor g)) as [H0 H1]. split; [split |]; try nra.
Qed.

Lemma randomInt_bounds (lo hi : Z) (g : Rng) :
  wf_tape (tape g) -> (lo <= hi)%Z ->
  (lo <= fst (math.randomInt (IZR lo) (IZR hi) g) <= hi)%Z.
Proof.
  intros Hwf Hle.
  unfold math.randomInt, bind, ret. rewrite randomRange_value. cbn [fst].
  pose proof (Hwf (cursor g)) as [H0 H1].
  set (v := IZR lo + tape g (cursor g) * (IZR hi + 1 - IZR lo)).
  assert (Hhi : IZR lo <= IZR hi) by (apply IZR_le; assumption).
  assert (Hv : IZR lo <= v < IZR hi + 1) by (unfold v; split; nra).
  unfold floor. destruct (base_Int_part v) as [B1 B2].
  split.
  - assert (IZR (lo - 1) < IZR (Int_part v)) by (rewrite minus_IZR; lra).
    apply lt_IZR in H. lia.
  - assert (IZR (Int_part v) < IZR (hi + 1)) by (rewrite plus_IZR; lra).
    apply lt_IZR in H. lia.
Qed.

(** X3.  With a random source that answers in [0, 1), [randomRange min
    max] answers a number from [min] up to but not including [max] (for
    min < max), [randomInt min max] an integer from [min] to [max], both
    included (for integers min <= max), and each of them reads exactly one
    cell of the tape. *)
Theorem random_bounds (g : Rng) :
  wf_tape (tape g) ->
  (forall lo hi : R, lo < hi ->
     lo <= fst (math.randomRange lo hi g) < hi /\
     snd (math.randomRange lo hi g) = mkRng (tape g) (S (cursor g))) /\
  (forall lo hi : Z, (lo <= hi)%Z ->
     (lo <= fst (math.randomInt (IZR lo) (IZR hi) g) <= hi)%Z /\
     snd (math.randomInt (IZR lo) (IZR hi) g) = mkRng (tape g) (S (cursor g))).
Proof.
  intros Hwf. split.
  - intros lo hi Hlt.
    destruct (randomRange_bounds lo hi g Hwf) as ((A & _) & B); [lra |].
    repeat split; auto.
  - intros lo hi Hle. split; [| reflexivity].
    apply randomInt_bounds; assumption.
Qed.

Lemma random_bounds_witness :
  10 <= fst (math.randomRange 10 14 (mkRng (fun _ => 1 / 2) 0)) < 14 /\
  (10 <= fst (math.randomInt 10 14 (mkRng (fun _ => (1 / 2)%R) 0)) <= 14)%Z.
Proof.
  assert (Hwf : wf_tape (tape (mkRng (fun _ => 1 / 2) 0))) by (intros n; simpl; lra).
  destruct (random_bounds (mkRng (fun _ => 1 / 2) 0) Hwf) as [HR HZ].
  split.
  - apply (HR 10 14). lra.
  - apply (HZ 10%Z 14%Z). lia.
Defined.

End VectorMath.

(* ================================================================== *)
(** ** physics/collision.ts: the boundary wrap *)

Section Wrap.

Import collision.




End Wrap.

(* ================================================================== *)
(** ** entities/baseEntity.ts and entities/bullet.ts: motion and lifetime *)

Section Lifetimes.

Import baseEntity.

Lemma elapsed_nonneg (dts : list R) :
  Forall (fun dt => 0 <= dt) dts -> 0 <= ship.elapsed dts.
Proof.
  induction 1 as [| dt dts Hdt _ IH]; unfold ship.elapsed in *; simpl; lra.
Qed.

Lemma updatePhysics_add (dt1 dt2 : R) (e : Entity) :
  updatePhysics dt2 (updatePhysics dt1 e) = updatePhysics (dt1 + dt2) e.
Proof.
  destruct e as [[[px py] r s] [vx vy] w sh rad act].
  unfold updatePhysics, math.add, math.scale, setRotation, setPosition. simpl.
  f_equal. f_equal; [f_equal |]; ring.
Qed.

Lemma TimedEntity_update_fields (dt : R) (t : TimedEntity) :
  lifetime (TimedEntity_update dt t) = lifetime t - dt /\
  velocity (TimedEntity_update dt t) = velocity t /\
  radius (TimedEntity_update dt t) = radius t /\
  position (transform (TimedEntity_update dt t))
  = math.add (position (transform t)) (math.scale (velocity t) dt) /\
  isActive (TimedEntity_update dt t)
  = if lifetime t - dt <=? 0 then false else isActive t.
Proof.
  unfold TimedEntity_update. destruct (lifetime t - dt <=? 0); repeat split.
Qed.

Lemma TimedEntity_updates_motion (dts : list R) (t : TimedEntity) :
  lifetime (TimedEntity_updates dts t) = lifetime t - ship.elapsed dts /\
  velocity (TimedEntity_updates dts t) = velocity t /\
  radius (TimedEntity_updates dts t) = radius t /\
  position (transform (TimedEntity_updates dts t))
  = math.add (position (transform t)) (math.scale (velocity t) (ship.elapsed dts)).
Proof.
  revert t. induction dts as [| dt dts IH]; intros t.
  - simpl. repeat split; [ring |].
    destruct (position (transform t)) as [px py].
    unfold math.add, math.scale. simpl. f_equal; ring.
  - change (TimedEntity_updates (dt :: dts) t)
      with (TimedEntity_updates dts (TimedEntity_update dt t)).
    destruct (IH (TimedEntity_update dt t)) as (L & V & Rd & P).
    destruct (TimedEntity_update_fields dt t) as (L1 & V1 & R1 & P1 & _).
    rewrite L, V, Rd, P, L1, V1, R1, P1.
    change (ship.elapsed (dt :: dts)) with (dt + ship.elapsed dts).
    repeat split; [ring |].
    unfold math.add, math.scale. simpl. f_equal; ring.
Qed.

Lemma TimedEntity_updates_stays_inactive (dts : list R) (t : TimedEntity) :
  isActive t = false -> isActive (TimedEntity_updates dts t) = false.
Proof.
  revert t. induction dts as [| dt dts IH]; intros t Ht; [exact Ht |].
  change (TimedEntity_updates (dt :: dts) t)
    with (TimedEntity_updates dts (TimedEntity_update dt t)).
  apply IH. destruct (TimedEntity_update_fields dt t) as (_ & _ & _ & _ & A).
  rewrite A, Ht. destruct (lifetime t - dt <=? 0); reflexivity.
Qed.

Lemma TimedEntity_updates_active (dts : list R) (t : TimedEntity) :
  isActive t = true -> dts <> [] -> Forall (fun dt => 0 <= dt) dts ->
  (isActive (TimedEntity_updates dts t) = true <-> ship.elapsed dts < lifetime t).
Proof.
  revert t. induction dts as [| dt dts IH]; intros t Ht Hne Hpos; [congruence |].
  change (TimedEntity_updates (dt :: dts) t)
    with (TimedEntity_updates dts (TimedEntity_update dt t)).
  change (ship.elapsed (dt :: dts)) with (dt + ship.elapsed dts).
  inversion Hpos as [| ? ? Hdt Hrest]; subst.
  pose proof (elapsed_nonneg dts Hrest) as He.
  destruct (TimedEntity_update_fields dt t) as (L1 & _ & _ & _ & A). rewrite Ht in A.
  destruct (Rle_dec (lifetime t - dt) 0) as [Hl | Hl].
  - rewrite (Rleb_true _ _ Hl) in A.
    rewrite (TimedEntity_updates_stays_inactive dts _ A).
    split; [discriminate | intros; lra].
  - rewrite Rleb_false in A by lra.
    destruct dts as [| dt' dts'].
    + simpl. rewrite A. split; [intros _; lra | reflexivity].
    + rewrite (IH _ A) by (try discriminate; assumption). rewrite L1.
      split; intros; lra.
Qed.

(** X5.  A timed entity moves in a straight line at its velocity and
    its lifetime runs down by the time elapsed, however the time is cut
    into frames; an inactive one is never activated again; and after
    at least one frame of non-negative length an entity that was active
    is still active exactly when the time elapsed is less than the
    lifetime it had. *)
Theorem TimedEntity_expiry (dts : list R) (t : TimedEntity) :
  lifetime (TimedEntity_updates dts t) = lifetime t - ship.elapsed dts /\
  position (transform (TimedEntity_updates dts t))
  = math.add (position (transform t)) (math.scale (velocity t) (ship.elapsed dts)) /\
  (isActive t = false -> isActive (TimedEntity_updates dts t) = false) /\
  (isActive t = true -> dts <> [] -> Forall (fun dt => 0 <= dt) dts ->
     (isActive (TimedEntity_updates dts t) = true <-> ship.elapsed dts < lifetime t)).
Proof.
  destruct (TimedEntity_updates_motion dts t) as (L & _ & _ & P).
  split; [exact L |]. split; [exact P |].
  split; [apply TimedEntity_updates_stays_inactive | apply TimedEntity_updates_active].
Qed.

Lemma TimedEntity_expiry_witness :
  isActive (TimedEntity_updates [1; 1] (TimedEntity_new 0 0 3)) = true /\
  isActive (TimedEntity_updates [1; 1]
              (mkTimedEntity (setActive false (BaseEntity 0 0)) 3)) = false.
Proof.
  destruct (TimedEntity_expiry [1; 1] (TimedEntity_new 0 0 3)) as (_ & _ & _ & H).
  destruct (TimedEntity_expiry [1; 1]
              (mkTimedEntity (setActive false (BaseEntity 0 0)) 3)) as (_ & _ & H' & _).
  split.
  - apply H; [reflexivity | discriminate | repeat constructor; lra | simpl; lra].
  - apply H'. reflexivity.
Defined.

Lemma bullet_updates_base (dts : list R) (bl : bullet.Bullet) :
  bullet.bullet_base (bullet.updates dts bl)
  = TimedEntity_updates dts (bullet.bullet_base bl).
Proof.
  revert bl. induction dts as [| dt dts IH]; intros bl; [reflexivity |].
  change (bullet.updates (dt :: dts) bl) with (bullet.updates dts (bullet.update dt bl)).
  rewrite IH. reflexivity.
Qed.

Lemma bullet_path (x0 y0 : R) (direction : Vector2) (dts : list R) :
  math.magnitude direction = 1 ->
  dts <> [] -> Forall (fun dt => 0 <= dt) dts ->
  let bl := bullet.updates dts (bullet.new x0 y0 direction) in
  position (transform bl)
  = math.add (mkVector2 x0 y0) (math.scale direction (500 * ship.elapsed dts)) /\
  math.distance (mkVector2 x0 y0) (position (transform bl)) = 500 * ship.elapsed dts /\
  (isActive bl = true <-> ship.elapsed dts < 3 / 2) /\
  (isActive bl = true -> math.distance (mkVector2 x0 y0) (position (transform bl)) < 750).
Proof.
  intros Hdir Hne Hpos. cbv zeta.
  rewrite bullet_updates_base.
  set (t := bullet.bullet_base (bullet.new x0 y0 direction)).
  destruct (TimedEntity_updates_motion dts t) as (_ & _ & _ & P).
  pose proof (TimedEntity_updates_active dts t eq_refl Hne Hpos) as A.
  pose proof (elapsed_nonneg dts Hpos) as He.
  assert (Hp : position (transform (TimedEntity_updates dts t))
               = math.add (mkVector2 x0 y0)
                   (math.scale direction (500 * ship.elapsed dts))).
  { rewrite P. unfold t, bullet.new, math.add, math.scale. simpl.
    unfold CONFIG.bullet.speed. f_equal; ring. }
  assert (Hd : math.distance (mkVector2 x0 y0)
                 (position (transform (TimedEntity_updates dts t)))
               = 500 * ship.elapsed dts).
  { rewrite Hp. unfold math.distance, math.add, math.scale. simpl.
    unfold math.magnitude in Hdir.
    replace ((x0 + x direction * (500 * ship.elapsed dts) - x0)
             * (x0 + x direction * (500 * ship.elapsed dts) - x0)
             + (y0 + y direction * (500 * ship.elapsed dts) - y0)
               * (y0 + y direction * (500 * ship.elapsed dts) - y0))
      with ((x direction * x direction + y direction * y direction)
            * ((500 * ship.elapsed dts) * (500 * ship.elapsed dts))) by ring.
    rewrite sqrt_mult_alt by nra. rewrite Hdir.
    rewrite sqrt_square by nra. ring. }
  assert (Ha : isActive (TimedEntity_updates dts t) = true <-> ship.elapsed dts < 3 / 2).
  { rewrite A. unfold t, bullet.new. simpl. unfold CONFIG.bullet.lifetime.
    split; intros; lra. }
  split; [exact Hp |]. split; [exact Hd |]. split; [exact Ha |].
  intros Hact. rewrite Hd. apply Ha in Hact. lra.
Qed.

(** X6.  A bullet fired from (x0, y0) in a unit direction has, after a
    run of frames of non-negative length, flown 500 pixels per second of
    elapsed time along that direction, and it is still active exactly
    when less than 1.5 seconds have elapsed: an active bullet is less
    than 750 pixels from where it was fired. *)
Theorem bullet_flight (x0 y0 : R) (direction : Vector2) (dts : list R) :
  math.magnitude direction = 1 ->
  dts <> [] -> Forall (fun dt => 0 <= dt) dts ->
  let bl := bullet.updates dts (bullet.new x0 y0 direction) in
  position (transform bl)
  = math.add (mkVector2 x0 y0) (math.scale direction (500 * ship.elapsed dts)) /\
  math.distance (mkVector2 x0 y0) (position (transform bl)) = 500 * ship.elapsed dts /\
  (isActive bl = true <-> ship.elapsed dts < 3 / 2) /\
  (isActive bl = true -> math.distance (mkVector2 x0 y0) (position (transform bl)) < 750).
Proof. apply bullet_path. Qed.

Lemma bullet_flight_witness :
  isActive (bullet.updates [1 / 2; 1 / 2] (bullet.new 100 100 (mkVector2 1 0))) = true.
Proof.
  assert (Hm : math.magnitude (mkVector2 1 0) = 1).
  { unfold math.magnitude. simpl. replace (1 * 1 + 0 * 0) with 1 by ring. apply sqrt_1. }
  destruct (bullet_flight 100 100 (mkVector2 1 0) [1 / 2; 1 / 2] Hm) as (_ & _ & H & _);
    [discriminate | repeat constructor; lra |].
  apply H. simpl. lra.
Defined.

End Lifetimes.

(* ================================================================== *)
(** ** entities/ship.ts: thrust, timers and the hyperspace invariant *)

Section ShipControl.

Import ship.

(** Split on every comparison of the goal between terms that carry no
    test themselves, keeping the fact. *)
Ltac no_test a :=
  lazymatch a with
  | context [if _ then _ else _] => fail
  | _ => idtac
  end.

Ltac rsplit :=
  unfold Rgtb, Rgeb in *;
  repeat match goal with
    | |- context [Rltb ?a ?b] =>
        no_test a; no_test b;
        let H := fresh "H" in
        destruct (Rlt_dec a b) as [H | H];
        [ rewrite (Rltb_true a b H) | rewrite (Rltb_false a b) by lra ]; cbn
    | |- context [Rleb ?a ?b] =>
        no_test a; no_test b;
        let H := fresh "H" in
        destruct (Rle_dec a b) as [H | H];
        [ rewrite (Rleb_true a b H) | rewrite (Rleb_false a b) by lra ]; cbn
    end.

Lemma magnitude_scale (v : Vector2) (k : R) :
  math.magnitude (math.scale v k) = math.magnitude v * Rabs k.
Proof.
  unfold math.magnitude, math.scale. cbn [x y].
  replace (x v * k * (x v * k) + y v * k * (y v * k))
    with ((x v * x v + y v * y v) * Rsqr k) by (unfold Rsqr; ring).
  rewrite sqrt_mult_alt by nra. rewrite sqrt_Rsqr_abs. reflexivity.
Qed.

(** X7.  [thrust] marks the ship as thrusting, leaves its position and
    heading alone and adds 200 dt along the heading to the velocity;
    when that would exceed the maximum speed of 400 the velocity is
    scaled back to exactly 400, so the speed after a thrust never
    exceeds the maximum. *)
Theorem thrust_spec (dt : R) (s : Ship) :
  let v := math.add (velocity s)
             (math.scale (math.angleToVector (rotation (transform s)))
                         (THRUST_POWER * dt)) in
  let s' := thrust dt s in
  isThrusting s' = true /\
  transform s' = transform s /\
  math.magnitude (velocity s') <= MAX_SPEED /\
  (math.magnitude v <= MAX_SPEED -> velocity s' = v) /\
  (MAX_SPEED < math.magnitude v ->
     velocity s' = math.scale v (MAX_SPEED / math.magnitude v) /\
     math.magnitude (velocity s') = MAX_SPEED).
Proof.
  cbv zeta.
  set (v := math.add (velocity s)
             (math.scale (math.angleToVector (rotation (transform s)))
                         (THRUST_POWER * dt))).
  assert (E : thrust dt s
              = if math.magnitude v >? MAX_SPEED
                then setBase (setVelocity (math.scale v (MAX_SPEED / math.magnitude v))
                                          (setIsThrusting true s))
                             (setIsThrusting true s)
                else setBase (setVelocity v (setIsThrusting true s))
                             (setIsThrusting true s)).
  { unfold thrust. cbn. fold v. destruct (math.magnitude v >? MAX_SPEED); reflexivity. }
  rewrite E. clear E. unfold Rgtb, MAX_SPEED.
  assert (Hcap : MAX_SPEED < math.magnitude v ->
                 math.magnitude (math.scale v (MAX_SPEED / math.magnitude v)) = MAX_SPEED).
  { unfold MAX_SPEED. intros H. rewrite magnitude_scale.
    rewrite Rabs_right.
    - field. lra.
    - apply Rle_ge. apply Rmult_le_pos; [lra |].
      left. apply Rinv_0_lt_compat. lra. }
  unfold MAX_SPEED in Hcap.
  destruct (Rlt_dec 400 (math.magnitude v)) as [H | H].
  - rewrite (Rltb_true _ _ H). cbn.
    repeat split; try reflexivity.
    + rewrite (Hcap H). lra.
    + intros; lra.
    + apply Hcap; assumption.
  - rewrite Rltb_false by lra. cbn.
    repeat split; try reflexivity; try lra.
Qed.

Lemma thrust_spec_witness :
  velocity (thrust 1 (new 400 300)) = mkVector2 (0 + sin 0 * (200 * 1)) (0 + - cos 0 * (200 * 1)).
Proof.
  destruct (thrust_spec 1 (new 400 300)) as (_ & _ & _ & H & _).
  apply H. unfold math.magnitude, MAX_SPEED. cbn. rewrite sin_0, cos_0.
  match goal with
  | |- sqrt ?a <= _ => replace a with (200 * 200) by (unfold THRUST_POWER; ring)
  end.
  rewrite sqrt_square by lra. lra.
Defined.

(** *** The two countdowns *)

Lemma update_invulnerableTime (dt : R) (s : Ship) :
  invulnerableTime (update dt s)
  = if invulnerableTime s >? 0 then invulnerableTime s - dt else invulnerableTime s.
Proof.
  destruct s as [e thr inv st tm cd tg]. unfold update, hyperspacePhase, Rgtb, Rgeb.
  destruct st; cbn; rsplit; first [reflexivity | exfalso; lra].
Qed.

Lemma update_idle (dt : R) (s : Ship) :
  hyperspaceState s = idle ->
  hyperspaceState (update dt s) = idle /\
  hyperspaceCooldown (update dt s)
  = if hyperspaceCooldown s >? 0 then hyperspaceCooldown s - dt else hyperspaceCooldown s.
Proof.
  destruct s as [e thr inv st tm cd tg]. cbn. intros ->.
  unfold update, hyperspacePhase, Rgtb, Rgeb.
  cbn; rsplit; first [split; reflexivity | exfalso; lra].
Qed.

Lemma isInvulnerable_updates (dts : list R) (s : Ship) :
  Forall (fun dt => 0 <= dt) dts ->
  (isInvulnerable (updates dts s) = true <-> elapsed dts < invulnerableTime s).
Proof.
  intros Hpos. revert s. induction Hpos as [| dt dts Hdt Hrest IH]; intros s.
  - unfold isInvulnerable, Rgtb. cbn. rewrite Rltb_iff. reflexivity.
  - change (updates (dt :: dts) s) with (updates dts (update dt s)).
    change (elapsed (dt :: dts)) with (dt + elapsed dts).
    rewrite IH, update_invulnerableTime.
    pose proof (elapsed_nonneg dts Hrest) as He. unfold Rgtb.
    destruct (Rlt_dec 0 (invulnerableTime s)) as [H | H].
    + rewrite (Rltb_true _ _ H). split; intros; lra.
    + rewrite Rltb_false by lra. split; intros; lra.
Qed.

Lemma canHyperspace_updates (dts : list R) (s : Ship) :
  Forall (fun dt => 0 <= dt) dts ->
  hyperspaceState s = idle ->
  (canHyperspace (updates dts s) = true <-> hyperspaceCooldown s <= elapsed dts).
Proof.
  intros Hpos. revert s. induction Hpos as [| dt dts Hdt Hrest IH]; intros s Hs.
  - unfold canHyperspace. cbn. rewrite Hs. cbn. rewrite Rleb_iff. reflexivity.
  - change (updates (dt :: dts) s) with (updates dts (update dt s)).
    change (elapsed (dt :: dts)) with (dt + elapsed dts).
    destruct (update_idle dt s Hs) as [Hi Hc].
    rewrite (IH _ Hi), Hc.
    pose proof (elapsed_nonneg dts Hrest) as He. unfold Rgtb.
    destruct (Rlt_dec 0 (hyperspaceCooldown s)) as [H | H].
    + rewrite (Rltb_true _ _ H). split; intros; lra.
    + rewrite Rltb_false by lra. split; intros; lra.
Qed.

(** X8.  Over any run of frames of non-negative length the two
    countdowns of the ship run in real time: the ship is invulnerable
    after the run exactly when less time has elapsed than its
    invulnerability lasted, so for exactly 3 seconds after a [reset];
    and a ship that is idle can enter hyperspace after the run exactly
    when at least its cooldown has elapsed. *)
Theorem ship_countdowns (dts : list R) (s : Ship) (x0 y0 : R) :
  Forall (fun dt => 0 <= dt) dts ->
  (isInvulnerable (updates dts s) = true <-> elapsed dts < invulnerableTime s) /\
  (isInvulnerable (updates dts (reset x0 y0 s)) = true <-> elapsed dts < 3) /\
  (hyperspaceState s = idle ->
     (canHyperspace (updates dts s) = true <-> hyperspaceCooldown s <= elapsed dts)).
Proof.
  intros Hpos. split; [apply isInvulnerable_updates; assumption |].
  split; [| apply canHyperspace_updates; assumption].
  rewrite (isInvulnerable_updates dts (reset x0 y0 s) Hpos). reflexivity.
Qed.

Lemma ship_countdowns_witness :
  isInvulnerable (updates [1; 1] (reset 400 300 (new 0 0))) = true /\
  canHyperspace (updates [2; 3] (setHyperspaceCooldown 5 (new 0 0))) = true.
Proof.
  assert (H1 : Forall (fun dt => 0 <= dt) [1; 1]) by (repeat constructor; lra).
  assert (H2 : Forall (fun dt => 0 <= dt) [2; 3]) by (repeat constructor; lra).
  destruct (ship_countdowns [1; 1] (new 0 0) 400 300 H1) as (_ & A & _).
  destruct (ship_countdowns [2; 3] (setHyperspaceCooldown 5 (new 0 0)) 0 0 H2)
    as (_ & _ & B).
  split.
  - apply A. cbn. lra.
  - apply B; [reflexivity | cbn; lra].
Defined.

(** *** The invariant of the hyperspace timers *)

Lemma in_phase_update (dt : R) (s : Ship) :
  0 <= dt <= CONFIG.timing.maxDeltaTime -> in_phase s -> in_phase (update dt s).
Proof.
  destruct s as [e thr inv st tm cd tg].
  unfold in_phase, update, hyperspacePhase, CONFIG.timing.maxDeltaTime,
    HYPERSPACE_SHRINK_TIME, HYPERSPACE_WARP_TIME, HYPERSPACE_EXPAND_TIME,
    HYPERSPACE_INVULNERABILITY, HYPERSPACE_COOLDOWN.
  intros [Hd0 Hd1]. destruct st; cbn; intros Hin; rsplit;
    try exact I; try lra.
Qed.

Lemma in_phase_call (c : Call) (s : Ship) :
  capped c -> in_phase s -> in_phase (call c s).
Proof.
  destruct c as [dt | dt | dt | dt | tx ty | x0 y0]; cbn [call capped]; intros Hc Hin.
  - apply in_phase_update; assumption.
  - exact Hin.
  - exact Hin.
  - unfold thrust.
    match goal with
    | |- in_phase (if ?b then _ else _) => destruct b
    end; exact Hin.
  - unfold activateHyperspace.
    destruct (canHyperspace s) eqn:Hcan; cbn [negb]; [| exact Hin].
    unfold in_phase. cbn.
    unfold HYPERSPACE_SHRINK_TIME, HYPERSPACE_WARP_TIME, HYPERSPACE_EXPAND_TIME,
      HYPERSPACE_INVULNERABILITY.
    pose proof (Rmax_r (invulnerableTime s) (3 / 10 + 2 / 10 + 3 / 10 + 2)).
    split; lra.
  - destruct s as [e thr inv st tm cd tg].
    unfold in_phase, reset, HYPERSPACE_SHRINK_TIME, HYPERSPACE_WARP_TIME,
      HYPERSPACE_EXPAND_TIME, HYPERSPACE_INVULNERABILITY, CONFIG.timing.maxDeltaTime in *.
    destruct st; cbn in *; try exact I; lra.
Qed.

Lemma in_phase_calls (cs : list Call) (s : Ship) :
  Forall capped cs -> in_phase s -> in_phase (calls cs s).
Proof.
  intros Hc. revert s. induction Hc as [| c cs Hcap _ IH]; intros s Hin; [exact Hin |].
  change (calls (c :: cs) s) with (calls cs (call c s)).
  apply IH, in_phase_call; assumption.
Qed.

Lemma in_phase_bounds (s : Ship) :
  in_phase s ->
  (isInHyperspace s = true -> isInvulnerable s = true) /\
  0 <= getHyperspaceProgress s < 1 /\
  0 <= getHyperspaceScale s <= 1.
Proof.
  intros Hin. destruct s as [e thr inv st tm cd tg].
  unfold in_phase, isInHyperspace, isInvulnerable, getHyperspaceScale,
    getHyperspaceProgress, Rgtb, HYPERSPACE_SHRINK_TIME, HYPERSPACE_WARP_TIME,
    HYPERSPACE_EXPAND_TIME, HYPERSPACE_INVULNERABILITY, CONFIG.timing.maxDeltaTime in *.
  destruct st; cbn in *.
  - repeat split; try lra; discriminate.
  - destruct Hin as [[T0 T1] Hi].
    assert (0 <= tm / (3 / 10) < 1).
    { split; [apply Rmult_le_pos; lra |].
      apply Rmult_lt_reg_r with (3 / 10); [lra |]. field_simplify. lra. }
    repeat split; try lra. intros _. apply Rltb_true. lra.
  - destruct Hin as [[T0 T1] Hi].
    assert (0 <= tm / (2 / 10) < 1).
    { split; [apply Rmult_le_pos; lra |].
      apply Rmult_lt_reg_r with (2 / 10); [lra |]. field_simplify. lra. }
    repeat split; try lra. intros _. apply Rltb_true. lra.
  - destruct Hin as [[T0 T1] Hi].
    assert (0 <= tm / (3 / 10) < 1).
    { split; [apply Rmult_le_pos; lra |].
      apply Rmult_lt_reg_r with (3 / 10); [lra |]. field_simplify. lra. }
    repeat split; try lra. intros _. apply Rltb_true. lra.
Qed.

(** X9.  Whatever the client calls on a new ship (rotation, thrust,
    hyperspace requests, resets and updates whose frame time is within
    the game loop's cap of 0.1 s), a ship in hyperspace is invulnerable,
    its hyperspace progress stays in [0, 1) and the scale it is drawn
    at stays in [0, 1]. *)
Theorem hyperspace_invariant (cs : list Call) (x0 y0 : R) :
  Forall capped cs ->
  let s := calls cs (new x0 y0) in
  (isInHyperspace s = true -> isInvulnerable s = true) /\
  0 <= getHyperspaceProgress s < 1 /\
  0 <= getHyperspaceScale s <= 1.
Proof.
  intros Hc s. apply in_phase_bounds. apply in_phase_calls; [assumption | exact I].
Qed.

Lemma hyperspace_invariant_witness :
  isInvulnerable (calls [call_activateHyperspace 100 100] (new 400 300)) = true.
Proof.
  assert (Hc : Forall capped [call_activateHyperspace 100 100])
    by (repeat constructor).
  destruct (hyperspace_invariant _ 400 300 Hc) as (H & _).
  apply H. unfold isInHyperspace, calls, call, activateHyperspace, canHyperspace. cbn.
  rcompare. reflexivity.
Defined.

End ShipControl.

(* ================================================================== *)
(** ** entities/asteroid.ts: the shape and the constructor *)

Section AsteroidShape.

Import asteroid.

Lemma shapeLoop_spec (todo : nat) : forall i n config sh g,
  wf_tape (tape g) -> 0 < cfg_radius config ->
  Forall (in_ring config) sh ->
  List.length (fst (shapeLoop todo i n config sh g)) = (List.length sh + todo)%nat /\
  Forall (in_ring config) (fst (shapeLoop todo i n config sh g)).
Proof.
  induction todo as [| todo IH]; intros i n config sh g Hwf Hr Hsh.
  - cbn. split; [lia | assumption].
  - cbn [shapeLoop]. rewrite bind_proj. rewrite randomRange_value. cbn [fst snd].
    set (f := 7 / 10 + tape g (cursor g) * (1 - 7 / 10)).
    assert (Hf : 7 / 10 <= f < 1) by (pose proof (Hwf (cursor g)); unfold f; lra).
    match goal with
    | |- context [shapeLoop todo ?i' n config ?sh' ?g'] =>
        destruct (IH i' n config sh' g') as [L F]
    end.
    + exact Hwf.
    + exact Hr.
    + apply Forall_app. split; [assumption |]. constructor; [| constructor].
      unfold in_ring.
      change (mkVector2 (cos (i / n * PI * 2) * (cfg_radius config * f))
                        (sin (i / n * PI * 2) * (cfg_radius config * f)))
        with (math.scale (mkVector2 (cos (i / n * PI * 2)) (sin (i / n * PI * 2)))
                         (cfg_radius config * f)).
      rewrite magnitude_unit_scaled by nra. nra.
    + rewrite L. rewrite length_app. cbn [List.length]. split; [lia | exact F].
Qed.

Lemma cfg_radius_pos (sz : AsteroidSize) : 0 < cfg_radius (SIZE_CONFIG sz).
Proof. destruct sz; cbn; lra. Qed.

Lemma generateAsteroidShape_bounds (sz : AsteroidSize) (g : Rng) :
  wf_tape (tape g) ->
  let config := SIZE_CONFIG sz in
  let sh := fst (generateAsteroidShape sz g) in
  minVerts config <= INR (List.length sh) <= maxVerts config /\
  Forall (in_ring config) sh.
Proof.
  intros Hwf. cbv zeta. unfold generateAsteroidShape. rewrite bind_proj.
  assert (Hn : exists lo hi : Z,
             minVerts (SIZE_CONFIG sz) = IZR lo /\ maxVerts (SIZE_CONFIG sz) = IZR hi /\
             (0 <= lo <= hi)%Z).
  { destruct sz; cbn; [exists 10%Z, 14%Z | exists 8%Z, 10%Z | exists 6%Z, 8%Z];
      repeat split; lia. }
  destruct Hn as (lo & hi & -> & -> & Hlo & Hhi).
  pose proof (randomInt_bounds lo hi g Hwf Hhi) as Hb.
  set (numVerts := fst (math.randomInt (IZR lo) (IZR hi) g)) in *.
  destruct (shapeLoop_spec (Z.to_nat numVerts) 0 (IZR numVerts) (SIZE_CONFIG sz) []
              (snd (math.randomInt (IZR lo) (IZR hi) g))) as [L F].
  - exact Hwf.
  - apply cfg_radius_pos.
  - constructor.
  - rewrite L. cbn [List.length Nat.add]. rewrite INR_IZR_INZ, Z2Nat.id by lia.
    split; [split; apply IZR_le; lia | exact F].
Qed.

(** X10.  With a random source that answers in [0, 1), the outline
    drawn for an asteroid has between [minVerts] and [maxVerts] vertices
    of its size (10 to 14, 8 to 10, 6 to 8), and every vertex lies
    between 70% and 100% of the radius of that size from the centre: the
    outline never reaches outside the collision circle. *)
Theorem generateAsteroidShape_spec (sz : AsteroidSize) (g : Rng) :
  wf_tape (tape g) ->
  let config := SIZE_CONFIG sz in
  let sh := fst (generateAsteroidShape sz g) in
  minVerts config <= INR (List.length sh) <= maxVerts config /\
  Forall (fun v => 7 / 10 * cfg_radius config <= math.magnitude v < cfg_radius config) sh.
Proof. apply generateAsteroidShape_bounds. Qed.

Lemma generateAsteroidShape_spec_witness :
  6 <= INR (List.length (fst (generateAsteroidShape small (mkRng (fun _ => 1 / 2) 0)))) <= 8.
Proof.
  apply (generateAsteroidShape_spec small (mkRng (fun _ => 1 / 2) 0)).
  intros n. cbn. lra.
Defined.

(** X11.  With a random source that answers in [0, 1), an asteroid
    constructed without a direction, as the spawner does, moves at
    exactly the speed configured for its size (50, 80 or 120 pixels per
    second), spins at between -2 and 2 radians per second, has the
    collision radius of its size and an outline within that radius; and
    [update] changes neither its velocity nor its spin. *)
Theorem new_asteroid_spec (x0 y0 dt : R) (sz : AsteroidSize) (g : Rng) :
  wf_tape (tape g) ->
  let a := fst (new x0 y0 sz None g) in
  math.magnitude (velocity a) = speed (SIZE_CONFIG sz) /\
  -2 <= angularVelocity a < 2 /\
  radius a = cfg_radius (SIZE_CONFIG sz) /\
  Forall (fun v => math.magnitude v < radius a) (shape a) /\
  velocity (update dt a) = velocity a /\
  angularVelocity (update dt a) = angularVelocity a.
Proof.
  intros Hwf. cbv zeta. unfold new. rewrite !bind_proj. cbn [ret fst snd].
  cbn [velocity angularVelocity radius shape asteroid_base update setBase
       setRotation setPosition].
  pose proof (generateAsteroidShape_bounds sz g Hwf) as [_ F].
  pose proof (generateAsteroidShape_tape sz g) as T.
  set (g1 := snd (generateAsteroidShape sz g)) in *.
  assert (Hwf1 : wf_tape (tape g1)) by (rewrite T; exact Hwf).
  split; [| split; [| split; [| split; [| split]]]]; try reflexivity.
  - match goal with
    | |- math.magnitude (mkVector2 (cos ?a * ?s) (sin ?a * ?s)) = _ =>
        change (mkVector2 (cos a * s) (sin a * s))
          with (math.scale (mkVector2 (cos a) (sin a)) s)
    end.
    apply magnitude_unit_scaled. destruct sz; cbn; lra.
  - destruct (randomRange_bounds (-2) 2 g1 Hwf1) as [[A B] C]; [lra |].
    split; [exact A | apply C; lra].
  - eapply Forall_impl; [| exact F]. cbn beta. intros v Hv. apply Hv.
Qed.

Lemma new_asteroid_spec_witness :
  math.magnitude (velocity (fst (new 10 20 large None (mkRng (fun _ => 1 / 2) 0)))) = 50.
Proof.
  apply (new_asteroid_spec 10 20 0 large (mkRng (fun _ => 1 / 2) 0)).
  intros n. cbn. lra.
Defined.

End AsteroidShape.

(* ================================================================== *)
(** ** entities/ufo.ts: the flight across the screen and the gun *)

Section UFOFlight.

Import ufo.

Lemma ufo_update_flight (dt : R) (u : UFO) (g : Rng) :
  let u' := fst (update dt u g) in
  baseSpeed u' = baseSpeed u /\
  horizontalDirection u' = horizontalDirection u /\
  radius u' = radius u /\
  x (position (transform u'))
  = x (position (transform u)) + baseSpeed u * horizontalDirection u * dt /\
  y (velocity u')
  = baseSpeed u * CONFIG.ufo.verticalSpeedFactor * verticalDirection u' /\
  tape (snd (update dt u g)) = tape g /\
  (wf_tape (tape g) -> -1 <= verticalDirection u <= 1 ->
   -1 <= verticalDirection u' <= 1).
Proof.
  unfold update. rewrite bind_proj.
  cbn [directionChangeTimer setDirectionChangeTimer].
  destruct (directionChangeTimer u - dt <=? 0).
  - rewrite !bind_proj, !randomRange_value. cbn.
    destruct (shootTimer u >? 0); cbn;
      (split; [| split; [| split; [| split; [| split; [| split]]]]]);
      try reflexivity;
      intros Hwf _; pose proof (Hwf (cursor g)); lra.
  - cbn. destruct (shootTimer u >? 0); cbn;
      (split; [| split; [| split; [| split; [| split; [| split]]]]]);
      try reflexivity;
      intros _ H; exact H.
Qed.

Lemma ufo_updates_flight (dts : list R) : forall (u : UFO) (g : Rng),
  let u' := fst (updates dts u g) in
  baseSpeed u' = baseSpeed u /\
  horizontalDirection u' = horizontalDirection u /\
  radius u' = radius u /\
  x (position (transform u'))
  = x (position (transform u)) + baseSpeed u * horizontalDirection u * ship.elapsed dts.
Proof.
  induction dts as [| dt dts IH]; intros u g.
  - cbn. repeat split; try reflexivity. ring.
  - cbn [updates]. rewrite bind_proj. cbv zeta.
    destruct (ufo_update_flight dt u g) as (B & Hd & Rd & X & _).
    destruct (IH (fst (update dt u g)) (snd (update dt u g))) as (B' & Hd' & Rd' & X').
    rewrite B', Hd', Rd', X', B, Hd, Rd, X.
    change (ship.elapsed (dt :: dts)) with (dt + ship.elapsed dts).
    repeat split; try reflexivity. ring.
Qed.

Lemma new_ufo_flight (w h : R) (sz : option UFOSize) (lvl : option Z) (g : Rng) :
  let u := fst (new w h sz lvl g) in
  let config := config_of (match sz with Some s => s | None => large end) in
  baseSpeed u = CONFIG.ufo.speed config /\
  radius u = CONFIG.ufo.radius config /\
  baseEntity.points u = CONFIG.ufo.points config /\
  ((horizontalDirection u = 1 /\ x (position (transform u)) = - radius u) \/
   (horizontalDirection u = -1 /\ x (position (transform u)) = w + radius u)).
Proof.
  unfold new. rewrite !bind_proj. cbn.
  match goal with
  | |- context [if ?b then _ else _] => destruct b
  end; repeat split; auto.
Qed.

(** X12.  A UFO crosses the screen in a straight horizontal sweep: over
    any run of frames its x coordinate moves by its speed (100 for a
    large, 150 for a small UFO) times the time elapsed, towards the far
    edge, whatever its vertical zigzag; so it is off screen, starting
    from either edge, exactly when speed times elapsed time exceeds the
    screen width plus three radii. *)
Theorem ufo_crossing (w h : R) (sz : UFOSize) (lvl : option Z) (dts : list R)
        (g g' : Rng) :
  let u0 := fst (new w h (Some sz) lvl g) in
  let u := fst (updates dts u0 g') in
  let speed := CONFIG.ufo.speed (config_of sz) in
  let r := CONFIG.ufo.radius (config_of sz) in
  x (position (transform u))
  = x (position (transform u0)) + horizontalDirection u0 * speed * ship.elapsed dts /\
  (horizontalDirection u0 = 1 \/ horizontalDirection u0 = -1) /\
  (isOffScreen w u = true <-> w + 3 * r < speed * ship.elapsed dts).
Proof.
  cbv zeta.
  destruct (new_ufo_flight w h (Some sz) lvl g) as (B & Rd & _ & Hside).
  cbv zeta in B, Rd, Hside.
  set (u0 := fst (new w h (Some sz) lvl g)) in *.
  destruct (ufo_updates_flight dts u0 g') as (B' & Hd' & Rd' & X').
  set (u := fst (updates dts u0 g')) in *.
  unfold isOffScreen, Rgtb. rewrite X', Hd', Rd', B, Rd.
  split; [ring |].
  destruct Hside as [[Hd Hx] | [Hd Hx]]; rewrite Hd, Hx, Rd.
  - split; [left; reflexivity |].
    rewrite (Rltb_true 0 1) by lra. rewrite Rltb_iff. split; intros; lra.
  - split; [right; reflexivity |].
    rewrite (Rltb_false 0 (-1)) by lra. rewrite Rltb_iff. split; intros; lra.
Qed.

Lemma new_ufo_gun (w h : R) (sz : UFOSize) (level : Z) (g : Rng) :
  wf_tape (tape g) -> (1 <= level)%Z ->
  let u := fst (new w h (Some sz) (Some level) g) in
  let base := CONFIG.ufo.shootCooldown (config_of sz) in
  3 / 10 * base <= shootCooldown u <= base /\
  ((8 <= level)%Z -> shootCooldown u = 3 / 10 * base) /\
  Rmin (5 / 10) (shootCooldown u) <= shootTimer u <= Rmax (5 / 10) (shootCooldown u) /\
  0 < shootTimer u.
Proof.
  intros Hwf Hl. cbv zeta.
  destruct (new_shooting_fields w h sz (Some level) g) as (_ & Hc & Ht).
  cbv zeta in Hc, Ht.
  set (u := fst (new w h (Some sz) (Some level) g)) in *.
  rewrite Ht. clear Ht. unfold levelScaledCooldown in Hc.
  assert (Hb : 1 <= CONFIG.ufo.shootCooldown (config_of sz) <= 2)
    by (destruct sz; cbn; lra).
  assert (Hlev : 1 <= IZR level) by (apply IZR_le; assumption).
  assert (Hm : 3 / 10 <= Rmax (3 / 10) (1 - (IZR level - 1) * (1 / 10)) <= 1).
  { split; [apply Rmax_l |]. apply Rmax_lub; lra. }
  pose proof (Hwf (cursor g)) as [T0 T1].
  set (m := Rmax (3 / 10) (1 - (IZR level - 1) * (1 / 10))) in *.
  set (base := CONFIG.ufo.shootCooldown (config_of sz)) in *.
  set (t := tape g (cursor g)) in *.
  assert (Hcd : 3 / 10 * base <= shootCooldown u <= base) by (rewrite Hc; split; nra).
  split; [exact Hcd |]. split.
  - intros H8. rewrite Hc. unfold m.
    assert (8 <= IZR level) by (apply IZR_le; assumption).
    rewrite Rmax_left by lra. ring.
  - unfold Rmin, Rmax.
    destruct (Rle_dec (5 / 10) (shootCooldown u)); repeat split; nra.
Qed.

(** X13.  With a random source that answers in [0, 1), a UFO
    constructed for a level of at least 1 has a shoot cooldown between
    30% and 100% of the base cooldown of its size (exactly 30% from level
    8 on), its first shot is delayed by a time between 0.5 s and that
    cooldown, and asked to shoot at once it declines and changes
    nothing. *)
Theorem new_ufo_holds_fire (w h px py : R) (sz : UFOSize) (level : Z) (g g' : Rng) :
  wf_tape (tape g) -> (1 <= level)%Z ->
  let u := fst (new w h (Some sz) (Some level) g) in
  let base := CONFIG.ufo.shootCooldown (config_of sz) in
  3 / 10 * base <= shootCooldown u <= base /\
  ((8 <= level)%Z -> shootCooldown u = 3 / 10 * base) /\
  Rmin (5 / 10) (shootCooldown u) <= shootTimer u <= Rmax (5 / 10) (shootCooldown u) /\
  tryShoot px py u g' = (None, u, g').
Proof.
  intros Hwf Hl. cbv zeta.
  destruct (new_ufo_gun w h sz level g Hwf Hl) as (A & B & C & D).
  split; [exact A |]. split; [exact B |]. split; [exact C |].
  apply tryShoot_not_ready. exact D.
Qed.

Lemma new_ufo_holds_fire_witness :
  shootCooldown (fst (new 800 600 (Some small) (Some 9%Z) (mkRng (fun _ => 1 / 2) 0)))
  = 3 / 10 * 1.
Proof.
  assert (Hwf : wf_tape (tape (mkRng (fun _ => 1 / 2) 0))) by (intros n; cbn; lra).
  destruct (new_ufo_holds_fire 800 600 0 0 small 9 (mkRng (fun _ => 1 / 2) 0)
              (mkRng (fun _ => 1 / 2) 0) Hwf) as (_ & H & _); [lia |].
  apply H. lia.
Defined.

(** X14.  When its shoot timer has run out, [tryShoot] answers an
    angle that misses the direction of the player, [atan2 dy dx], by at
    most 0.4 radians for a large and 0.15 radians for a small UFO, and
    restarts the timer at the cooldown; while the timer is positive it
    answers null and changes nothing. *)
Theorem tryShoot_spread (px py : R) (u : UFO) (g : Rng) :
  wf_tape (tape g) ->
  let dx := px - x (position (transform u)) in
  let dy := py - y (position (transform u)) in
  let inaccuracy := match size u with large => 4 / 10 | small => 15 / 100 end in
  (shootTimer u <= 0 ->
     exists angle,
       fst (tryShoot px py u g) = (Some angle, setShootTimer (shootCooldown u) u) /\
       Rabs (angle - atan2 dy dx) <= inaccuracy) /\
  (0 < shootTimer u -> tryShoot px py u g = (None, u, g)).
Proof.
  intros Hwf. cbv zeta. split; [| apply tryShoot_not_ready].
  intros Ht. unfold tryShoot, Rgtb. rewrite (Rltb_false _ _ Ht).
  rewrite bind_proj, randomRange_value. cbn [fst snd ret].
  eexists. split; [reflexivity |].
  cbn [position transform setShootTimer ufo_base baseEntity.scoreable_base size].
  pose proof (Hwf (cursor g)) as [T0 T1].
  apply Rabs_le. destruct (size u); split; nra.
Qed.

Lemma tryShoot_spread_witness :
  exists angle,
    fst (tryShoot 400 300
           (setShootTimer 0 (fst (new 800 600 (Some small) None (mkRng (fun _ => 1 / 2) 0))))
           (mkRng (fun _ => 1 / 2) 0))
    = (Some angle,
       setShootTimer 1
         (setShootTimer 0 (fst (new 800 600 (Some small) None (mkRng (fun _ => 1 / 2) 0))))).
Proof.
  assert (Hwf : wf_tape (tape (mkRng (fun _ => 1 / 2) 0))) by (intros n; cbn; lra).
  destruct (tryShoot_spread 400 300
              (setShootTimer 0
                 (fst (new 800 600 (Some small) None (mkRng (fun _ => 1 / 2) 0))))
              (mkRng (fun _ => 1 / 2) 0) Hwf) as (H & _).
  destruct H as (angle & E & _); [cbn; lra |].
  exists angle. rewrite E. f_equal. f_equal. cbn.
  rewrite Rmax_floor_level_1. ring.
Defined.

End UFOFlight.

(* ================================================================== *)
(** ** entities/gravityWell.ts: the life of a well and its animation *)

Section GravityWellLife.

Import gravityWell.

Lemma well_updates_fields (dts : list R) : forall w : GravityWell,
  well_base (updates dts w) = baseEntity.TimedEntity_updates dts (well_base w) /\
  age (updates dts w) = age w + ship.elapsed dts /\
  pulsePhase (updates dts w) = pulsePhase w + 4 * ship.elapsed dts /\
  rotationAngle (updates dts w) = rotationAngle w + 2 * ship.elapsed dts /\
  pullStrength (updates dts w) = pullStrength w /\
  pullRadius (updates dts w) = pullRadius w /\
  visualRadius (updates dts w) = visualRadius w.
Proof.
  induction dts as [| dt dts IH]; intros w.
  - cbn. repeat split; ring.
  - change (updates (dt :: dts) w) with (updates dts (update dt w)).
    change (ship.elapsed (dt :: dts)) with (dt + ship.elapsed dts).
    destruct (IH (update dt w)) as (B & A & Ph & Ro & S & Rd & V).
    rewrite B, A, Ph, Ro, S, Rd, V. cbn. repeat split; ring.
Qed.

Lemma getPullForce_depends (p : Vector2) (w w' : GravityWell) :
  position (transform w) = position (transform w') ->
  pullRadius w = pullRadius w' ->
  pullStrength w = pullStrength w' ->
  fst (getPullForce p w) = fst (getPullForce p w').
Proof.
  intros Hp Hr Hs. unfold getPullForce. cbv zeta. rewrite Hp, Hr, Hs.
  destruct (_ || _); reflexivity.
Qed.

(** X15.  A gravity well made for a duration D stays where it was
    placed; over any run of frames of non-negative length its age is the
    time elapsed, the force it exerts on any point is the force it
    exerted when new, it is still active exactly when less than D has
    elapsed, and while it is active its fade value lies in [0, 1]. *)
Theorem gravityWell_lifecycle (x0 y0 D P : R) (p : Vector2) (dts : list R) :
  dts <> [] -> Forall (fun dt => 0 <= dt) dts ->
  let w0 := new x0 y0 (Some D) (Some P) in
  let w := updates dts w0 in
  position (transform w) = mkVector2 x0 y0 /\
  age w = ship.elapsed dts /\
  fst (getPullForce p w) = fst (getPullForce p w0) /\
  (isActive w = true <-> ship.elapsed dts < D) /\
  (isActive w = true -> 0 <= getFade w <= 1).
Proof.
  intros Hne Hpos. cbv zeta.
  set (w0 := new x0 y0 (Some D) (Some P)).
  destruct (well_updates_fields dts w0) as (B & A & _ & _ & S & Rd & _).
  destruct (baseEntity.TimedEntity_updates dts (well_base w0)) as [e l] eqn:E.
  destruct (TimedEntity_updates_motion dts (well_base w0)) as (L & _ & _ & Pm).
  pose proof (TimedEntity_updates_active dts (well_base w0) eq_refl Hne Hpos) as Act.
  rewrite E in L, Pm, Act. cbn [baseEntity.lifetime baseEntity.timed_base] in L, Pm, Act.
  pose proof (elapsed_nonneg dts Hpos) as He.
  set (w := updates dts w0) in *.
  assert (Hpos' : position (transform w) = mkVector2 x0 y0).
  { rewrite B. cbn [baseEntity.timed_base]. rewrite Pm.
    unfold w0, new, math.add, math.scale. cbn. f_equal; ring. }
  assert (Hact : isActive w = true <-> ship.elapsed dts < D).
  { rewrite B. cbn [baseEntity.timed_base]. rewrite Act. unfold w0, new. cbn.
    reflexivity. }
  split; [exact Hpos' |]. split; [rewrite A; unfold w0; cbn; ring |].
  split; [apply getPullForce_depends; [rewrite Hpos'; reflexivity | exact Rd | exact S] |].
  split; [exact Hact |].
  intros Hw. apply Hact in Hw.
  unfold getFade. rewrite A, B. cbn [baseEntity.lifetime]. rewrite L.
  unfold w0, new. cbn.
  destruct (Rlt_dec (0 + ship.elapsed dts) (5 / 10)) as [H1 | H1].
  - rewrite (Rltb_true _ _ H1). lra.
  - rewrite Rltb_false by lra.
    destruct (Rlt_dec (D - ship.elapsed dts) 1) as [H2 | H2].
    + rewrite (Rltb_true _ _ H2). lra.
    + rewrite Rltb_false by lra. lra.
Qed.

Lemma gravityWell_lifecycle_witness :
  isActive (updates [1; 1] (new 100 100 (Some 6) (Some 150))) = true.
Proof.
  destruct (gravityWell_lifecycle 100 100 6 150 (mkVector2 0 0) [1; 1])
    as (_ & _ & _ & H & _); [discriminate | repeat constructor; lra |].
  apply H. cbn. lra.
Defined.

Lemma distance_polar (p : Vector2) (a r : R) :
  math.distance p (mkVector2 (x p + cos a * r) (y p + sin a * r)) = Rabs r.
Proof.
  unfold math.distance. cbn [x y].
  replace ((x p + cos a * r - x p) * (x p + cos a * r - x p)
           + (y p + sin a * r - y p) * (y p + sin a * r - y p))
    with ((Rsqr (sin a) + Rsqr (cos a)) * Rsqr r) by (unfold Rsqr; ring).
  rewrite sin2_cos2, Rmult_1_l. apply sqrt_Rsqr_abs.
Qed.

Lemma getPulse_bounds (w : GravityWell) : 4 / 10 <= getPulse w <= 1.
Proof. unfold getPulse. pose proof (SIN_bound (pulsePhase w)). lra. Qed.

(** X16.  The animation of a well stays within its visual radius: the
    pulse lies in [0.4, 1]; [getSpiralPoints] answers 4 arms of 10 points,
    every one of them within the visual radius of the centre; and the four
    ring radii are non-negative, increasing and at most 1.3 times the
    visual radius. *)
Theorem gravityWell_animation (w : GravityWell) :
  0 <= visualRadius w ->
  4 / 10 <= getPulse w <= 1 /\
  List.length (getSpiralPoints w) = 4%nat /\
  Forall (fun arm =>
            List.length arm = 10%nat /\
            Forall (fun p => math.distance (position (transform w)) p <= visualRadius w)
                   arm)
         (getSpiralPoints w) /\
  (exists r0 r1 r2 r3,
     getRingRadii w = [r0; r1; r2; r3] /\
     0 <= r0 <= r1 /\ r1 <= r2 <= r3 /\ r3 <= 13 / 10 * visualRadius w).
Proof.
  intros Hv. pose proof (getPulse_bounds w) as Hp.
  split; [exact Hp |]. split; [| split].
  - unfold getSpiralPoints. cbv zeta. rewrite length_map, length_seq. reflexivity.
  - unfold getSpiralPoints. cbv zeta. apply Forall_forall. intros arm Harm.
    apply in_map_iff in Harm. destruct Harm as (k & <- & _).
    split; [rewrite length_map, length_seq; reflexivity |].
    apply Forall_forall. intros q Hq.
    apply in_map_iff in Hq. destruct Hq as (i & <- & Hi).
    apply in_seq in Hi. unfold pointsPerArm, CONFIG.visual.gravityWellPointsPerArm in *.
    rewrite distance_polar.
    assert (Ht : 0 <= INR i / INR 10 < 1).
    { assert (H10 : INR 10 = 10) by (cbn; lra).
      assert (0 <= INR i) by apply pos_INR.
      assert (INR i < INR 10) by (apply lt_INR; lia).
      rewrite H10 in *. lra. }
    set (t := INR i / INR 10) in *.
    clearbody t.
    assert (Htp : 0 <= t * getPulse w <= 1) by nra.
    rewrite Rmult_assoc. rewrite Rabs_right by (apply Rle_ge; nra).
    nra.
  - unfold getRingRadii. cbv zeta.
    do 4 eexists. split; [reflexivity |].
    set (pulse := getPulse w) in *. repeat split; nra.
Qed.

Lemma gravityWell_animation_witness :
  4 / 10 <= getPulse (new 400 300 None None) <= 1.
Proof.
  apply (gravityWell_animation (new 400 300 None None)).
  cbn. unfold CONFIG.gravityWell.visualRadius. lra.
Defined.

End GravityWellLife.

(* ================================================================== *)
(** ** systems/spawner.ts: what the factories promise *)

Section SpawnContracts.

Import spawner.

Lemma wellCandidate_in_margins (w h : R) (g : Rng) (j : nat) :
  wf_tape (tape g) -> 200 <= w -> 200 <= h ->
  100 <= x (wellCandidate w h g j) <= w - 100 /\
  100 <= y (wellCandidate w h g j) <= h - 100.
Proof.
  intros Hwf Hw Hh. unfold wellCandidate, CONFIG.gravityWell.spawnMargin. cbn [x y].
  pose proof (Hwf (cursor g + 2 * j)%nat). pose proof (Hwf (cursor g + 2 * j + 1)%nat).
  split; split; nra.
Qed.

(** X17.  With a random source that answers in [0, 1), on a screen of
    at least 200 x 200 and from level 1 on, [createGravityWell] returns
    (with fuel for its 20 attempts) an active well that lies at least the
    spawn margin of 100 inside every edge of the screen, lasts between 6
    and 10 seconds, pulls within a radius of 300 and has the strength
    150 + 40 (level - 1) capped at 500, which it reaches at level 10. *)
Theorem createGravityWell_spec (fuel : nat) (w h : R) (avoid : Vector2) (level : Z)
        (g : Rng) :
  wf_tape (tape g) -> 200 <= w -> 200 <= h -> (1 <= level)%Z -> (20 <= fuel)%nat ->
  exists (well : gravityWell.GravityWell) (g' : Rng),
    createGravityWell fuel w h avoid level g = Ok (well, g') /\
    isActive well = true /\
    100 <= x (position (transform well)) <= w - 100 /\
    100 <= y (position (transform well)) <= h - 100 /\
    6 <= baseEntity.lifetime well < 10 /\
    gravityWell.pullRadius well = 300 /\
    gravityWell.pullStrength well = Rmin 500 (150 + (IZR level - 1) * 40) /\
    150 <= gravityWell.pullStrength well <= 500 /\
    ((10 <= level)%Z -> gravityWell.pullStrength well = 500).
Proof.
  intros Hwf Hw Hh Hl Hf.
  destruct (placeLoop_spec fuel 0 w h avoid g) as (k & Hk & Hres & _ & _);
    [lia | lia |].
  replace (k - 0 - 1)%nat with (k - 1)%nat in * by lia.
  replace (k - 0)%nat with k in Hres by lia.
  destruct (wellCandidate_in_margins w h g (k - 1) Hwf Hw Hh) as [Hx Hy].
  set (c := wellCandidate w h g (k - 1)) in *. clearbody c.
  unfold createGravityWell. change (Z.of_nat 0) with 0%Z in Hres. rewrite Hres.
  rewrite randomRange_value. cbn [tape cursor].
  eexists _, _. split; [reflexivity |].
  pose proof (getGravityWellPullStrength_bounds level Hl) as Hs.
  unfold CONFIG.gravityWell.pullStrength.min, CONFIG.gravityWell.pullStrength.max in Hs.
  pose proof (Hwf (cursor g + 2 * k)%nat) as Ht.
  cbn. cbn in Ht.
  unfold CONFIG.gravityWell.duration.min, CONFIG.gravityWell.duration.max,
    CONFIG.gravityWell.pullRadius.
  split; [reflexivity |]. split; [exact Hx |]. split; [exact Hy |].
  split; [lra |]. split; [reflexivity |]. split; [reflexivity |].
  split; [exact Hs |].
  intros H10. apply IZR_le in H10.
  unfold getGravityWellPullStrength, CONFIG.gravityWell.pullStrength.min,
    CONFIG.gravityWell.pullStrength.max.
  apply Rmin_left. lra.
Qed.

Lemma createGravityWell_spec_witness :
  exists (well : gravityWell.GravityWell) (g' : Rng),
    createGravityWell 20 800 600 (mkVector2 400 300) 12 (mkRng (fun _ => 1 / 2) 0)
    = Ok (well, g') /\
    gravityWell.pullStrength well = 500.
Proof.
  destruct (createGravityWell_spec 20 800 600 (mkVector2 400 300) 12
              (mkRng (fun _ => 1 / 2) 0))
    as (well & g' & E & _ & _ & _ & _ & _ & _ & _ & H);
    [intros n; cbn; lra | lra | lra | lia | lia |].
  exists well, g'. split; [exact E | apply H; lia].
Defined.

(** *** Asteroids are placed clear of the ship *)

Section Placed.

Variables (w h : R) (avoid : Vector2) (r : R).
Hypotheses (Hw : 0 < w) (Hh : 0 < h).

Lemma samplePosition_outside (fuel : nat) : forall (g : Rng) x0 y0 g',
  wf_tape (tape g) ->
  samplePosition fuel w h avoid r g = Ok (x0, y0, g') ->
  placed w h avoid r (mkVector2 x0 y0) /\ tape g' = tape g.
Proof.
  induction fuel as [| fuel IH]; intros g x0 y0 g' Hwf E; [discriminate |].
  rewrite samplePosition_step in E. cbv zeta in E.
  destruct (_ && _) eqn:Z in E.
  - destruct (IH (mkRng (tape g) (S (S (cursor g)))) _ _ _ Hwf E) as [P T].
    split; [exact P | exact T].
  - injection E as <- <- <-. split; [| reflexivity].
    pose proof (Hwf (cursor g)). pose proof (Hwf (S (cursor g))).
    unfold placed. cbn [x y]. split; [| split; nra].
    intros Hin. apply (zone_test w h avoid r (tape g) (cursor g)) in Hin.
    congruence.
Qed.

Lemma asteroidsLoop_outside (fuel todo : nat) : forall acc (g : Rng) res g',
  wf_tape (tape g) ->
  asteroidsLoop fuel todo w h avoid r acc g = Ok (res, g') ->
  Forall (fun a : asteroid.Asteroid => placed w h avoid r (position (transform a))) acc ->
  Forall (fun a : asteroid.Asteroid => placed w h avoid r (position (transform a))) res.
Proof.
  induction todo as [| todo IH]; intros acc g res g' Hwf E Hacc.
  - cbn in E. injection E as <- <-. exact Hacc.
  - cbn [asteroidsLoop] in E.
    destruct (samplePosition fuel w h avoid r g) as [[[x0 y0] g1] | e] eqn:Es;
      [| discriminate].
    destruct (samplePosition_outside fuel g x0 y0 g1 Hwf Es) as [P T].
    pose proof (new_without_direction x0 y0 large g1) as Hnew.
    destruct (asteroid.new x0 y0 large None g1) as [a g2].
    destruct Hnew as (_ & Hp & _ & _ & T2).
    cbn [tape] in T2.
    apply (IH (acc ++ [a]) g2 res g'); [rewrite T2, T; exact Hwf | exact E |].
    apply Forall_app. split; [exact Hacc |].
    constructor; [| constructor]. rewrite Hp. exact P.
Qed.

Lemma placed_no_collision (e : Entity) (a : asteroid.Asteroid) :
  position (transform e) = avoid ->
  radius e + radius a <= r ->
  placed w h avoid r (position (transform a)) ->
  collision.checkCollision e a = false.
Proof.
  intros He Hr (Hout & _). unfold collision.checkCollision.
  destruct (negb (isActive e) || negb (isActive a)); [reflexivity |].
  apply Rltb_false. rewrite He. unfold math.distance. cbv zeta.
  set (dx := x (position (transform a)) - x avoid) in *.
  set (dy := y (position (transform a)) - y avoid) in *.
  destruct (Rle_dec r 0) as [Hneg | Hpos].
  - pose proof (sqrt_pos (dx * dx + dy * dy)). lra.
  - assert (Hr2 : r * r <= dx * dx + dy * dy).
    { destruct (Rlt_dec (Rabs dx) r) as [Hx | Hx];
        destruct (Rlt_dec (Rabs dy) r) as [Hy | Hy].
      - exfalso. apply Hout. split; assumption.
      - assert (r <= Rabs dy) by lra.
        assert (Rabs dy * Rabs dy = dy * dy)
          by (unfold Rabs; destruct (Rcase_abs dy); ring).
        nra.
      - assert (r <= Rabs dx) by lra.
        assert (Rabs dx * Rabs dx = dx * dx)
          by (unfold Rabs; destruct (Rcase_abs dx); ring).
        nra.
      - assert (r <= Rabs dx) by lra.
        assert (Rabs dx * Rabs dx = dx * dx)
          by (unfold Rabs; destruct (Rcase_abs dx); ring).
        nra. }
    assert (r <= sqrt (dx * dx + dy * dy)).
    { rewrite <- (sqrt_square r) by lra. apply sqrt_le_1; nra. }
    lra.
Qed.

End Placed.

(** X18.  With a random source that answers in [0, 1) and keeps
    offering positions outside the exclusion zone, [createAsteroids]
    returns, given enough fuel, exactly [count] large active asteroids,
    each on the screen and outside the square of half-width [avoidRadius]
    (100 by default) around the position to avoid: none of them collides
    with an entity at that position whose radius plus the asteroid's is
    at most [avoidRadius], such as the ship. *)
Theorem createAsteroids_safe (count : Z) (w h : R) (avoid : Vector2)
        (avoidRadius_arg : option R) (g : Rng) :
  let r := match avoidRadius_arg with Some r => r | None => 100 end in
  wf_tape (tape g) -> 0 < w -> 0 < h ->
  eventuallyOutside w h avoid r (tape g) ->
  exists (fuel0 : nat) (wave : list asteroid.Asteroid) (g' : Rng),
    (forall fuel, (fuel0 <= fuel)%nat ->
       createAsteroids fuel count w h avoid avoidRadius_arg g = Ok (wave, g')) /\
    List.length wave = Z.to_nat count /\
    Forall (fun a : asteroid.Asteroid =>
              asteroid.size a = large /\ isActive a = true /\
              placed w h avoid r (position (transform a)) /\
              forall e : Entity,
                position (transform e) = avoid -> radius e + radius a <= r ->
                collision.checkCollision e a = false) wave.
Proof.
  intros r Hwf Hw Hh Hfair.
  destruct (asteroidsLoop_returns w h avoid r (tape g) (Z.to_nat count) Hfair [] g eq_refl)
    as (fuel0 & wave & g' & Hloop & Hlen & Hall & _).
  exists fuel0, wave, g'. split; [| split].
  - intros fuel Hf. unfold createAsteroids. apply Hloop. exact Hf.
  - exact Hlen.
  - pose proof (asteroidsLoop_outside w h avoid r Hw Hh fuel0 (Z.to_nat count) [] g
                  wave g' Hwf (Hloop fuel0 (Nat.le_refl _)) (Forall_nil _)) as Hplaced.
    rewrite Forall_forall in *. intros a Ha.
    destruct (Hall a Ha) as [[_ Hact] Hsize].
    split; [exact Hsize |]. split; [exact Hact |]. split; [apply Hplaced; exact Ha |].
    intros e He Hr. apply (placed_no_collision w h avoid r e a He Hr).
    apply Hplaced. exact Ha.
Qed.

Lemma createAsteroids_safe_witness :
  exists (fuel0 : nat) (wave : list asteroid.Asteroid) (g' : Rng),
    (forall fuel, (fuel0 <= fuel)%nat ->
       createAsteroids fuel 4 800 600 (mkVector2 400 300) None (mkRng (fun _ => 0) 0)
       = Ok (wave, g')) /\
    List.length wave = 4%nat.
Proof.
  destruct (createAsteroids_safe 4 800 600 (mkVector2 400 300) None (mkRng (fun _ => 0) 0))
    as (fuel0 & wave & g' & H1 & H2 & _).
  - intros n. cbn. lra.
  - lra.
  - lra.
  - intros n. exists 0%nat. unfold inZone. cbn.
    intros [H _]. apply Rabs_def2 in H. lra.
  - exists fuel0, wave, g'. split; [exact H1 | exact H2].
Defined.

(** X19.  With a random source that answers in [0, 1) and a screen of
    positive height, [createUFO] makes a small UFO exactly when its first
    draw is below the chance 0.3 + 0.05 level, capped at 0.7 (so from
    level 8 on the chance is 0.7), and a large one otherwise; the UFO
    has the radius and points of its size, starts one radius outside the
    left or the right edge flying towards the screen at the speed of its
    size, between 20% and 80% of the screen height. *)
Theorem createUFO_spec (w h : R) (level : Z) (g : Rng) :
  wf_tape (tape g) -> 0 < h ->
  let u := fst (createUFO w h level g) in
  let config := ufo.config_of (ufo.size u) in
  let chance := Rmin (3 / 10 + IZR level * (5 / 100)) (7 / 10) in
  (ufo.size u = ufo.small <-> tape g (cursor g) < chance) /\
  ((8 <= level)%Z -> chance = 7 / 10) /\
  radius u = CONFIG.ufo.radius config /\
  baseEntity.points u = CONFIG.ufo.points config /\
  isActive u = true /\
  2 / 10 * h <= y (position (transform u)) < 8 / 10 * h /\
  ((x (position (transform u)) = - radius u /\
    velocity u = mkVector2 (CONFIG.ufo.speed config) 0) \/
   (x (position (transform u)) = w + radius u /\
    velocity u = mkVector2 (- CONFIG.ufo.speed config) 0)).
Proof.
  intros Hwf Hh. cbv zeta. unfold createUFO.
  rewrite bind_proj. cbn [Math_random fst snd].
  fold (Rmin (3 / 10 + IZR level * (5 / 100)) (7 / 10)).
  unfold CONFIG.ufo.smallChanceBase, CONFIG.ufo.smallChancePerLevel,
    CONFIG.ufo.smallChanceMax.
  set (chance := Rmin (3 / 10 + IZR level * (5 / 100)) (7 / 10)).
  set (sz := if tape g (cursor g) <? chance then ufo.small else ufo.large).
  assert (Hsz : ufo.size (fst (ufo.new w h (Some sz) None (mkRng (tape g) (S (cursor g)))))
                = sz) by reflexivity.
  rewrite Hsz.
  split; [| split].
  - unfold sz. destruct (Rlt_dec (tape g (cursor g)) chance) as [H | H].
    + rewrite (Rltb_true _ _ H). split; trivial.
    + rewrite Rltb_false by lra. split; [discriminate | intros; lra].
  - intros H8. apply IZR_le in H8. unfold chance. apply Rmin_right. lra.
  - unfold ufo.new. rewrite !bind_proj, !randomRange_value. cbn.
    pose proof (Hwf (S (S (S (cursor g))))) as Ht.
    split; [reflexivity |]. split; [reflexivity |]. split; [reflexivity |].
    split; [nra |].
    match goal with
    | |- context [if ?b then _ else _] => destruct b
    end; [left | right]; split; try reflexivity; f_equal; ring.
Qed.

Lemma createUFO_spec_witness :
  ufo.size (fst (createUFO 800 600 9 (mkRng (fun _ => 1 / 2) 0))) = ufo.small.
Proof.
  destruct (createUFO_spec 800 600 9 (mkRng (fun _ => 1 / 2) 0)) as (H & H8 & _).
  - intros n. cbn. lra.
  - lra.
  - apply H. rewrite H8 by lia. cbn. lra.
Defined.

End SpawnContracts.

(* ================================================================== *)
(** ** entities/debris.ts: the wreck of an outline *)

Section DebrisLines.

Import debris.

Variables (pos : Vector2) (shipRotation : R) (shipShape : Shape).

Lemma linesLoop_spec (todo : nat) : forall (i : nat) (acc : list DebrisLine) (g : Rng),
  wf_tape (tape g) ->
  exists news : list DebrisLine,
    fst (linesLoop todo i pos shipRotation shipShape acc g) = acc ++ news /\
    List.length news = todo /\
    forall j line, nth_error news j = Some line ->
                   edge_line pos shipRotation shipShape (i + j) line.
Proof.
  induction todo as [| todo IH]; intros i acc g Hwf.
  - exists []. cbn. rewrite app_nil_r. split; [reflexivity | split; [reflexivity |]].
    intros [| j] line E; discriminate.
  - cbn [linesLoop]. rewrite !bind_proj, !randomRange_value. cbn [fst snd tape cursor].
    match goal with
    | |- context [linesLoop todo (S i) pos shipRotation shipShape (acc ++ [?l]) ?g'] =>
        destruct (IH (S i) (acc ++ [l]) g' Hwf) as (news & E & Hlen & Hall);
        exists (l :: news)
    end.
    rewrite E, <- app_assoc. split; [reflexivity |]. split; [cbn; lia |].
    intros [| j] line Hj.
    + injection Hj as <-. rewrite Nat.add_0_r. unfold edge_line.
      cbn [start end_ line_lifetime maxLifetime line_rotation line_velocity
           line_angularVelocity].
      pose proof (Hwf (cursor g)). pose proof (Hwf (S (cursor g))).
      pose proof (Hwf (S (S (cursor g)))).
      unfold CONFIG.visual.debrisSpeed.
      repeat split; try lra.
      * match goal with
        | |- _ <= math.magnitude (mkVector2 (cos ?a * ?s) (sin ?a * ?s)) =>
            change (mkVector2 (cos a * s) (sin a * s))
              with (math.scale (mkVector2 (cos a) (sin a)) s)
        end.
        rewrite magnitude_unit_scaled by nra. nra.
      * match goal with
        | |- math.magnitude (mkVector2 (cos ?a * ?s) (sin ?a * ?s)) < _ =>
            change (mkVector2 (cos a * s) (sin a * s))
              with (math.scale (mkVector2 (cos a) (sin a)) s)
        end.
        rewrite magnitude_unit_scaled by nra. nra.
    + replace (i + S j)%nat with (S i + j)%nat by lia. apply Hall. exact Hj.
Qed.

(** X20.  With a random source that answers in [0, 1), the debris of
    an outline has one line for every edge of the outline, in order: the
    [k]-th line runs from vertex [k] to the next vertex, turned and moved
    with the entity, so each line ends where the next one starts and the
    last one where the first starts; every line has the full lifetime of
    1.5 s, a speed between 50 and 100 and a spin between -3 and 3, and
    the debris is active. *)
Theorem debris_new_spec (color0 : string) (g : Rng) :
  wf_tape (tape g) ->
  let d := fst (new pos shipRotation shipShape color0 g) in
  List.length (lines d) = List.length shipShape /\
  debris_isActive d = true /\
  (forall k line, nth_error (lines d) k = Some line ->
                  edge_line pos shipRotation shipShape k line) /\
  (forall k line next,
     nth_error (lines d) k = Some line ->
     nth_error (lines d) (Nat.modulo (k + 1) (List.length shipShape)) = Some next ->
     end_ line = start next).
Proof.
  intros Hwf. cbv zeta. unfold new. rewrite bind_proj. cbn [ret fst lines debris_isActive].
  destruct (linesLoop_spec (List.length shipShape) 0 [] g Hwf) as (news & E & Hlen & Hall).
  rewrite E. cbn [app].
  split; [exact Hlen |]. split; [reflexivity |]. split.
  - intros k line Hk. apply (Hall k line Hk).
  - intros k line next Hk Hn.
    destruct (Hall k line Hk) as (_ & He & _).
    destruct (Hall _ next Hn) as (Hs & _).
    cbn [Nat.add] in He, Hs. rewrite He, Hs. reflexivity.
Qed.

End DebrisLines.

Lemma debris_new_spec_witness :
  List.length (debris.lines (fst (debris.new (mkVector2 400 300) 0 ship.SHIP_SHAPE
                                    "#0ff"%string (mkRng (fun _ => 1 / 2) 0)))) = 4%nat.
Proof.
  apply (debris_new_spec (mkVector2 400 300) 0 ship.SHIP_SHAPE "#0ff"%string
           (mkRng (fun _ => 1 / 2) 0)).
  intros n. cbn. lra.
Defined.

Section DebrisMotion.

Import debris.

Lemma updateLine_live (dt : R) (line : DebrisLine) :
  0 < line_lifetime line ->
  math.distance (start (updateLine dt line)) (end_ (updateLine dt line))
  = math.distance (start line) (end_ line) /\
  midpoint (updateLine dt line)
  = math.add (midpoint line) (math.scale (line_velocity line) dt) /\
  line_lifetime (updateLine dt line) = line_lifetime line - dt /\
  maxLifetime (updateLine dt line) = maxLifetime line /\
  line_velocity (updateLine dt line) = line_velocity line.
Proof.
  intros Hl. unfold updateLine. rewrite Rleb_false by lra.
  destruct line as [[sx sy] [ex ey] [vx vy] w rot l ml].
  cbn. split; [| split; [| repeat split]].
  - unfold math.distance. cbn. f_equal.
    set (c := cos (w * dt)). set (s := sin (w * dt)).
    transitivity (((ex - sx) * (ex - sx) + (ey - sy) * (ey - sy))
                  * (Rsqr s + Rsqr c)).
    + unfold Rsqr. field.
    + unfold s, c. rewrite sin2_cos2. ring.
  - unfold midpoint, math.add, math.scale. cbn. f_equal; field.
Qed.

Lemma updateLine_dead (dt : R) (line : DebrisLine) :
  line_lifetime line <= 0 -> updateLine dt line = line.
Proof. intros Hl. unfold updateLine. rewrite (Rleb_true _ _ Hl). reflexivity. Qed.

(** X21.  [update] moves a line that has lifetime left as a rigid
    segment: its length stays the same, its midpoint drifts by velocity
    times dt and its lifetime runs down by dt; a line whose lifetime has
    run out is left as it is.  And for a line with a lifetime between 0
    and its positive maximum, [getAlpha] lies in [0, 1] and is 1 during
    the first half of the lifetime. *)
Theorem debris_line_motion (dt : R) (line : DebrisLine) :
  (0 < line_lifetime line ->
     math.distance (start (updateLine dt line)) (end_ (updateLine dt line))
     = math.distance (start line) (end_ line) /\
     midpoint (updateLine dt line)
     = math.add (midpoint line) (math.scale (line_velocity line) dt) /\
     line_lifetime (updateLine dt line) = line_lifetime line - dt) /\
  (line_lifetime line <= 0 -> updateLine dt line = line) /\
  (0 < maxLifetime line -> 0 <= line_lifetime line <= maxLifetime line ->
     0 <= getAlpha line <= 1 /\
     (maxLifetime line / 2 <= line_lifetime line -> getAlpha line = 1)).
Proof.
  split; [| split].
  - intros Hl. destruct (updateLine_live dt line Hl) as (A & B & C & _).
    repeat split; assumption.
  - apply updateLine_dead.
  - intros Hm [H0 H1]. unfold getAlpha.
    destruct (Rlt_dec (line_lifetime line) (maxLifetime line / 2)) as [H | H].
    + rewrite (Rltb_true _ _ H). split; [| intros; lra].
      split.
      * apply Rmult_le_pos; [lra |]. left. apply Rinv_0_lt_compat. lra.
      * apply Rmult_le_reg_r with (maxLifetime line / 2); [lra |].
        field_simplify; lra.
    + rewrite Rltb_false by lra. split; [lra | reflexivity].
Qed.

Lemma debris_line_motion_witness :
  line_lifetime
    (updateLine (1 / 2)
       (mkDebrisLine (mkVector2 0 0) (mkVector2 10 0) (mkVector2 1 1) 1 0 (3 / 2) (3 / 2)))
  = 3 / 2 - 1 / 2.
Proof.
  destruct (debris_line_motion (1 / 2)
              (mkDebrisLine (mkVector2 0 0) (mkVector2 10 0) (mkVector2 1 1) 1 0
                            (3 / 2) (3 / 2))) as (H & _).
  apply H. cbn. lra.
Defined.

(** *** Expiry *)

Lemma update_uniform (dt L : R) (d : Debris) :
  lines d <> [] ->
  Forall (fun line => line_lifetime line = L) (lines d) ->
  lines (update dt d) <> [] /\
  Forall (fun line => line_lifetime line = if L <=? 0 then L else L - dt)
         (lines (update dt d)) /\
  debris_isActive (update dt d) = negb (L <=? 0) && (L - dt >? 0).
Proof.
  intros Hne Hall. unfold update. cbn [lines debris_isActive].
  split; [| split].
  - destruct (lines d); [contradiction | discriminate].
  - apply Forall_map. eapply Forall_impl; [| exact Hall].
    intros ln E. cbn beta in *. unfold updateLine. rewrite E.
    destruct (L <=? 0); [exact E | reflexivity].
  - destruct (lines d) as [| l0 ls]; [contradiction |].
    assert (Hex : forall ls',
               Forall (fun line => line_lifetime line = L) ls' ->
               existsb (fun line => negb (line_lifetime line <=? 0)
                                    && (line_lifetime (updateLine dt line) >? 0)) ls'
               = match ls' with
                 | [] => false
                 | _ => negb (L <=? 0) && (L - dt >? 0)
                 end).
    { induction 1 as [| l ls' Hl Hls IH]; [reflexivity |].
      cbn [existsb]. rewrite IH. unfold updateLine. rewrite Hl.
      destruct (L <=? 0) eqn:E0; cbn.
      - destruct ls'; reflexivity.
      - destruct (L - dt >? 0); cbn; [reflexivity | destruct ls'; reflexivity]. }
    rewrite (Hex _ Hall). reflexivity.
Qed.

Lemma debris_updates_active (dts : list R) : forall (L : R) (d : Debris),
  dts <> [] -> Forall (fun dt => 0 <= dt) dts ->
  lines d <> [] ->
  Forall (fun line => line_lifetime line = L) (lines d) ->
  (debris_isActive (updates dts d) = true <-> 0 < L /\ ship.elapsed dts < L).
Proof.
  induction dts as [| dt dts IH]; intros L d Hne Hpos Hl Hall; [contradiction |].
  change (updates (dt :: dts) d) with (updates dts (update dt d)).
  change (ship.elapsed (dt :: dts)) with (dt + ship.elapsed dts).
  inversion Hpos as [| ? ? Hdt Hrest]; subst.
  pose proof (elapsed_nonneg dts Hrest) as He.
  destruct (update_uniform dt L d Hl Hall) as (Hl' & Hall' & Hact).
  destruct dts as [| dt' dts'].
  - cbn [updates fold_left]. rewrite Hact. unfold Rgtb.
    rewrite andb_true_iff, negb_true_iff, Rleb_iff_false, Rltb_iff.
    unfold ship.elapsed. cbn. split; intros [A B]; split; lra.
  - rewrite (IH _ (update dt d)) by (try discriminate; eassumption).
    destruct (Rle_dec L 0) as [H | H].
    + rewrite (Rleb_true _ _ H). split; intros [A B]; lra.
    + rewrite Rleb_false by lra. split; intros [A B]; split; lra.
Qed.

(** X22.  With a random source that answers in [0, 1), the debris of
    a non-empty outline is, after at least one frame of non-negative
    length, still active exactly when less than its lifetime of 1.5 s
    has elapsed. *)
Theorem debris_expiry (pos : Vector2) (rot : R) (shape0 : Shape) (color0 : string)
        (g : Rng) (dts : list R) :
  wf_tape (tape g) -> shape0 <> [] ->
  dts <> [] -> Forall (fun dt => 0 <= dt) dts ->
  (debris_isActive (updates dts (fst (new pos rot shape0 color0 g))) = true
   <-> ship.elapsed dts < 15 / 10).
Proof.
  intros Hwf Hshape Hne Hpos.
  assert (Hd : lines (fst (new pos rot shape0 color0 g)) <> [] /\
               Forall (fun line => line_lifetime line = 15 / 10)
                      (lines (fst (new pos rot shape0 color0 g)))).
  { unfold new. rewrite bind_proj. cbn [ret fst lines].
    destruct (linesLoop_spec pos rot shape0 (List.length shape0) 0 [] g Hwf)
      as (news & E & Hlen & Hall).
    rewrite E. cbn [app]. split.
    - destruct news; [| discriminate]. destruct shape0; [contradiction | discriminate].
    - apply Forall_forall. intros line Hin.
      apply In_nth_error in Hin. destruct Hin as (k & Hk).
      destruct (Hall k line Hk) as (_ & _ & Hlt & _). exact Hlt. }
  destruct Hd as [Hl Hall].
  rewrite (debris_updates_active dts (15 / 10) _ Hne Hpos Hl Hall).
  split; [intros [_ H]; exact H | intros H; split; lra].
Qed.

Lemma debris_expiry_witness :
  debris_isActive
    (updates [1 / 2; 1 / 2]
       (fst (new (mkVector2 400 300) 0 ship.SHIP_SHAPE "#0ff"%string
                 (mkRng (fun _ => 1 / 2) 0)))) = true.
Proof.
  apply (debris_expiry (mkVector2 400 300) 0 ship.SHIP_SHAPE "#0ff"%string
           (mkRng (fun _ => 1 / 2) 0) [1 / 2; 1 / 2]).
  - intros n. cbn. lra.
  - discriminate.
  - discriminate.
  - repeat constructor; lra.
  - unfold ship.elapsed. cbn. lra.
Defined.

End DebrisMotion.

(* ================================================================== *)
(** ** entities/hyperspaceParticle.ts: the ring of particles *)

Section ParticleRing.

Import hyperspaceParticle.

Lemma new_particles (c : Vector2) (ph : Phase) (n : nat) :
  List.length (particles (new c ph (Some n))) = n /\
  Forall (fun p => exists a,
            offset p = mkVector2 (cos a * 15) (sin a * 15) /\
            particle_position p = math.add c (offset p) /\ alpha p = 1)
         (particles (new c ph (Some n))).
Proof.
  unfold new. cbn [particles]. split; [rewrite length_map, length_seq; reflexivity |].
  apply Forall_forall. intros p Hp. apply in_map_iff in Hp.
  destruct Hp as (i & <- & _). eexists. cbn. repeat split.
Qed.

Lemma updateParticle_ring (c : Vector2) (ph : Phase) (progress a : R)
      (p : HyperspaceParticleData) :
  offset p = mkVector2 (cos a * 15) (sin a * 15) ->
  offset (updateParticle ph c progress p) = offset p /\
  particle_position (updateParticle ph c progress p)
  = mkVector2 (x c + cos a * ringRadius ph progress)
              (y c + sin a * ringRadius ph progress) /\
  alpha (updateParticle ph c progress p)
  = match ph with shrink => 1 - progress | expand => progress end.
Proof.
  intros Ho. unfold updateParticle, ringRadius. rewrite Ho.
  destruct ph; cbn; (split; [reflexivity |]); (split; [| reflexivity]);
    unfold math.add, math.scale; cbn; f_equal; field.
Qed.

Lemma update_particles (c : Vector2) (ph : Phase) (n : nat) (progress : R) :
  Forall (fun p => exists a,
            offset p = mkVector2 (cos a * 15) (sin a * 15) /\
            particle_position p
            = mkVector2 (x c + cos a * ringRadius ph progress)
                        (y c + sin a * ringRadius ph progress) /\
            alpha p = match ph with shrink => 1 - progress | expand => progress end)
         (particles (update progress (new c ph (Some n)))).
Proof.
  destruct (new_particles c ph n) as [_ F].
  unfold update. cbn [particles phase centerPosition new] in *.
  apply Forall_map. eapply Forall_impl; [| exact F].
  intros p (a & Ho & _ & _). exists a.
  destruct (updateParticle_ring c ph progress a p Ho) as (O & P & A).
  rewrite O, P, A. repeat split. exact Ho.
Qed.

(** X23.  The particles are made as a ring of [particleCount] points
    15 pixels from the centre.  After an update with a progress in
    [0, 1] all of them lie on one circle around the centre, of radius
    15 + 60 progress when shrinking and 75 - 60 progress when expanding
    (so between 15 and 75), with an alpha in [0, 1]; where they lie
    depends on the progress alone, not on earlier updates; and the
    particles stay active while the progress is below 1. *)
Theorem hyperspaceParticles_ring (c : Vector2) (ph : Phase) (n : nat)
        (progress earlier : R) :
  0 <= progress <= 1 ->
  let h0 := new c ph (Some n) in
  let h := update progress h0 in
  List.length (particles h0) = n /\
  Forall (fun p => math.distance c (particle_position p) = 15) (particles h0) /\
  List.length (particles h) = n /\
  15 <= ringRadius ph progress <= 75 /\
  Forall (fun p => math.distance c (particle_position p) = ringRadius ph progress /\
                   0 <= alpha p <= 1) (particles h) /\
  particles (update progress (update earlier h0)) = particles h /\
  (particles_isActive h = true <-> progress < 1).
Proof.
  intros [H0 H1]. cbv zeta.
  assert (Hr : 15 <= ringRadius ph progress <= 75)
    by (unfold ringRadius; destruct ph; lra).
  destruct (new_particles c ph n) as [L F].
  split; [exact L |]. split; [| split; [| split; [exact Hr |]]].
  - eapply Forall_impl; [| exact F]. intros p (a & Ho & Hp & _).
    rewrite Hp, Ho. unfold math.add. cbn [x y]. rewrite distance_polar.
    apply Rabs_right. lra.
  - unfold update. cbn [particles]. rewrite length_map. exact L.
  - split; [| split].
    + eapply Forall_impl; [| apply update_particles]. intros p (a & _ & Hp & Ha).
      rewrite Hp, Ha, distance_polar. split; [apply Rabs_right; lra |].
      destruct ph; lra.
    + unfold update. cbn [particles phase centerPosition]. rewrite map_map.
      apply map_ext_in. intros p _. unfold updateParticle. destruct ph; reflexivity.
    + unfold update, Rgeb. cbn [particles_isActive new].
      destruct (Rle_dec 1 progress) as [H | H].
      * rewrite (Rleb_true _ _ H). split; [discriminate | intros; lra].
      * rewrite Rleb_false by lra. split; [intros; lra | reflexivity].
Qed.

Lemma hyperspaceParticles_ring_witness :
  ringRadius shrink (1 / 2) <= 75.
Proof.
  destruct (hyperspaceParticles_ring (mkVector2 400 300) shrink 24 (1 / 2) 0)
    as (_ & _ & _ & H & _); [lra |].
  apply H.
Defined.

(** X24.  The progress a ship reports, whatever was called on it with
    frame times within the cap of the game loop, is below 1: updating
    the particles with it, as the game does every frame, never
    deactivates them. *)
Theorem particles_follow_ship (cs : list ship.Call) (x0 y0 : R)
        (h : HyperspaceParticles) :
  Forall ship.capped cs ->
  particles_isActive (update (ship.getHyperspaceProgress (ship.calls cs (ship.new x0 y0))) h)
  = particles_isActive h.
Proof.
  intros Hc.
  destruct (in_phase_bounds (ship.calls cs (ship.new x0 y0))) as (_ & [_ Hp] & _).
  { apply in_phase_calls; [assumption | exact I]. }
  unfold update, Rgeb. cbn [particles_isActive]. rewrite Rleb_false by lra. reflexivity.
Qed.

Lemma particles_follow_ship_witness :
  particles_isActive
    (update (ship.getHyperspaceProgress
               (ship.calls [ship.call_activateHyperspace 10 10] (ship.new 400 300)))
            (new (mkVector2 400 300) shrink (Some 24%nat))) = true.
Proof.
  rewrite (particles_follow_ship [ship.call_activateHyperspace 10 10] 400 300
             (new (mkVector2 400 300) shrink (Some 24%nat))).
  - reflexivity.
  - repeat constructor.
Defined.

End ParticleRing.

(* ================================================================== *)
(** ** systems/input.ts and systems/textInput.ts: the keyboard *)

Section Keyboard.

Import io.

Lemma keydown_space (i : InputHandler) :
  spaceWasReleased (handle (keydown "Space") i) = false /\
  firePressed (handle (keydown "Space") i) = true /\
  startPressed (handle (keydown "Space") i) = spaceWasReleased i || startPressed i.
Proof.
  destruct i as [k f s r gl hy m]. cbn. destruct r, s; cbn; repeat split.
Qed.

Lemma handle_held (e : KeyEvent) (i : InputHandler) :
  e <> keyup "Space" ->
  startPressed i = false -> spaceWasReleased i = false ->
  startPressed (handle e i) = false /\ spaceWasReleased (handle e i) = false.
Proof.
  intros He Hs Hr. destruct i as [k f s r gl hy m]. cbn in Hs, Hr. subst s r.
  destruct e as [code | code]; unfold handle, updateKey.
  - repeat match goal with
      | |- context [if ?b then _ else _] => destruct b; cbn
      end; split; reflexivity.
  - destruct (code =? "Space")%string eqn:E.
    + apply String.eqb_eq in E. subst code. contradiction.
    + repeat match goal with
        | |- context [if ?b then _ else _] => destruct b; cbn
        end; split; reflexivity.
Qed.

Lemma handles_held (es : list KeyEvent) : forall i : InputHandler,
  Forall (fun e => e <> keyup "Space") es ->
  startPressed i = false -> spaceWasReleased i = false ->
  startPressed (handles es i) = false /\ spaceWasReleased (handles es i) = false.
Proof.
  induction es as [| e es IH]; intros i Hes Hs Hr; [split; assumption |].
  inversion Hes as [| ? ? He Hrest]; subst.
  change (handles (e :: es) i) with (handles es (handle e i)).
  destruct (handle_held e i He Hs Hr) as [Hs' Hr']. apply IH; assumption.
Qed.

(** X25.  A start press is registered once per press of the space bar:
    after a press has been consumed, no further key event registers one
    until the space bar has been released, whatever else is pressed or
    released and however often the held key repeats, while every repeat
    still registers a fire press; a release followed by a press
    registers a start press again; and a consumed press is not reported
    a second time. *)
Theorem start_press_needs_release (i : InputHandler) (es : list KeyEvent) :
  let i1 := snd (consumeStartPress (handle (keydown "Space") i)) in
  (Forall (fun e => e <> keyup "Space") es ->
     fst (consumeStartPress (handles es i1)) = false /\
     fst (consumeFirePress (handle (keydown "Space") (handles es i1))) = true) /\
  fst (consumeStartPress (handle (keydown "Space") (handle (keyup "Space") i))) = true /\
  fst (consumeStartPress (snd (consumeStartPress i))) = false.
Proof.
  cbv zeta. split; [| split].
  - intros Hes.
    destruct (keydown_space i) as (Hr & _ & _).
    set (i0 := handle (keydown "Space") i) in *.
    assert (H1 : startPressed (snd (consumeStartPress i0)) = false /\
                 spaceWasReleased (snd (consumeStartPress i0)) = false).
    { unfold consumeStartPress. destruct (startPressed i0) eqn:E; cbn; auto. }
    destruct H1 as [Hs1 Hr1].
    destruct (handles_held es _ Hes Hs1 Hr1) as [Hs2 _].
    split.
    + set (i2 := handles es (snd (consumeStartPress i0))) in *.
      unfold consumeStartPress. rewrite Hs2. reflexivity.
    + destruct (keydown_space (handles es (snd (consumeStartPress i0)))) as (_ & Hf & _).
      set (i3 := handle (keydown "Space") (handles es (snd (consumeStartPress i0)))) in *.
      unfold consumeFirePress. rewrite Hf. reflexivity.
  - destruct (keydown_space (handle (keyup "Space") i)) as (_ & _ & Hs).
    assert (Hr : spaceWasReleased (handle (keyup "Space") i) = true)
      by (destruct i as [k f s r gl hy m]; reflexivity).
    rewrite Hr in Hs. cbn [orb] in Hs.
    set (i2 := handle (keydown "Space") (handle (keyup "Space") i)) in *.
    unfold consumeStartPress. rewrite Hs. reflexivity.
  - unfold consumeStartPress. destruct (startPressed i) eqn:E; cbn; [reflexivity |].
    rewrite E. reflexivity.
Qed.

Lemma start_press_needs_release_witness :
  fst (consumeStartPress
         (handles [keydown "Space"; keydown "KeyA"; keydown "Space"]
            (snd (consumeStartPress (handle (keydown "Space") InputHandler_new)))))
  = false.
Proof.
  destruct (start_press_needs_release InputHandler_new
              [keydown "Space"; keydown "KeyA"; keydown "Space"]) as (H & _).
  apply H. repeat constructor; discriminate.
Defined.

(** *** Name entry *)

Lemma length_snoc (s : string) (c : Ascii.ascii) :
  String.length (s ++ String c EmptyString) = S (String.length s).
Proof. induction s as [| d s IH]; cbn; [reflexivity | rewrite IH; reflexivity]. Qed.

Lemma allChars_snoc (p : Ascii.ascii -> bool) (s : string) (c : Ascii.ascii) :
  allChars p (s ++ String c EmptyString) = allChars p s && p c.
Proof.
  induction s as [| d s IH]; cbn; [rewrite andb_true_r; reflexivity |].
  rewrite IH, andb_assoc. reflexivity.
Qed.

Lemma slice_snoc (s : string) (c : Ascii.ascii) :
  slice_0_m1 (s ++ String c EmptyString) = s.
Proof.
  induction s as [| d s IH]; [reflexivity |].
  cbn [append slice_0_m1]. rewrite IH.
  destruct s; reflexivity.
Qed.

Lemma slice_shorter (p : Ascii.ascii -> bool) (s : string) :
  (String.length (slice_0_m1 s) <= String.length s)%nat /\
  (allChars p s = true -> allChars p (slice_0_m1 s) = true).
Proof.
  induction s as [| d s [IH1 IH2]]; [split; auto |].
  destruct s as [| d' s'].
  - cbn. split; [lia | reflexivity].
  - change (slice_0_m1 (String d (String d' s')))
      with (String d (slice_0_m1 (String d' s'))).
    split; [cbn [String.length] in *; lia |].
    change (allChars p (String d (String d' s')))
      with (p d && allChars p (String d' s')).
    change (allChars p (String d (slice_0_m1 (String d' s'))))
      with (p d && allChars p (slice_0_m1 (String d' s'))).
    intros H. apply andb_true_iff in H. destruct H as [Hd Hs].
    rewrite Hd, (IH2 Hs). reflexivity.
Qed.

Lemma upper_is_nameChar (c : Ascii.ascii) :
  allowedChar c = true -> nameChar (toUpperCase c) = true.
Proof.
  destruct c as [[] [] [] [] [] [] [] []]; vm_compute; intros H;
    first [reflexivity | discriminate H].
Qed.

Lemma handleKeyDown_invariant (key : string) (t : TextInputHandler) :
  active t = true ->
  (String.length (text t) <= maxLength)%nat ->
  allChars nameChar (text t) = true ->
  active (handleKeyDown key t) = true /\
  (String.length (text (handleKeyDown key t)) <= maxLength)%nat /\
  allChars nameChar (text (handleKeyDown key t)) = true.
Proof.
  intros Ha Hl Hc. unfold handleKeyDown. rewrite Ha. cbn [negb].
  destruct (key =? "Enter")%string; [cbn; auto |].
  destruct (key =? "Escape")%string; [cbn; auto |].
  destruct (key =? "Backspace")%string.
  - destruct (0 <? String.length (text t))%nat; [| auto].
    destruct (slice_shorter nameChar (text t)) as [S1 S2].
    cbn. repeat split; [exact Ha | lia | apply S2; exact Hc].
  - destruct key as [| c [| c' rest]]; auto.
    destruct (allowedChar c) eqn:Hal; auto.
    destruct (String.length (text t) <? maxLength)%nat eqn:Hlt; auto.
    apply Nat.ltb_lt in Hlt. cbn [set_text active text].
    rewrite length_snoc, allChars_snoc, Hc, (upper_is_nameChar c Hal).
    repeat split; [exact Ha | lia].
Qed.

Lemma typed_invariant (ks : list string) : forall t : TextInputHandler,
  active t = true ->
  (String.length (text t) <= maxLength)%nat ->
  allChars nameChar (text t) = true ->
  active (typed ks t) = true /\
  (String.length (text (typed ks t)) <= maxLength)%nat /\
  allChars nameChar (text (typed ks t)) = true.
Proof.
  induction ks as [| key ks IH]; intros t Ha Hl Hc; [auto |].
  change (typed (key :: ks) t) with (typed ks (handleKeyDown key t)).
  destruct (handleKeyDown_invariant key t Ha Hl Hc) as (A & L & C).
  apply IH; assumption.
Qed.

Lemma typed_inactive (ks : list string) : forall t : TextInputHandler,
  active t = false -> typed ks t = t.
Proof.
  induction ks as [| key ks IH]; intros t Ha; [reflexivity |].
  change (typed (key :: ks) t) with (typed ks (handleKeyDown key t)).
  unfold handleKeyDown. rewrite Ha. cbn [negb]. apply IH. exact Ha.
Qed.

Lemma backspace_text (t : TextInputHandler) :
  active t = true -> text (handleKeyDown "Backspace" t) = slice_0_m1 (text t).
Proof.
  intros Ha. unfold handleKeyDown. rewrite Ha. cbn [negb].
  change ("Backspace" =? "Enter")%string with false.
  change ("Backspace" =? "Escape")%string with false.
  change ("Backspace" =? "Backspace")%string with true. cbv iota.
  destruct (text t) as [| c rest] eqn:E; cbn; [rewrite E |]; reflexivity.
Qed.

(** X26.  Whatever keys are typed into a name entry that has just been
    activated, the entry stays active and the name is at most 20
    characters long and made of capital letters, digits and spaces
    only.  A letter, digit or space typed while the name is shorter than
    20 characters is appended in upper case, and Backspace takes it away
    again; and a handler that is not active ignores every key. *)
Theorem name_entry_invariant (ks : list string) (t0 : TextInputHandler)
        (c : Ascii.ascii) :
  (active t0 = false ->
     typed ks t0 = t0 /\
     let t := typed ks (activate t0) in
     active t = true /\
     (String.length (text t) <= 20)%nat /\
     allChars nameChar (text t) = true) /\
  (active t0 = true -> allowedChar c = true -> (String.length (text t0) < 20)%nat ->
     let t1 := handleKeyDown (String c EmptyString) t0 in
     text t1 = (text t0 ++ String (toUpperCase c) EmptyString)%string /\
     text (handleKeyDown "Backspace" t1) = text t0).
Proof.
  split.
  - intros Ha. split; [apply typed_inactive; exact Ha |].
    apply typed_invariant; unfold activate; rewrite Ha; cbn; auto.
    unfold maxLength. lia.
  - intros Ha Hal Hlt. cbv zeta.
    assert (E : handleKeyDown (String c EmptyString) t0
                = set_text (text t0 ++ String (toUpperCase c) EmptyString)%string t0).
    { unfold handleKeyDown. rewrite Ha. cbn [negb].
      assert (Hn : forall k, String.length k <> 1%nat ->
                             (String c EmptyString =? k)%string = false).
      { intros k Hk. apply String.eqb_neq. intros <-. apply Hk. reflexivity. }
      rewrite !Hn by (cbn; lia). rewrite Hal.
      apply Nat.ltb_lt in Hlt. unfold maxLength. rewrite Hlt. reflexivity. }
    rewrite E. cbn [set_text text]. split; [reflexivity |].
    rewrite backspace_text by exact Ha. cbn [text]. apply slice_snoc.
Qed.

Lemma name_entry_invariant_witness :
  text (typed ["a"; "Shift"; "b"; "Backspace"; "7"]%string (activate TextInputHandler_new))
  = "A7"%string /\
  text (handleKeyDown "z" (typed ["a"]%string (activate TextInputHandler_new)))
  = "AZ"%string.
Proof.
  split; [reflexivity |].
  destruct (name_entry_invariant [] (typed ["a"]%string (activate TextInputHandler_new))
              (Ascii.ascii_of_nat 122)) as (_ & H).
  destruct H as (H & _); [reflexivity | reflexivity | vm_compute; lia |].
  refine (eq_trans H _). reflexivity.
Defined.

End Keyboard.

(* ================================================================== *)
(** ** core/game.ts: firing, the UFO and the game-over screen *)

Section GameRules.

Import io game.

Lemma magnitude_angleToVector (angle : R) :
  math.magnitude (math.angleToVector angle) = 1.
Proof.
  unfold math.magnitude, math.angleToVector. cbn [x y].
  replace (sin angle * sin angle + - cos angle * - cos angle)
    with (Rsqr (sin angle) + Rsqr (cos angle)) by (unfold Rsqr; ring).
  rewrite sin2_cos2. apply sqrt_1.
Qed.

(** X27.  [fire] adds one bullet to the player's bullets, restarts the
    fire cooldown at 0.25 s, plays the shot and changes nothing else of
    the session.  The bullet starts at the nose of the ship, 15 pixels
    ahead of its centre, and flies along the heading at 500 pixels per
    second: after a run of frames of non-negative length it is
    15 + 500 t pixels ahead of where the ship was, and still active
    exactly when t is less than 1.5 s. *)
Theorem fire_spec (g : Game) (dts : list R) :
  dts <> [] -> Forall (fun dt => 0 <= dt) dts ->
  let heading := math.angleToVector (rotation (transform (ship g))) in
  exists b : bullet.Bullet,
    bullets (fire g) = bullets g ++ [b] /\
    fireCooldown (fire g) = 25 / 100 /\
    audio (fire g) = audio g ++ [playShoot] /\
    ship (fire g) = ship g /\ data (fire g) = data g /\
    asteroids (fire g) = asteroids g /\
    position (transform b)
    = math.add (position (transform (ship g))) (math.scale heading 15) /\
    velocity b = math.scale heading 500 /\
    position (transform (bullet.updates dts b))
    = math.add (position (transform (ship g)))
               (math.scale heading (15 + 500 * ship.elapsed dts)) /\
    (isActive (bullet.updates dts b) = true <-> ship.elapsed dts < 3 / 2).
Proof.
  intros Hne Hpos heading.
  set (nose := ship.getNosePosition (ship g)).
  exists (bullet.new (x nose) (y nose) heading).
  destruct (bullet_path (x nose) (y nose) heading dts
              (magnitude_angleToVector _) Hne Hpos) as (P & _ & A & _).
  split; [reflexivity |]. split; [reflexivity |]. split; [reflexivity |].
  split; [reflexivity |]. split; [reflexivity |]. split; [reflexivity |].
  split; [| split; [| split]].
  - unfold nose, ship.getNosePosition. reflexivity.
  - reflexivity.
  - rewrite P. unfold nose, ship.getNosePosition, math.add, math.scale. cbn [x y].
    fold heading. f_equal; ring.
  - exact A.
Qed.

Lemma fire_spec_witness :
  exists b : bullet.Bullet,
    bullets (fire (new (mkRng (fun _ => 0) 0))) = [b] /\
    isActive (bullet.updates [1] b) = true.
Proof.
  destruct (fire_spec (new (mkRng (fun _ => 0) 0)) [1])
    as (b & Hb & _ & _ & _ & _ & _ & _ & _ & _ & Ha);
    [discriminate | repeat constructor; lra |].
  exists b. split; [exact Hb |]. apply Ha. unfold ship.elapsed. cbn. lra.
Defined.

(** *** A player's bullet against the UFO *)

Lemma firstBulletHit_None (e : Entity) (bs : list bullet.Bullet) :
  Forall (fun b : bullet.Bullet => collision.checkCollision b e = false) bs ->
  firstBulletHit e bs = None.
Proof.
  induction 1 as [| b bs Hb _ IH]; [reflexivity |].
  cbn [firstBulletHit]. rewrite Hb, IH. reflexivity.
Qed.

Lemma firstBulletHit_Some (e : Entity) (bs : list bullet.Bullet) :
  Exists (fun b : bullet.Bullet => collision.checkCollision b e = true) bs ->
  exists l1 b l2,
    bs = l1 ++ b :: l2 /\
    firstBulletHit e bs = Some (l1 ++ bullet.setBulletActive false b :: l2) /\
    Forall (fun b : bullet.Bullet => collision.checkCollision b e = false) l1 /\
    collision.checkCollision b e = true.
Proof.
  induction bs as [| b bs IH]; intros Hex; [inversion Hex |].
  destruct (collision.checkCollision b e) eqn:Hb.
  - exists [], b, bs. cbn [firstBulletHit app]. rewrite Hb. repeat split. constructor.
  - inversion Hex as [? ? Hhit | ? ? Hrest]; subst; [congruence |].
    destruct (IH Hrest) as (l1 & b' & l2 & E & F & N & H).
    exists (b :: l1), b', l2. cbn [firstBulletHit app]. rewrite Hb, F, E.
    repeat split; [constructor; assumption | assumption].
Qed.

Lemma linesLoop_tape (pos : Vector2) (rot : R) (sh : Shape) (todo : nat) :
  forall i acc g, tape (snd (debris.linesLoop todo i pos rot sh acc g)) = tape g.
Proof.
  induction todo as [| todo IH]; intros i acc g; [reflexivity |].
  cbn [debris.linesLoop]. rewrite !bind_proj, !randomRange_value. cbn [fst snd].
  rewrite IH. reflexivity.
Qed.

Lemma createDebris_tape (pos : Vector2) (rot : R) (sh : Shape) (c : option string)
      (g : Rng) :
  tape (snd (spawner.createDebris pos rot sh c g)) = tape g.
Proof.
  unfold spawner.createDebris, debris.new. rewrite bind_proj. cbn [ret snd].
  apply linesLoop_tape.
Qed.

(** X29.  [checkUFOCollisions] changes nothing when there is no UFO
    or when no bullet of the player touches it.  When some bullet does,
    the first such bullet in the list is deactivated and no other, the
    score rises by the points of the UFO, the UFO is removed, one piece
    of debris is added, the explosion is played and - with a random
    source that answers in [0, 1) - the next UFO is due in 15 to 30
    seconds. *)
Theorem checkUFOCollisions_spec (g : Game) :
  (ufo g = None -> checkUFOCollisions g = g) /\
  (forall u, ufo g = Some u ->
     Forall (fun b : bullet.Bullet => collision.checkCollision b u = false) (bullets g) ->
     checkUFOCollisions g = g) /\
  (forall u, ufo g = Some u -> wf_tape (tape (rng g)) ->
     Exists (fun b : bullet.Bullet => collision.checkCollision b u = true) (bullets g) ->
     let g' := checkUFOCollisions g in
     score (data g') = (score (data g) + baseEntity.points u)%Z /\
     ufo g' = None /\
     15 <= ufoSpawnTimer g' < 30 /\
     audio g' = audio g ++ [playUFOExplosion] /\
     List.length (debris g') = S (List.length (debris g)) /\
     asteroids g' = asteroids g /\
     exists l1 b l2,
       bullets g = l1 ++ b :: l2 /\
       bullets g' = l1 ++ bullet.setBulletActive false b :: l2 /\
       Forall (fun b : bullet.Bullet => collision.checkCollision b u = false) l1 /\
       collision.checkCollision b u = true).
Proof.
  split; [| split].
  - intros Hu. unfold checkUFOCollisions. rewrite Hu. reflexivity.
  - intros u Hu Hno. unfold checkUFOCollisions. rewrite Hu.
    rewrite (firstBulletHit_None u (bullets g) Hno). reflexivity.
  - intros u Hu Hwf Hex. cbv zeta.
    destruct (firstBulletHit_Some u (bullets g) Hex) as (l1 & b & l2 & E & F & N & H).
    unfold checkUFOCollisions. rewrite Hu, F.
    cbn [rng set_data set_bullets debris audio data score].
    pose proof (createDebris_tape (position (transform u)) (rotation (transform u))
                  (shape u) (Some "#0f0"%string) (rng g)) as T.
    destruct (spawner.createDebris _ _ _ _ (rng g)) as [d r]. cbn [snd] in T.
    cbn [rng set_rng set_debris set_audio set_ufo].
    unfold spawner.getNextUFOSpawnTime. rewrite randomRange_value.
    cbn. rewrite T.
    pose proof (Hwf (cursor r)).
    unfold CONFIG.ufo.spawnDelay.min, CONFIG.ufo.spawnDelay.max.
    split; [reflexivity |]. split; [reflexivity |]. split; [lra |].
    split; [reflexivity |]. split; [rewrite length_app; cbn; lia |].
    split; [reflexivity |].
    exists l1, b, l2. repeat split; assumption.
Qed.

Lemma checkUFOCollisions_spec_witness :
  let b := bullet.new 100 100 (mkVector2 1 0) in
  let u := fst (ufo.new 800 600 None None (mkRng (fun _ => 0) 0)) in
  let g := set_ufo (Some u) (set_bullets [b] (new (mkRng (fun _ => 0) 0))) in
  checkUFOCollisions g = g.
Proof.
  intros b u g.
  destruct (checkUFOCollisions_spec g) as (_ & H & _).
  apply (H u); [reflexivity |].
  constructor; [| constructor].
  unfold collision.checkCollision. cbn [isActive negb orb].
  change (isActive b) with true. change (isActive u) with true. cbn [negb orb].
  apply Rltb_false.
  assert (Hp : position (transform u) = mkVector2 (-20) (600 * (2 / 10))).
  { unfold u, ufo.new. cbn. rewrite Rltb_true by lra. f_equal; lra. }
  rewrite Hp. change (position (transform b)) with (mkVector2 100 100).
  change (radius b) with 2. change (radius u) with 20.
  unfold math.distance. cbn [x y].
  match goal with
  | |- _ <= sqrt ?a => assert (Hd : sqrt (22 * 22) <= sqrt a) by (apply sqrt_le_1; lra)
  end.
  rewrite sqrt_square in Hd by lra. lra.
Defined.

(** *** The game-over screen *)

Lemma resetGame_fresh (g : Game) :
  fresh (resetGame g) /\ rng (resetGame g) = rng g /\
  input (resetGame g) = clearAll (input g).
Proof.
  destruct (ufo g) eqn:Eu; destruct (gravityWell g) eqn:Eg;
    unfold resetGame, fresh; cbn; rewrite ?Eu, ?Eg; cbn; rewrite ?Eu, ?Eg; cbn;
    repeat split; assumption.
Qed.

Lemma startGame_frame (fuel : nat) (g g2 : Game) :
  startGame fuel g = Ok g2 ->
  data g2 = set_state playing (data g) /\ ship g2 = ship g /\
  bullets g2 = bullets g /\ ufoBullets g2 = ufoBullets g /\
  ufo g2 = ufo g /\ gravityWell g2 = gravityWell g.
Proof.
  unfold startGame, spawnAsteroids. cbn [rng set_input set_data ship asteroids].
  destruct (spawner.createAsteroids _ _ _ _ _ _ _) as [[wave r] | e]; [| discriminate].
  cbn. intros E. injection E as <-. cbn. repeat split.
Qed.

(** X30.  On the game-over screen a frame counts the return timer
    down.  When it runs out the game is reset: back on the start screen
    with score 0, 3 lives and level 1, an empty field, no UFO and no
    gravity well, and the ship active at the centre, at rest, with 3 s of
    invulnerability.  While it runs, a frame without a start press
    changes the timer only; and a start press resets the game and starts
    a new one at once - score 0, 3 lives, level 1, four large asteroids
    and the ship at the centre - provided the random source keeps offering
    positions outside the exclusion zone around the centre. *)
Theorem gameOver_screen (dt : R) (g : Game) :
  (gameOverTimer g - dt <= 0 ->
     forall fuel, exists g',
       update_gameOver fuel dt g = Ok g' /\ fresh g') /\
  (0 < gameOverTimer g - dt -> startPressed (input g) = false ->
     forall fuel,
       update_gameOver fuel dt g = Ok (set_gameOverTimer (gameOverTimer g - dt) g)) /\
  (0 < gameOverTimer g - dt -> startPressed (input g) = true ->
     spawner.eventuallyOutside renderer_width renderer_height
       (mkVector2 (renderer_width / 2) (renderer_height / 2)) 100 (tape (rng g)) ->
     exists (fuel0 : nat) (g' : Game),
       (forall fuel, (fuel0 <= fuel)%nat -> update_gameOver fuel dt g = Ok g') /\
       data g' = mkGameData 0 3 1 playing None None /\
       List.length (asteroids g') = 4%nat /\
       Forall liveLarge (asteroids g') /\
       bullets g' = [] /\ ufoBullets g' = [] /\ ufo g' = None /\
       isActive (ship g') = true /\
       position (transform (ship g'))
       = mkVector2 (renderer_width / 2) (renderer_height / 2) /\
       ship.invulnerableTime (ship g') = 3).
Proof.
  split; [| split].
  - intros Ht fuel. unfold update_gameOver. cbn [gameOverTimer set_gameOverTimer].
    rewrite (Rleb_true _ _ Ht). eexists. split; [reflexivity |].
    apply resetGame_fresh.
  - intros Ht Hs fuel. unfold update_gameOver. cbn [gameOverTimer set_gameOverTimer].
    rewrite Rleb_false by lra. unfold consumeStartPress.
    cbn [input set_gameOverTimer]. rewrite Hs.
    destruct g. reflexivity.
  - intros Ht Hs Hfair.
    set (g1 := set_input (set_startPressed false (input g))
                 (set_gameOverTimer (gameOverTimer g - dt) g)).
    destruct (resetGame_fresh g1)
      as ((D & As & Bs & Us & Ds & Uf & Gw & Rt & Ac & Po & Ve & Ro & Iv) & Rg & _).
    destruct (startGame_returns (resetGame g1)) as (fuel0 & g2 & Hret & _ & wave & Hw & Hl & Hall).
    { unfold eventuallyOutside_ship. rewrite Po, Rg. exact Hfair. }
    exists fuel0, g2.
    destruct (startGame_frame fuel0 _ _ (Hret fuel0 (Nat.le_refl _)))
      as (D2 & S2 & B2 & U2 & F2 & _).
    rewrite As in Hw. cbn [app] in Hw.
    split; [| split; [| split; [| split; [| split; [| split; [| split; [| split]]]]]]].
    + intros fuel Hf. unfold update_gameOver. cbn [gameOverTimer set_gameOverTimer].
      rewrite Rleb_false by lra. unfold consumeStartPress.
      cbn [input set_gameOverTimer]. rewrite Hs. fold g1. apply Hret. exact Hf.
    + rewrite D2, D. reflexivity.
    + rewrite Hw. exact Hl.
    + rewrite Hw. exact Hall.
    + rewrite B2. exact Bs.
    + rewrite U2. exact Us.
    + rewrite F2. exact Uf.
    + rewrite S2. exact Ac.
    + rewrite S2. split; [exact Po | exact Iv].
Qed.

Lemma gameOver_screen_witness :
  let g := set_gameOverTimer (1 / 20)
             (set_data (mkGameData 120 0 3 gameOver (Some 120%Z) (Some 3%Z))
                       (new (mkRng (fun _ => 0) 0))) in
  exists g', update_gameOver 0 (1 / 10) g = Ok g' /\
             data g' = mkGameData 0 3 1 start None None.
Proof.
  intros g. destruct (gameOver_screen (1 / 10) g) as (H & _).
  assert (Ht : gameOverTimer g - 1 / 10 <= 0) by (cbn; lra).
  destruct (H Ht 0%nat) as (g' & E & F & _).
  exists g'. split; [exact E | exact F].
Defined.

End GameRules.

(* ================================================================== *)
(** ** core/game.ts: a frame of the UFO *)

Section UFOFrame.

Import io game.

(** Where [UFO.update] puts the UFO, and what it does to the gun. *)
Lemma ufo_update_moved (dt : R) (u : ufo.UFO) (g : Rng) :
  let u1 := fst (ufo.update dt u g) in
  let vd :=
    if ufo.directionChangeTimer u - dt <=? 0
    then -1 + tape g (cursor g) * (1 - -1)
    else ufo.verticalDirection u in
  position (transform u1)
  = mkVector2
      (x (position (transform u)) + ufo.baseSpeed u * ufo.horizontalDirection u * dt)
      (y (position (transform u))
       + ufo.baseSpeed u * CONFIG.ufo.verticalSpeedFactor * vd * dt) /\
  radius u1 = radius u /\
  ufo.size u1 = ufo.size u /\
  ufo.horizontalDirection u1 = ufo.horizontalDirection u /\
  ufo.shootTimer u1
  = (if ufo.shootTimer u >? 0 then ufo.shootTimer u - dt else ufo.shootTimer u) /\
  ufo.shootCooldown u1 = ufo.shootCooldown u /\
  tape (snd (ufo.update dt u g)) = tape g.
Proof.
  unfold ufo.update. rewrite bind_proj.
  cbn [ufo.directionChangeTimer ufo.setDirectionChangeTimer].
  destruct (ufo.directionChangeTimer u - dt <=? 0).
  - rewrite !bind_proj, !randomRange_value. cbn.
    destruct (ufo.shootTimer u >? 0); cbn; repeat split; reflexivity.
  - cbn. destruct (ufo.shootTimer u >? 0); cbn; repeat split; reflexivity.
Qed.

(** The vertical wrap of [updateUFO]. *)
Lemma ufo_wrap_position (u1 : ufo.UFO) (h : R) :
  let y0 := y (position (transform u1)) in
  let u2 :=
    if y0 <? - radius u1
    then ufo.setEntity
           (setPosition (mkVector2 (x (position (transform u1))) (h + radius u1)) u1) u1
    else if y0 >? h + radius u1
    then ufo.setEntity
           (setPosition (mkVector2 (x (position (transform u1))) (- radius u1)) u1) u1
    else u1 in
  position (transform u2)
  = mkVector2 (x (position (transform u1)))
              (if y0 <? - radius u1 then h + radius u1
               else if y0 >? h + radius u1 then - radius u1
               else y0) /\
  radius u2 = radius u1 /\
  ufo.size u2 = ufo.size u1 /\
  ufo.horizontalDirection u2 = ufo.horizontalDirection u1 /\
  ufo.shootTimer u2 = ufo.shootTimer u1 /\
  ufo.shootCooldown u2 = ufo.shootCooldown u1.
Proof.
  cbv zeta.
  destruct (y (position (transform u1)) <? - radius u1); [cbn; repeat split |].
  destruct (y (position (transform u1)) >? h + radius u1); [cbn; repeat split |].
  repeat split. destruct (position (transform u1)); reflexivity.
Qed.

Lemma wrapped_in_band (y1 r h : R) :
  0 <= r -> 0 <= h ->
  - r <= (if y1 <? - r then h + r else if y1 >? h + r then - r else y1) <= h + r.
Proof.
  intros Hr Hh. unfold Rgtb.
  destruct (Rlt_dec y1 (- r)) as [H1 | H1].
  - rewrite (Rltb_true _ _ H1). lra.
  - rewrite Rltb_false by lra.
    destruct (Rlt_dec (h + r) y1) as [H2 | H2].
    + rewrite (Rltb_true _ _ H2). lra.
    + rewrite Rltb_false by lra. lra.
Qed.

(** A UFO whose timer has run out fires, within its inaccuracy of the
    direction of the player. *)
Lemma tryShoot_fires (px py : R) (u : ufo.UFO) (r : Rng) :
  wf_tape (tape r) -> ufo.shootTimer u <= 0 ->
  exists angle r',
    ufo.tryShoot px py u r
    = (Some angle, ufo.setShootTimer (ufo.shootCooldown u) u, r') /\
    tape r' = tape r /\
    Rabs (angle - atan2 (py - y (position (transform u)))
                        (px - x (position (transform u))))
    <= match ufo.size u with ufo.large => 4 / 10 | ufo.small => 15 / 100 end.
Proof.
  intros Hwf Ht. unfold ufo.tryShoot, Rgtb. rewrite (Rltb_false _ _ Ht).
  rewrite bind_proj, randomRange_value. cbn [fst snd ret].
  eexists _, _. split; [reflexivity |]. split; [reflexivity |].
  cbn [position transform ufo.setShootTimer ufo.ufo_base baseEntity.scoreable_base
       ufo.size].
  pose proof (Hwf (cursor r)) as [T0 T1].
  apply Rabs_le. destruct (ufo.size u); split; nra.
Qed.

(** The last step of [updateUFO]: a UFO that has left the screen is
    removed. *)
Lemma updateUFO_cleanup (u3 : ufo.UFO) (g3 : Game) :
  wf_tape (tape (rng g3)) ->
  let g' := if ufo.isOffScreen renderer_width u3
            then
              let (t, r) :=
                spawner.getNextUFOSpawnTime
                  (rng (set_ufo None (set_audio (audio g3 ++ [stopUFOSound]) g3))) in
              set_ufoSpawnTimer t
                (set_rng r (set_ufo None (set_audio (audio g3 ++ [stopUFOSound]) g3)))
            else set_ufo (Some u3) g3 in
  data g' = data g3 /\ ship g' = ship g3 /\ asteroids g' = asteroids g3 /\
  bullets g' = bullets g3 /\ ufoBullets g' = ufoBullets g3 /\
  (forall u', ufo g' = Some u' -> u' = u3 /\ ufo.isOffScreen renderer_width u3 = false) /\
  (ufo g' = None ->
     ufo.isOffScreen renderer_width u3 = true /\
     15 <= ufoSpawnTimer g' < 30 /\
     audio g' = audio g3 ++ [stopUFOSound]) /\
  (ufo.isOffScreen renderer_width u3 = false -> audio g' = audio g3) /\
  (ufo.isOffScreen renderer_width u3 = true ->
     audio g' = audio g3 ++ [stopUFOSound]).
Proof.
  intros Hwf3. cbv zeta.
  destruct (ufo.isOffScreen renderer_width u3) eqn:Hoff.
  - cbn [rng set_ufo set_audio]. unfold spawner.getNextUFOSpawnTime.
    rewrite randomRange_value. cbn.
    pose proof (Hwf3 (cursor (rng g3))) as Ht.
    unfold CONFIG.ufo.spawnDelay.min, CONFIG.ufo.spawnDelay.max.
    split; [reflexivity |]. split; [reflexivity |]. split; [reflexivity |].
    split; [reflexivity |]. split; [reflexivity |]. split; [| split; [| split]].
    + intros u' E. discriminate E.
    + intros _. split; [reflexivity |]. split; [lra | reflexivity].
    + intros E. discriminate E.
    + intros _. reflexivity.
  - cbn.
    split; [reflexivity |]. split; [reflexivity |]. split; [reflexivity |].
    split; [reflexivity |]. split; [reflexivity |]. split; [| split; [| split]].
    + intros u' E. injection E as <-. split; reflexivity.
    + intros E. discriminate E.
    + intros _. reflexivity.
    + intros E. discriminate E.
Qed.

Lemma isOffScreen_at (w : R) (u' : ufo.UFO) (px py r d : R) :
  position (transform u') = mkVector2 px py ->
  radius u' = r -> ufo.horizontalDirection u' = d ->
  ufo.isOffScreen w u'
  = (if d >? 0 then px >? w + r * 2 else px <? - (r * 2)).
Proof.
  intros P R D. unfold ufo.isOffScreen. rewrite P, R, D. reflexivity.
Qed.

Lemma gone_iff (o : option ufo.UFO) (b off : bool) :
  (forall u', o = Some u' -> b = false) -> (o = None -> b = true) -> b = off ->
  (o = None <-> off = true).
Proof.
  intros HS HN E. subst off. split; [exact HN |].
  intros Hb. destruct o as [u' |]; [| reflexivity].
  rewrite (HS u' eq_refl) in Hb. discriminate Hb.
Qed.

(** X28.  A frame of [updateUFO].  Without a UFO the spawn timer
    runs down by dt, and when it has run out a UFO is spawned and its
    sound started.  With a UFO (of non-negative radius, and a random
    source that answers in [0, 1)) the session data, the ship, the
    asteroids and the player's bullets are left alone.  The UFO moves to
    (px, py): px is its x advanced by speed * direction * dt, and py its
    y advanced by speed * 0.3 * verticalDirection * dt (the vertical
    direction being drawn anew when the direction timer has run out)
    and then wrapped, so that py lies within one radius of the screen.
    When the ship is active and not in hyperspace and the shoot timer,
    counted down by this frame, has run out, exactly one bullet is
    appended to the UFO's bullets: it starts at (px, py), the position
    of the UFO after the move and the wrap, flies at 500 pixels per
    second in a direction within the UFO's inaccuracy of the direction
    from (px, py) to the ship, the shot is played and the shoot timer
    restarts at the cooldown.  Otherwise no bullet is added.  A UFO that
    is still there after the frame is at (px, py) and not off screen; a
    UFO that has left the screen (by more than its diameter, on the
    side it is flying to) is removed, and only such a UFO; its sound is
    stopped last and the next one is due in 15 to 30 seconds. *)
Theorem updateUFO_spec (dt : R) (g : Game) :
  (ufo g = None ->
     (0 < ufoSpawnTimer g - dt ->
        updateUFO dt g = set_ufoSpawnTimer (ufoSpawnTimer g - dt) g) /\
     (ufoSpawnTimer g - dt <= 0 ->
        exists u,
          ufo (updateUFO dt g) = Some u /\
          audio (updateUFO dt g)
          = audio g ++ [startUFOSound
                          (match ufo.size u with ufo.small => true | ufo.large => false end)] /\
          ufoBullets (updateUFO dt g) = ufoBullets g)) /\
  (forall u, ufo g = Some u -> 0 <= radius u -> wf_tape (tape (rng g)) ->
     let vd :=
       if ufo.directionChangeTimer u - dt <=? 0
       then -1 + tape (rng g) (cursor (rng g)) * (1 - -1)
       else ufo.verticalDirection u in
     let px :=
       x (position (transform u)) + ufo.baseSpeed u * ufo.horizontalDirection u * dt in
     let y1 :=
       y (position (transform u))
       + ufo.baseSpeed u * CONFIG.ufo.verticalSpeedFactor * vd * dt in
     let py :=
       if y1 <? - radius u then renderer_height + radius u
       else if y1 >? renderer_height + radius u then - radius u
       else y1 in
     let timer :=
       if ufo.shootTimer u >? 0 then ufo.shootTimer u - dt else ufo.shootTimer u in
     let sx := x (position (transform (ship g))) in
     let sy := y (position (transform (ship g))) in
     let inaccuracy :=
       match ufo.size u with ufo.large => 4 / 10 | ufo.small => 15 / 100 end in
     let g' := updateUFO dt g in
     data g' = data g /\ ship g' = ship g /\ asteroids g' = asteroids g /\
     bullets g' = bullets g /\
     - radius u <= py <= renderer_height + radius u /\
     (isActive (ship g) = true -> ship.isInHyperspace (ship g) = false ->
      timer <= 0 ->
        exists angle,
          let b := bullet.new px py (mkVector2 (cos angle) (sin angle)) in
          ufoBullets g' = ufoBullets g ++ [b] /\
          position (transform b) = mkVector2 px py /\
          velocity b = mkVector2 (cos angle * 500) (sin angle * 500) /\
          math.magnitude (velocity b) = 500 /\
          Rabs (angle - atan2 (sy - py) (sx - px)) <= inaccuracy /\
          (exists cues, audio g' = audio g ++ playShoot :: cues) /\
          (forall u', ufo g' = Some u' -> ufo.shootTimer u' = ufo.shootCooldown u)) /\
     (isActive (ship g) = false \/ ship.isInHyperspace (ship g) = true \/ 0 < timer ->
        ufoBullets g' = ufoBullets g /\
        (forall u', ufo g' = Some u' -> ufo.shootTimer u' = timer /\ audio g' = audio g)) /\
     (forall u', ufo g' = Some u' ->
        ufo.isOffScreen renderer_width u' = false /\
        position (transform u') = mkVector2 px py /\
        radius u' = radius u /\ ufo.size u' = ufo.size u) /\
     (ufo g' = None ->
        15 <= ufoSpawnTimer g' < 30 /\
        exists cues, audio g' = cues ++ [stopUFOSound]) /\
     (ufo g' = None <->
      (if ufo.horizontalDirection u >? 0
       then px >? renderer_width + radius u * 2
       else px <? - (radius u * 2)) = true)).
Proof.
  split.
  - intros Hu. unfold updateUFO. rewrite Hu.
    cbn [ufoSpawnTimer set_ufoSpawnTimer]. split.
    + intros Ht. rewrite Rleb_false by lra. reflexivity.
    + intros Ht. rewrite (Rleb_true _ _ Ht). unfold spawnUFO.
      cbn [rng set_ufoSpawnTimer data].
      destruct (spawner.createUFO _ _ _ _) as [u r]. cbn.
      exists u. repeat split.
  - intros u Hu Hr Hwf vd px y1 py timer sx sy inaccuracy.
    assert (Hh : 0 <= renderer_height) by (unfold renderer_height; lra).
    pose proof (wrapped_in_band y1 (radius u) renderer_height Hr Hh) as Hband.
    fold py in Hband.
    cbv zeta. unfold updateUFO. rewrite Hu.
    destruct (ufo_update_moved dt u (rng g)) as (P1 & R1 & S1 & D1 & T1 & C1 & Tp1).
    cbv zeta in P1. fold vd in P1. fold px in P1. fold y1 in P1. fold timer in T1.
    destruct (ufo.update dt u (rng g)) as [u1 r1]. cbn [fst snd] in *.
    cbn [rng set_rng].
    destruct (ufo_wrap_position u1 renderer_height) as (P2 & R2 & S2 & D2 & T2 & C2).
    cbv zeta in P2, R2, S2, D2, T2, C2.
    set (u2 := if y (position (transform u1)) <? - radius u1
               then ufo.setEntity
                      (setPosition (mkVector2 (x (position (transform u1)))
                                              (renderer_height + radius u1)) u1) u1
               else if y (position (transform u1)) >? renderer_height + radius u1
               then ufo.setEntity
                      (setPosition (mkVector2 (x (position (transform u1)))
                                              (- radius u1)) u1) u1
               else u1) in *.
    rewrite P1, R1 in P2. cbn [x y] in P2. fold py in P2.
    rewrite R1 in R2. rewrite S1 in S2. rewrite T1 in T2. rewrite C1 in C2.
    cbn [ship set_rng].
    destruct (isActive (ship g) && negb (ship.isInHyperspace (ship g))) eqn:Hs.
    + apply andb_true_iff in Hs. destruct Hs as [Ha Hn].
      apply negb_true_iff in Hn.
      destruct (Rle_dec timer 0) as [Hready | Hwait].
      * (* the UFO fires *)
        destruct (tryShoot_fires sx sy u2 r1) as (angle & r' & E & T & Hspread).
        { rewrite Tp1. exact Hwf. }
        { rewrite T2. exact Hready. }
        fold sx. fold sy. rewrite E. rewrite P2 in Hspread. cbn [x y] in Hspread.
        rewrite S2 in Hspread. fold inaccuracy in Hspread.
        set (u3 := ufo.setShootTimer (ufo.shootCooldown u2) u2).
        assert (P3 : position (transform u3) = mkVector2 px py) by exact P2.
        rewrite P3. cbn [x y].
        set (bl := bullet.new px py (mkVector2 (cos angle) (sin angle))).
        destruct (updateUFO_cleanup u3
                    (set_audio (audio (set_rng r' (set_rng r1 g)) ++ [playShoot])
                       (set_ufoBullets (ufoBullets (set_rng r' (set_rng r1 g)) ++ [bl])
                          (set_rng r' (set_rng r1 g)))))
          as (A1 & A2 & A3 & A4 & A5 & A6 & A7 & A8 & A9).
        { cbn. rewrite T, Tp1. exact Hwf. }
        cbn [set_rng rng ufoBullets audio set_ufoBullets set_audio data ship asteroids
             bullets] in A1, A2, A3, A4, A5, A7, A8, A9.
        cbv zeta in A6, A7, A8, A9.
        split; [exact A1 |]. split; [exact A2 |]. split; [exact A3 |].
        split; [exact A4 |]. split; [exact Hband |].
        split; [| split; [| split; [| split]]].
        -- intros _ _ _. exists angle. cbv zeta. fold bl.
           split; [exact A5 |]. split; [reflexivity |]. split; [reflexivity |].
           split.
           { unfold bl, bullet.new.
             cbn [velocity setVelocity setRadius bullet.bullet_base
                  baseEntity.timed_base].
             apply magnitude_unit_scaled. unfold CONFIG.bullet.speed. lra. }
           split; [exact Hspread |]. split.
           { destruct (bool_dec (ufo.isOffScreen renderer_width u3) true) as [Hoff | Hoff].
             - exists [stopUFOSound]. refine (eq_trans (A9 Hoff) _).
               rewrite <- app_assoc. reflexivity.
             - apply not_true_is_false in Hoff.
               exists []. exact (A8 Hoff). }
           intros u' Eu. destruct (A6 u' Eu) as [-> _]. unfold u3. cbn. exact C2.
        -- intros [Hi | [Hi | Hi]]; [congruence | congruence | exfalso; lra].
        -- intros u' Eu. destruct (A6 u' Eu) as [-> Hoff].
           split; [exact Hoff |]. split; [exact P3 |].
           split; [exact R2 | exact S2].
        -- intros Eu. destruct (A7 Eu) as (_ & Ht & Haud).
           split; [exact Ht |]. eexists. exact Haud.
        -- apply (gone_iff _ _ _ (fun u' E => proj2 (A6 u' E)) (fun E => proj1 (A7 E))).
           apply (isOffScreen_at _ _ px py); [exact P3 | exact R2 |].
           unfold u3. cbn. rewrite D2. exact D1.
      * (* the UFO holds its fire *)
        assert (Hpos : 0 < ufo.shootTimer u2) by (rewrite T2; lra).
        fold sx. fold sy. rewrite (tryShoot_not_ready sx sy u2 r1 Hpos).
        destruct (updateUFO_cleanup u2 (set_rng r1 (set_rng r1 g)))
          as (A1 & A2 & A3 & A4 & A5 & A6 & A7 & A8 & A9).
        { cbn. rewrite Tp1. exact Hwf. }
        cbn [set_rng rng ufoBullets audio data ship asteroids bullets]
          in A1, A2, A3, A4, A5, A7, A8, A9.
        cbv zeta in A6, A7, A8, A9.
        split; [exact A1 |]. split; [exact A2 |]. split; [exact A3 |].
        split; [exact A4 |]. split; [exact Hband |].
        split; [| split; [| split; [| split]]].
        -- intros _ _ Hready. exfalso. lra.
        -- intros _. split; [exact A5 |].
           intros u' Eu. destruct (A6 u' Eu) as [-> Hoff].
           split; [exact T2 | exact (A8 Hoff)].
        -- intros u' Eu. destruct (A6 u' Eu) as [-> Hoff].
           split; [exact Hoff |]. split; [exact P2 |].
           split; [exact R2 | exact S2].
        -- intros Eu. destruct (A7 Eu) as (_ & Ht & Haud).
           split; [exact Ht |]. eexists. exact Haud.
        -- apply (gone_iff _ _ _ (fun u' E => proj2 (A6 u' E)) (fun E => proj1 (A7 E))).
           apply (isOffScreen_at _ _ px py); [exact P2 | exact R2 |].
           rewrite D2. exact D1.
    + (* the ship is no target *)
      destruct (updateUFO_cleanup u2 (set_rng r1 g))
        as (A1 & A2 & A3 & A4 & A5 & A6 & A7 & A8 & A9).
      { cbn. rewrite Tp1. exact Hwf. }
      cbn [set_rng rng ufoBullets audio data ship asteroids bullets]
        in A1, A2, A3, A4, A5, A7, A8, A9.
      cbv zeta in A6, A7, A8, A9.
      split; [exact A1 |]. split; [exact A2 |]. split; [exact A3 |].
      split; [exact A4 |]. split; [exact Hband |].
      split; [| split; [| split; [| split]]].
      * intros Ha Hn _. rewrite Ha, Hn in Hs. discriminate Hs.
      * intros _. split; [exact A5 |].
        intros u' Eu. destruct (A6 u' Eu) as [-> Hoff].
        split; [exact T2 | exact (A8 Hoff)].
      * intros u' Eu. destruct (A6 u' Eu) as [-> Hoff].
        split; [exact Hoff |]. split; [exact P2 |].
        split; [exact R2 | exact S2].
      * intros Eu. destruct (A7 Eu) as (_ & Ht & Haud).
        split; [exact Ht |]. eexists. exact Haud.
      * apply (gone_iff _ _ _ (fun u' E => proj2 (A6 u' E)) (fun E => proj1 (A7 E))).
        apply (isOffScreen_at _ _ px py); [exact P2 | exact R2 |].
        rewrite D2. exact D1.
Qed.

(** A large UFO at (100, 100) flying right at speed 100, its gun ready,
    with the ship at the centre of the screen: after a frame of 0.1 s
    it has fired one bullet from (110, 100), where it now is. *)
Lemma updateUFO_spec_witness :
  let u := ufo.mkUFO
             (baseEntity.mkScoreableEntity
                (mkEntity (mkTransform (mkVector2 100 100) 0 1) (mkVector2 100 0) 0 []
                          20 true) 200)
             ufo.large 1 0 100 1 0 2 in
  let g := set_ufo (Some u) (new (mkRng (fun _ => 1 / 2) 0)) in
  exists (b : bullet.Bullet) (u' : ufo.UFO),
    ufoBullets (updateUFO (1 / 10) g) = [b] /\
    ufo (updateUFO (1 / 10) g) = Some u' /\
    position (transform b) = mkVector2 (100 + 100 * 1 * (1 / 10)) 100 /\
    position (transform u') = position (transform b) /\
    math.magnitude (velocity b) = 500.
Proof.
  intros u g.
  destruct (updateUFO_spec (1 / 10) g) as (_ & H).
  assert (Hr : 0 <= radius u) by (cbn; lra).
  assert (Hwf : wf_tape (tape (rng g))) by (intros n; cbn; lra).
  destruct (H u eq_refl Hr Hwf) as (_ & _ & _ & _ & _ & Hfire & _ & Hstay & _ & Hgone).
  cbv zeta in Hfire, Hstay, Hgone.
  assert (Hpy : (if 100 + 100 * CONFIG.ufo.verticalSpeedFactor
                       * (if 1 - 1 / 10 <=? 0 then -1 + 1 / 2 * (1 - -1) else 0)
                       * (1 / 10) <? - (20)
                 then renderer_height + 20
                 else if 100 + 100 * CONFIG.ufo.verticalSpeedFactor
                            * (if 1 - 1 / 10 <=? 0 then -1 + 1 / 2 * (1 - -1) else 0)
                            * (1 / 10) >? renderer_height + 20
                 then - (20)
                 else 100 + 100 * CONFIG.ufo.verticalSpeedFactor
                      * (if 1 - 1 / 10 <=? 0 then -1 + 1 / 2 * (1 - -1) else 0)
                      * (1 / 10)) = 100).
  { unfold CONFIG.ufo.verticalSpeedFactor, renderer_height, Rgtb.
    rewrite (Rleb_false (1 - 1 / 10) 0) by lra.
    rewrite Rltb_false by lra. rewrite Rltb_false by lra. lra. }
  cbn [ufo.directionChangeTimer ufo.verticalDirection ufo.baseSpeed
       ufo.horizontalDirection ufo.shootTimer ufo.size position transform x y radius
       ufo.ufo_base baseEntity.scoreable_base u g rng tape cursor set_ufo new]
    in Hfire, Hstay, Hgone.
  destruct Hfire as (angle & Hb & Hp & _ & Hm & _).
  - reflexivity.
  - reflexivity.
  - unfold Rgtb. rewrite Rltb_false by lra. lra.
  - destruct (ufo (updateUFO (1 / 10) g)) as [u' |] eqn:Eu.
    + destruct (Hstay u' eq_refl) as (_ & Hpu & _).
      eexists _, u'. split; [exact Hb |]. split; [reflexivity |].
      rewrite Hp, Hpu. split; [| split; [reflexivity | exact Hm]].
      f_equal. exact Hpy.
    + exfalso. destruct Hgone as [Hg _]. specialize (Hg eq_refl). revert Hg.
      unfold renderer_width. rcompare. discriminate.
Defined.

End UFOFrame.
